(** * Flow Emulator: the Badger store and the blockchain facade

    A shallow embedding of [storage/badger/store.go] and [blockchain.go].
    The Badger database is a finite map from keys to byte strings, a
    read-write transaction threads the pending writes and the in-memory
    changelog through an error monad, and the facade threads the store and
    the pending block.  Unsigned Go integers are [N]; Go byte slices and
    strings are [string]. *)

From Stdlib Require Import NArith Lia.
From stdpp Require Import base option list gmap strings sorting lexico.

Open Scope N_scope.

(** ** Data model *)

Abbreviation Bytes := string.

(** [flowgo.Identifier]: a 32-byte digest, read as a number. *)
Abbreviation Identifier := N.

(** [flowgo.RegisterID]. *)
Record RegisterID := mkRegisterID {
  Owner : string;
  Controller : string;
  RegKey : string
}.

(** [flowgo.RegisterValue] is a byte slice; [None] is the nil slice that a
    delta holds for a deleted register. *)
Abbreviation RegisterValue := (option string).

(** [flowgo.Header] and [flowgo.Block], with the fields the emulator touches. *)
Record Header := mkHeader {
  Height : N;
  ParentID : N;
  Timestamp : N
}.

Record Block := mkBlock {
  BlockHeader : Header;
  Guarantees : list N
}.

(** [flowgo.LightCollection]. *)
Record LightCollection := mkLightCollection {
  Transactions : list N
}.

(** [flowgo.TransactionBody]. *)
Record TransactionBody := mkTransactionBody {
  Script : string;
  Arguments : list string;
  ReferenceBlockID : N;
  GasLimit : N;
  Payer : string
}.

(** [flowgo.Event]. *)
Record Event := mkEvent {
  EventType : string;
  TransactionID : N;
  TransactionIndex : N;
  EventIndex : N;
  Payload : string
}.

(** [types.StorableTransactionResult]. *)
Record StorableTransactionResult := mkStorableTransactionResult {
  ErrorCode : N;
  ErrorMessage : string;
  Logs : list string;
  Events : list Event
}.

(** [delta.Delta.RegisterUpdates()]: the registers a delta touches with
    their new values, as two parallel slices. *)
Abbreviation Delta := (list (RegisterID * option string)).

(** [changelist]: the block heights at which one register changed. *)
Abbreviation changelist := (list N).

#[global] Instance RegisterID_eq_dec : EqDecision RegisterID.
Proof. solve_decision. Defined.
#[global] Instance Header_eq_dec : EqDecision Header.
Proof. solve_decision. Defined.
#[global] Instance Block_eq_dec : EqDecision Block.
Proof. solve_decision. Defined.
#[global] Instance LightCollection_eq_dec : EqDecision LightCollection.
Proof. solve_decision. Defined.
#[global] Instance TransactionBody_eq_dec : EqDecision TransactionBody.
Proof. solve_decision. Defined.
#[global] Instance Event_eq_dec : EqDecision Event.
Proof. solve_decision. Defined.
#[global] Instance StorableTransactionResult_eq_dec :
  EqDecision StorableTransactionResult.
Proof. solve_decision. Defined.

#[global] Instance RegisterID_countable : Countable RegisterID.
Proof.
  refine (inj_countable' (λ r, (Owner r, Controller r, RegKey r))
            (λ t, mkRegisterID t.1.1 t.1.2 t.2) _).
  by intros [].
Defined.
#[global] Instance Header_countable : Countable Header.
Proof.
  refine (inj_countable' (λ h, (Height h, ParentID h, Timestamp h))
            (λ t, mkHeader t.1.1 t.1.2 t.2) _).
  by intros [].
Defined.
#[global] Instance Block_countable : Countable Block.
Proof.
  refine (inj_countable' (λ b, (BlockHeader b, Guarantees b))
            (λ t, mkBlock t.1 t.2) _).
  by intros [].
Defined.
#[global] Instance LightCollection_countable : Countable LightCollection.
Proof.
  refine (inj_countable' Transactions mkLightCollection _).
  by intros [].
Defined.
#[global] Instance TransactionBody_countable : Countable TransactionBody.
Proof.
  refine (inj_countable'
            (λ t, (Script t, Arguments t, ReferenceBlockID t, GasLimit t, Payer t))
            (λ t, mkTransactionBody t.1.1.1.1 t.1.1.1.2 t.1.1.2 t.1.2 t.2) _).
  by intros [].
Defined.
#[global] Instance Event_countable : Countable Event.
Proof.
  refine (inj_countable'
            (λ e, (EventType e, TransactionID e, TransactionIndex e,
                   EventIndex e, Payload e))
            (λ t, mkEvent t.1.1.1.1 t.1.1.1.2 t.1.1.2 t.1.2 t.2) _).
  by intros [].
Defined.
#[global] Instance StorableTransactionResult_countable :
  Countable StorableTransactionResult.
Proof.
  refine (inj_countable'
            (λ r, (ErrorCode r, ErrorMessage r, Logs r, Events r))
            (λ t, mkStorableTransactionResult t.1.1.1 t.1.1.2 t.1.2 t.2) _).
  by intros [].
Defined.

(** ** Keys of the database

    The key functions of the store ([blockKey], [ledgerValueKey], ...) are
    not part of the sources at hand; the key schema is the one of the
    specification, section 4.A, one constructor per key family. *)

(** Modelled from the spec: the key schema [block/<height>],
    [block_id/<id>], [latest_block], [collection/<id>], [tx/<id>],
    [tx_result/<id>], [ledger_val/<register>/<height>],
    [ledger_clog/<register>] and [event/<height>/<tx_idx>/<evt_idx>/<type>];
    the constructors carry the names of the key functions the store calls. *)
Inductive Key :=
  | blockKey (blockHeight : N)
  | blockIDIndexKey (blockID : N)
  | latestBlockKey
  | collectionKey (colID : N)
  | transactionKey (txID : N)
  | transactionResultKey (txID : N)
  | ledgerValueKey (registerID : RegisterID) (blockHeight : N)
  | ledgerChangelogKey (registerID : RegisterID)
  | eventKey (blockHeight txIndex eventIndex : N) (eventType : string).

#[global] Instance Key_eq_dec : EqDecision Key.
Proof. solve_decision. Defined.

Definition Key_to_sum (k : Key) :
  N + N + unit + N + N + N + (RegisterID * N) + RegisterID + (N * N * N * string) :=
  match k with
  | blockKey h => inl (inl (inl (inl (inl (inl (inl (inl h)))))))
  | blockIDIndexKey i => inl (inl (inl (inl (inl (inl (inl (inr i)))))))
  | latestBlockKey => inl (inl (inl (inl (inl (inl (inr tt))))))
  | collectionKey i => inl (inl (inl (inl (inl (inr i)))))
  | transactionKey i => inl (inl (inl (inl (inr i))))
  | transactionResultKey i => inl (inl (inl (inr i)))
  | ledgerValueKey r h => inl (inl (inr (r, h)))
  | ledgerChangelogKey r => inl (inr r)
  | eventKey h t e ty => inr (h, t, e, ty)
  end.

Definition Key_of_sum
  (s : N + N + unit + N + N + N + (RegisterID * N) + RegisterID + (N * N * N * string)) : Key :=
  match s with
  | inl (inl (inl (inl (inl (inl (inl (inl h))))))) => blockKey h
  | inl (inl (inl (inl (inl (inl (inl (inr i))))))) => blockIDIndexKey i
  | inl (inl (inl (inl (inl (inl (inr _)))))) => latestBlockKey
  | inl (inl (inl (inl (inl (inr i))))) => collectionKey i
  | inl (inl (inl (inl (inr i)))) => transactionKey i
  | inl (inl (inl (inr i))) => transactionResultKey i
  | inl (inl (inr (r, h))) => ledgerValueKey r h
  | inl (inr r) => ledgerChangelogKey r
  | inr (h, t, e, ty) => eventKey h t e ty
  end.

#[global] Instance Key_countable : Countable Key.
Proof.
  refine (inj_countable' Key_to_sum Key_of_sum _).
  by intros [].
Defined.

(** The database: Badger's ordered key-value store. *)
Abbreviation DB := (gmap Key string).

(** ** Errors and results *)

Inductive Result (E A : Type) :=
  | Ok (a : A)
  | Err (e : E).
Arguments Ok {E A} a.
Arguments Err {E A} e.

(** What a store operation can fail with. [ErrNotFound] is
    [storage.ErrNotFound]; the others stand for the opaque errors of the
    encoders, of Badger, of the snapshot repository, and for the failures
    [CommitBlock] and [setup] raise themselves. *)
Inductive StoreError :=
  | ErrNotFound
  | ErrEncoding
  | ErrDecoding
  | ErrBadgerSet
  | ErrCountMismatch
  | ErrNilResult
  | ErrInvalidRegisterID
  | ErrGit.

#[global] Instance StoreError_eq_dec : EqDecision StoreError.
Proof. solve_decision. Defined.

Definition isOk {E A} (r : Result E A) : bool :=
  match r with Ok _ => true | Err _ => false end.

(** ** What the store takes from outside *)

(** The encoders and decoders of the stored entities ([encodeBlock],
    [decodeBlock], ...) live in a file that is not part of the sources at
    hand.  They are parameters: an encoder may fail, and decoding what an
    encoder produced gives the entity back (specification, section 8,
    round trip). *)
Class Encoding := {
  encodeBlock : Block → option string;
  decodeBlock : string → option Block;
  encodeUint64 : N → option string;
  decodeUint64 : string → option N;
  encodeCollection : LightCollection → option string;
  decodeCollection : string → option LightCollection;
  encodeTransaction : TransactionBody → option string;
  decodeTransaction : string → option TransactionBody;
  encodeTransactionResult : StorableTransactionResult → option string;
  decodeTransactionResult : string → option StorableTransactionResult;
  encodeChangelist : list N → option string;
  decodeChangelist : string → option (list N);
  encodeEvent : Event → option string;
  decodeEvent : string → option Event;
  decode_encode_Block b s : encodeBlock b = Some s → decodeBlock s = Some b;
  decode_encode_Uint64 n s : encodeUint64 n = Some s → decodeUint64 s = Some n;
  decode_encode_Collection c s :
    encodeCollection c = Some s → decodeCollection s = Some c;
  decode_encode_Transaction t s :
    encodeTransaction t = Some s → decodeTransaction s = Some t;
  decode_encode_TransactionResult r s :
    encodeTransactionResult r = Some s → decodeTransactionResult s = Some r;
  decode_encode_Changelist l s :
    encodeChangelist l = Some s → decodeChangelist s = Some l;
  decode_encode_Event e s : encodeEvent e = Some s → decodeEvent s = Some e
}.

(** The digests [block.ID()], [col.ID()] and [tx.ID()]. *)
Class Hashing := {
  BlockID : Block → N;
  CollectionID : LightCollection → N;
  TxID : TransactionBody → N
}.

(** The failures of the environment: whether Badger refuses a write
    ([txn.Set] returns an error) and whether committing the database files
    to the snapshot repository fails ([w.Commit] in [newCommit]). *)
Class Faults := {
  setFails : Key → string → bool;
  checkpointFails : gmap Key string → bool
}.

(** The height [getMostRecentChange] returns for a register that has no
    change at or below the height asked for.  [LedgerViewByHeight] passes the
    result to [ledgerValueKey] as it is, so the changelog answers with a
    height; which one is not visible in the sources at hand. *)
Class Sentinel := notFound : N.

(** ** The changelog index

    [changelog.go] is not part of the sources at hand; the operations the
    store calls on [s.ledgerChangeLog] follow the specification,
    section 4.C. *)

(** Modelled from the spec: "An in-memory map from register_id to
    ordered_list<height>". *)
Abbreviation changelog := (gmap RegisterID (list N)).

(** Modelled from the spec: the empty index a new store starts from. *)
Definition newChangelog : changelog := ∅.

(** Modelled from the spec: the changelist of a register, empty when the
    register never changed. *)
Definition getChangelist (c : changelog) (registerID : RegisterID) : list N :=
  default [] (c !! registerID).

(** Modelled from the spec: "add(r, h): append under exclusive lock". *)
Definition addChange (c : changelog) (registerID : RegisterID)
    (blockHeight : N) : changelog :=
  <[registerID := getChangelist c registerID ++ [blockHeight]]> c.

(** Modelled from the spec: "rebuild_from_backend(): prefix-scan
    ledger_clog/* and populate"; this is the step that populates one
    register. *)
Definition setChangelist (c : changelog) (registerID : RegisterID)
    (clist : list N) : changelog :=
  <[registerID := clist]> c.

(** The loop of Go's [sort.Search]: the least index in [[i, j)] at which
    [f] holds, for an [f] that is false up to some index and true from
    there on.  Each round shrinks the interval, so [j - i] rounds are
    enough; [fuel] counts them. *)
Fixpoint searchLoop (fuel : nat) (f : nat → bool) (i j : nat) : nat :=
  match fuel with
  | O => i
  | S fuel' =>
      if decide (i < j)%nat then
        let h := ((i + j) / 2)%nat in
        if f h then searchLoop fuel' f i h else searchLoop fuel' f (S h) j
      else i
  end.

Definition sortSearch (n : nat) (f : nat → bool) : nat :=
  searchLoop n f 0 n.

(** Modelled from the spec: "most_recent(r, h) -> Option<height>: binary
    search for largest entry <= h."  The search looks for the first entry
    above [n]; the entry before it is the answer. *)
Definition search (blocks : list N) (n : N) : option N :=
  let foundIndex :=
    sortSearch (length blocks)
      (λ i, match blocks !! i with Some b => bool_decide (n < b) | None => true end) in
  match foundIndex with
  | O => None
  | S i => blocks !! i
  end.

(** Modelled from the spec: [most_recent] as the store calls it, with the
    sentinel height for "no such entry". *)
Definition getMostRecentChange `{Sentinel} (c : changelog)
    (registerID : RegisterID) (blockHeight : N) : N :=
  default notFound (search (getChangelist c registerID) blockHeight).

(** ** The order of the keys

    Badger iterates in byte-wise lexicographic order.  The numeric parts of
    a key have a fixed width and are big-endian, so two keys compare as the
    sequences of their parts do: the key family first, then each number as
    one digit, then the bytes of the trailing string. *)

Definition stringPath (s : string) : list N :=
  (λ a, Ascii.N_of_ascii a) <$> String.list_ascii_of_string s.

Definition registerPath (r : RegisterID) : list N :=
  [N.of_nat (String.length (Owner r))] ++ stringPath (Owner r) ++
  [N.of_nat (String.length (Controller r))] ++ stringPath (Controller r) ++
  [N.of_nat (String.length (RegKey r))] ++ stringPath (RegKey r).

(** Modelled from the spec: the position of a key in the iteration order,
    after the key schema of section 4.A ("big-endian heights give
    lexicographic = numeric order"). *)
Definition keyPath (k : Key) : list N :=
  match k with
  | blockKey h => [0; h]
  | blockIDIndexKey i => [1; i]
  | collectionKey i => [2; i]
  | eventKey h t e ty => [3; h; t; e] ++ stringPath ty
  | latestBlockKey => [4]
  | ledgerChangelogKey r => [5] ++ registerPath r
  | ledgerValueKey r h => [6] ++ registerPath r ++ [h]
  | transactionKey i => [7; i]
  | transactionResultKey i => [8; i]
  end.

Definition keyLt (k1 k2 : Key) : Prop := lexico (keyPath k1) (keyPath k2).
Definition keyLe (k1 k2 : Key) : Prop := ¬ keyLt k2 k1.

#[global] Instance keyLt_dec k1 k2 : Decision (keyLt k1 k2).
Proof.
  unfold keyLt.
  destruct (trichotomyT lexico (keyPath k1) (keyPath k2)) as [[Hlt|Heq]|Hgt].
  - by left.
  - right. rewrite Heq. apply (irreflexivity lexico).
  - right. intros Hlt. apply (irreflexivity lexico (keyPath k1)).
    by trans (keyPath k2).
Defined.
#[global] Instance keyLe_dec k1 k2 : Decision (keyLe k1 k2).
Proof. unfold keyLe. apply _. Defined.

Definition entryLe (e1 e2 : Key * string) : Prop := keyLe e1.1 e2.1.
#[global] Instance entryLe_dec e1 e2 : Decision (entryLe e1 e2).
Proof. unfold entryLe. apply _. Defined.

(** The entries of the database in iteration order. *)
Definition sortedEntries (db : DB) : list (Key * string) :=
  merge_sort entryLe (map_to_list db).

Fixpoint dropWhile {A} (p : A → bool) (l : list A) : list A :=
  match l with
  | [] => []
  | x :: l' => if p x then dropWhile p l' else l
  end.

Fixpoint takeWhile {A} (p : A → bool) (l : list A) : list A :=
  match l with
  | [] => []
  | x :: l' => if p x then x :: takeWhile p l' else []
  end.

(** An iterator with [iterOpts.Prefix] set: [Seek(start)] skips the keys
    below [start], and the iterator stays [Valid] while the key has the
    prefix. *)
Definition iterate (db : DB) (hasPrefix : Key → bool) (start : Key)
    : list (Key * string) :=
  takeWhile (λ e, hasPrefix e.1)
    (dropWhile (λ e, bool_decide (keyLt e.1 start)) (sortedEntries db)).

(** [iter.Rewind()] starts at the first key that has the prefix. *)
Definition iterateAll (db : DB) (hasPrefix : Key → bool) : list (Key * string) :=
  takeWhile (λ e, hasPrefix e.1)
    (dropWhile (λ e, negb (hasPrefix e.1)) (sortedEntries db)).

(** ** Transactions of the database

    The function handed to [db.Update] reads and writes through a
    [badger.Txn]; the ledger functions also change the in-memory changelog
    of the store while they run.  [Txn] threads both; an error stops the
    run and keeps the state reached by then. *)

Record TxnState := mkTxnState {
  txnDB : gmap Key string;
  txnChangeLog : gmap RegisterID (list N)
}.

Definition Txn (A : Type) : Type := TxnState → Result StoreError A * TxnState.

(** The state-and-error monad, for any state and error type: the facade
    uses it over the blockchain. *)
Definition ret {S E A} (a : A) : S → Result E A * S := λ st, (Ok a, st).
Definition fail {S E A} (e : E) : S → Result E A * S := λ st, (Err e, st).
Definition bind {S E A B} (m : S → Result E A * S)
    (k : A → S → Result E B * S) : S → Result E B * S :=
  λ st, match m st with
        | (Ok a, st') => k a st'
        | (Err e, st') => (Err e, st')
        end.

Notation "x <- m ;; k" := (bind m (λ x, k))
  (at level 100, m at next level, right associativity).
Notation "m ;;; k" := (bind m (λ _, k))
  (at level 100, right associativity).

(** An encoder's or decoder's result, as the [if err != nil] after it. *)
Definition encoded {A} (o : option A) : Txn A :=
  match o with Some a => ret a | None => fail ErrEncoding end.
Definition decoded {A} (o : option A) : Txn A :=
  match o with Some a => ret a | None => fail ErrDecoding end.

(** [for _, x := range xs] over a body that may fail. *)
Fixpoint forEach {A} (xs : list A) (body : A → Txn unit) : Txn unit :=
  match xs with
  | [] => ret tt
  | x :: xs' => body x ;;; forEach xs' body
  end.

(** [getTx(txn)(key)]: the value under [key], Badger's key-not-found as
    [storage.ErrNotFound]. *)
Definition getTx (key : Key) : Txn string :=
  λ st, match txnDB st !! key with
        | Some val => (Ok val, st)
        | None => (Err ErrNotFound, st)
        end.

(** [txn.Set(key, value)]. *)
Definition txnSet `{Faults} (key : Key) (value : string) : Txn unit :=
  λ st, if setFails key value then (Err ErrBadgerSet, st)
        else (Ok tt, mkTxnState (<[key := value]> (txnDB st)) (txnChangeLog st)).

(** The changelog calls of [insertLedgerDelta]. *)
Definition txnAddChange (registerID : RegisterID) (blockHeight : N) : Txn unit :=
  λ st, (Ok tt, mkTxnState (txnDB st) (addChange (txnChangeLog st) registerID blockHeight)).
Definition txnGetChangelist (registerID : RegisterID) : Txn (list N) :=
  λ st, (Ok (getChangelist (txnChangeLog st) registerID), st).
Definition txnSetChangelist (registerID : RegisterID) (clist : list N) : Txn unit :=
  λ st, (Ok tt, mkTxnState (txnDB st) (setChangelist (txnChangeLog st) registerID clist)).

(** ** The store *)

(** The snapshot repository under the database directory: the database
    files as committed at the head of each branch, the files each tag
    points to, and the branch that is checked out. *)
Record Repository := mkRepository {
  branches : gmap string (gmap Key string);
  tags : gmap string (gmap Key string);
  currentBranch : string
}.

(** [Store]: the database, the in-memory changelog and the repository. *)
Record Store := mkStore {
  db : gmap Key string;
  ledgerChangeLog : gmap RegisterID (list N);
  dbGitRepository : Repository
}.

(** [s.db.Update(fn)]: the writes of [fn] reach the database when [fn]
    returns no error and are dropped otherwise.  The changelog is a field
    of the store and not of the transaction: it keeps what [fn] did to it
    either way. *)
Definition Update (s : Store) (fn : Txn unit) : Result StoreError unit * Store :=
  match fn (mkTxnState (db s) (ledgerChangeLog s)) with
  | (Ok _, st) => (Ok tt, mkStore (txnDB st) (txnChangeLog st) (dbGitRepository s))
  | (Err e, st) => (Err e, mkStore (db s) (txnChangeLog st) (dbGitRepository s))
  end.

(** [s.db.View(fn)]: a read-only transaction. *)
Definition ViewTxn {A} (s : Store) (fn : Txn A) : Result StoreError A :=
  (fn (mkTxnState (db s) (ledgerChangeLog s))).1.

(** [newCommit]: commits the database files to the branch checked out. *)
Definition newCommit `{Faults} (s : Store) : Result StoreError unit * Store :=
  if checkpointFails (db s) then (Err ErrGit, s)
  else
    let r := dbGitRepository s in
    (Ok tt,
     mkStore (db s) (ledgerChangeLog s)
       (mkRepository (<[currentBranch r := db s]> (branches r)) (tags r)
          (currentBranch r))).

(** [getLatestBlockHeightTx]. *)
Definition getLatestBlockHeightTx `{Encoding} : Txn N :=
  encBlockHeight <- getTx latestBlockKey ;;
  decoded (decodeUint64 encBlockHeight).

(** [store(block)]: a missing latest height reads as zero. *)
Definition store `{Encoding, Hashing, Faults} (block : Block) : Txn unit :=
  encBlock <- encoded (encodeBlock block) ;;
  encBlockHeight <- encoded (encodeUint64 (Height (BlockHeader block))) ;;
  latestBlockHeight <-
    (λ st, match getLatestBlockHeightTx st with
           | (Err ErrNotFound, st') => (Ok 0, st')
           | other => other
           end) ;;
  txnSet (blockKey (Height (BlockHeader block))) encBlock ;;;
  txnSet (blockIDIndexKey (BlockID block)) encBlockHeight ;;;
  if decide (latestBlockHeight ≤ Height (BlockHeader block))
  then txnSet latestBlockKey encBlockHeight
  else ret tt.

Definition insertCollection `{Encoding, Hashing, Faults} (col : LightCollection)
    : Txn unit :=
  encCol <- encoded (encodeCollection col) ;;
  txnSet (collectionKey (CollectionID col)) encCol.

Definition insertTransaction `{Encoding, Faults} (txID : N) (tx : TransactionBody)
    : Txn unit :=
  encTx <- encoded (encodeTransaction tx) ;;
  txnSet (transactionKey txID) encTx.

Definition insertTransactionResult `{Encoding, Faults} (txID : N)
    (result : StorableTransactionResult) : Txn unit :=
  encResult <- encoded (encodeTransactionResult result) ;;
  txnSet (transactionResultKey txID) encResult.

(** [insertLedgerDelta]: a register with a value is written at this block;
    a deleted register (nil value) writes nothing; either way the change is
    recorded in the changelog and the changelist is written out. *)
Definition insertLedgerDelta `{Encoding, Faults} (blockHeight : N)
    (delta : list (RegisterID * option string)) : Txn unit :=
  forEach delta (λ '(registerID, value),
    match value with
    | Some v => txnSet (ledgerValueKey registerID blockHeight) v
    | None => ret tt
    end ;;;
    txnAddChange registerID blockHeight ;;;
    clist <- txnGetChangelist registerID ;;
    encChangelist <- encoded (encodeChangelist clist) ;;
    txnSet (ledgerChangelogKey registerID) encChangelist).

Definition insertEvents `{Encoding, Faults} (blockHeight : N) (events : list Event)
    : Txn unit :=
  forEach events (λ event,
    b <- encoded (encodeEvent event) ;;
    txnSet
      (eventKey blockHeight (TransactionIndex event) (EventIndex event)
         (EventType event)) b).

(** The function [CommitBlock] hands to [db.Update].  A transaction whose
    result is missing from [transactionResults] makes the Go code
    dereference a nil pointer; the panic unwinds through [db.Update], which
    discards the transaction, and is modelled as the error [ErrNilResult]. *)
Definition commitBlockTxn `{Encoding, Hashing, Faults} (block : Block)
    (collections : list LightCollection)
    (transactions : gmap N TransactionBody)
    (transactionResults : gmap N StorableTransactionResult)
    (delta : list (RegisterID * option string)) (events : list Event) : Txn unit :=
  store block ;;;
  forEach collections insertCollection ;;;
  forEach (map_to_list transactions) (λ '(txID, tx),
    insertTransaction txID tx ;;;
    match transactionResults !! txID with
    | Some result => insertTransactionResult txID result
    | None => fail ErrNilResult
    end) ;;;
  insertLedgerDelta (Height (BlockHeader block)) delta ;;;
  insertEvents (Height (BlockHeader block)) events.

(** [Store.CommitBlock].  A nil [events] slice and an empty one behave the
    same: [insertEvents] over no events writes nothing. *)
Definition CommitBlock `{Encoding, Hashing, Faults} (s : Store) (block : Block)
    (collections : list LightCollection)
    (transactions : gmap N TransactionBody)
    (transactionResults : gmap N StorableTransactionResult)
    (delta : list (RegisterID * option string)) (events : list Event)
    : Result StoreError unit * Store :=
  if decide (size transactions ≠ size transactionResults) then
    (Err ErrCountMismatch, s)
  else
    match Update s (commitBlockTxn block collections transactions
                      transactionResults delta events) with
    | (Err e, s') => (Err e, s')
    | (Ok _, s') => newCommit s'
    end.

Definition StoreBlock `{Encoding, Hashing, Faults} (s : Store) (block : Block) :=
  Update s (store block).
Definition InsertCollection `{Encoding, Hashing, Faults} (s : Store)
    (col : LightCollection) :=
  Update s (insertCollection col).
Definition InsertTransaction `{Encoding, Hashing, Faults} (s : Store)
    (tx : TransactionBody) :=
  Update s (insertTransaction (TxID tx) tx).
Definition InsertTransactionResult `{Encoding, Faults} (s : Store) (txID : N)
    (result : StorableTransactionResult) :=
  Update s (insertTransactionResult txID result).
Definition InsertLedgerDelta `{Encoding, Faults} (s : Store) (blockHeight : N)
    (delta : list (RegisterID * option string)) :=
  Update s (insertLedgerDelta blockHeight delta).
Definition InsertEvents `{Encoding, Faults} (s : Store) (blockHeight : N)
    (events : list Event) :=
  Update s (insertEvents blockHeight events).

(** *** Reading *)

Definition LatestBlock `{Encoding} (s : Store) : Result StoreError Block :=
  ViewTxn s (
    latestBlockHeight <- getLatestBlockHeightTx ;;
    encBlock <- getTx (blockKey latestBlockHeight) ;;
    decoded (decodeBlock encBlock)).

Definition BlockByID `{Encoding} (s : Store) (blockID : N) : Result StoreError Block :=
  ViewTxn s (
    encBlockHeight <- getTx (blockIDIndexKey blockID) ;;
    blockHeight <- decoded (decodeUint64 encBlockHeight) ;;
    encBlock <- getTx (blockKey blockHeight) ;;
    decoded (decodeBlock encBlock)).

Definition BlockByHeight `{Encoding} (s : Store) (blockHeight : N)
    : Result StoreError Block :=
  ViewTxn s (
    encBlock <- getTx (blockKey blockHeight) ;;
    decoded (decodeBlock encBlock)).

Definition CollectionByID `{Encoding} (s : Store) (colID : N)
    : Result StoreError LightCollection :=
  ViewTxn s (
    encCol <- getTx (collectionKey colID) ;;
    decoded (decodeCollection encCol)).

Definition TransactionByID `{Encoding} (s : Store) (txID : N)
    : Result StoreError TransactionBody :=
  ViewTxn s (
    encTx <- getTx (transactionKey txID) ;;
    decoded (decodeTransaction encTx)).

Definition TransactionResultByID `{Encoding} (s : Store) (txID : N)
    : Result StoreError StorableTransactionResult :=
  ViewTxn s (
    encResult <- getTx (transactionResultKey txID) ;;
    decoded (decodeTransactionResult encResult)).

(** The read function of [Store.LedgerViewByHeight]: the register's most
    recent change at or below [blockHeight], then the value written there;
    a key that is not found reads as the nil value. *)
Definition LedgerViewByHeight `{Sentinel} (s : Store) (blockHeight : N)
    (id : RegisterID) : Result StoreError (option string) :=
  let lastChangedBlock := getMostRecentChange (ledgerChangeLog s) id blockHeight in
  match ViewTxn s (getTx (ledgerValueKey id lastChangedBlock)) with
  | Ok value => Ok (Some value)
  | Err ErrNotFound => Ok None
  | Err e => Err e
  end.

(** Modelled from the spec: [eventKeyBlockPrefix], the keys
    [event/<height>/...] of one block. *)
Definition eventKeyBlockPrefix (blockHeight : N) (k : Key) : bool :=
  match k with
  | eventKey h _ _ _ => bool_decide (h = blockHeight)
  | _ => false
  end.

(** Modelled from the spec: [eventKeyHasType], whether the type part of an
    event key is the type asked for ("returns matching events"). *)
Definition eventKeyHasType (k : Key) (eventType : string) : bool :=
  match k with
  | eventKey _ _ _ ty => bool_decide (ty = eventType)
  | _ => false
  end.

(** The loop of [EventsByHeight] over the entries the iterator yields. *)
Fixpoint collectEvents `{Encoding} (entries : list (Key * string))
    (eventType : string) (events : list Event)
    : Result StoreError (list Event) :=
  match entries with
  | [] => Ok events
  | (key, b) :: rest =>
      if bool_decide (eventType ≠ "") && negb (eventKeyHasType key eventType)
      then collectEvents rest eventType events
      else
        match decodeEvent b with
        | Some event => collectEvents rest eventType (events ++ [event])
        | None => Err ErrDecoding
        end
  end.

Definition EventsByHeight `{Encoding} (s : Store) (blockHeight : N)
    (eventType : string) : Result StoreError (list Event) :=
  collectEvents
    (iterate (db s) (eventKeyBlockPrefix blockHeight) (eventKey blockHeight 0 0 ""))
    eventType [].

(** *** Start-up and snapshots *)

(** Modelled from the spec: the keys [ledger_clog/...]. *)
Definition hasLedgerChangelogKeyPrefix (k : Key) : bool :=
  match k with ledgerChangelogKey _ => true | _ => false end.

(** Modelled from the spec: [registerIDFromLedgerChangelogKey]. *)
Definition registerIDFromLedgerChangelogKey (k : Key) : option RegisterID :=
  match k with ledgerChangelogKey r => Some r | _ => None end.

(** The read-only transaction of [setup]: every persisted changelist is
    decoded and put into the in-memory changelog. *)
Definition loadChangelists `{Encoding} (entries : list (Key * string)) : Txn unit :=
  forEach entries (λ '(key, encClist),
    match registerIDFromLedgerChangelogKey key with
    | None => fail ErrInvalidRegisterID
    | Some registerID =>
        clist <- decoded (decodeChangelist encClist) ;;
        txnSetChangelist registerID clist
    end).

(** [Store.setup]: the working tree is reset to the head of the repository
    when there is one, the session is committed, and the changelog is read
    from the database. *)
Definition setup `{Encoding, Faults} (s : Store) : Result StoreError unit * Store :=
  let r := dbGitRepository s in
  let s0 :=
    match branches r !! currentBranch r with
    | Some head => mkStore head (ledgerChangeLog s) r
    | None => s
    end in
  match newCommit s0 with
  | (Err e, s1) => (Err e, s1)
  | (Ok _, s1) =>
      match loadChangelists (iterateAll (db s1) hasLedgerChangelogKeyPrefix)
              (mkTxnState (db s1) (ledgerChangeLog s1)) with
      | (res, st) => (res, mkStore (db s1) (txnChangeLog st) (dbGitRepository s1))
      end
  end.

Definition emptyRepository : Repository := mkRepository ∅ ∅ "master".

(** [New]: a store over the database found in the directory. *)
Definition New `{Encoding, Faults} (files : gmap Key string) (r : Repository)
    : Result StoreError unit * Store :=
  setup (mkStore files newChangelog r).

(** The changelog that [setup] builds for a database: what a store opened
    on these files starts with. *)
Definition rebuildChangelog `{Encoding} (files : gmap Key string)
    : Result StoreError (gmap RegisterID (list N)) :=
  match loadChangelists (iterateAll files hasLedgerChangelogKeyPrefix)
          (mkTxnState files newChangelog) with
  | (Ok _, st) => Ok (txnChangeLog st)
  | (Err e, _) => Err e
  end.

(** [Store.JumpToContext].  The session is committed; when the branch of
    the context exists it is checked out, a new branch (named by
    [newBranchUuid]) is created there and reset to the tag of the context;
    otherwise the branch is created at the head and tagged.  Then the
    database is opened again on the files of the working tree.  The
    changelog field is not assigned. *)
Definition JumpToContext `{Faults} (s : Store) (context newBranchUuid : string)
    : Result StoreError unit * Store :=
  match newCommit s with
  | (Err e, s1) => (Err e, s1)
  | (Ok _, s1) =>
      let r := dbGitRepository s1 in
      match branches r !! context with
      | None =>
          let tags' :=
            match tags r !! context with
            | Some _ => tags r
            | None => <[context := db s1]> (tags r)
            end in
          (Ok tt,
           mkStore (db s1) (ledgerChangeLog s1)
             (mkRepository (<[context := db s1]> (branches r)) tags' context))
      | Some head =>
          match branches r !! newBranchUuid with
          | Some _ => (Err ErrGit, s1)
          | None =>
              let files := default head (tags r !! context) in
              (Ok tt,
               mkStore files (ledgerChangeLog s1)
                 (mkRepository (<[newBranchUuid := files]> (branches r)) (tags r)
                    newBranchUuid))
          end
      end
  end.

(** [Store.Close]. *)
Definition Close `{Faults} (s : Store) : Result StoreError unit * Store :=
  newCommit s.

Definition emptyStore : Store := mkStore ∅ newChangelog emptyRepository.

(** ** The pending block

    [pendingBlock.go] is not part of the sources at hand; the pending block
    follows the specification, section 4.F. *)

(** [delta.View]: a read function (the ledger of the store at a height) and
    the writes made through the view. *)
Record LedgerView := mkLedgerView {
  viewHeight : N;
  viewDelta : gmap RegisterID (option string)
}.

(** [fvm.TransactionProcedure] after [vm.Run]: the transaction, the
    registers it wrote through its view, and its logs, events and error. *)
Record TransactionProcedure := mkTransactionProcedure {
  tpTransaction : TransactionBody;
  tpTxIndex : N;
  tpWrites : list (RegisterID * option string);
  tpLogs : list string;
  tpEvents : list Event;
  tpErr : option (N * string)
}.

(** [IndexedTransactionResult]. *)
Record IndexedTransactionResult := mkIndexedTransactionResult {
  itrTransaction : TransactionProcedure;
  itrIndex : N
}.

(** Modelled from the spec: "Holds: header, parent_view, txs:
    ordered_map<tx_id, Tx>, results: ordered_map<tx_id, Result>,
    overlay_view, collections, events, index".  The ordered maps are lists
    of pairs in insertion order. *)
Record pendingBlock := mkPendingBlock {
  pbHeader : Header;
  pbTransactions : list (N * TransactionBody);
  pbTransactionResults : list (N * IndexedTransactionResult);
  pbLedgerView : LedgerView;
  pbEvents : list Event;
  pbIndex : N
}.

(** Modelled from the spec: "Reset drops the pending block and replaces it
    with a new empty one anchored at the latest committed block"; "The
    pending block's height is latest + 1; its parent is the latest block's
    id"; "block timestamps are captured at pending-block construction". *)
Definition newPendingBlock `{Hashing} (prevBlock : Block) (ledgerView : LedgerView)
    (now : N) : pendingBlock :=
  mkPendingBlock
    (mkHeader (Height (BlockHeader prevBlock) + 1) (BlockID prevBlock) now)
    [] [] ledgerView [] 0.

(** Modelled from the spec: "Open (empty)": the block holds no
    transaction. *)
Definition Empty (b : pendingBlock) : bool :=
  bool_decide (length (pbTransactions b) = 0%nat).

(** Modelled from the spec: the block leaves the state "Open" with its
    first executed transaction; [addTransaction] says "If index > 0, pending
    block has begun execution". *)
Definition ExecutionStarted (b : pendingBlock) : bool :=
  bool_decide (0 < pbIndex b).

(** Modelled from the spec: "Complete (all txs run)". *)
Definition ExecutionComplete (b : pendingBlock) : bool :=
  bool_decide (N.of_nat (length (pbTransactions b)) ≤ pbIndex b).

(** Modelled from the spec: membership in the ordered map [txs]. *)
Definition pbGetTransaction (b : pendingBlock) (txID : N) : option TransactionBody :=
  (λ p, p.2.2) <$> list_find (λ p, p.1 = txID) (pbTransactions b).

Definition ContainsTransaction (b : pendingBlock) (txID : N) : bool :=
  bool_decide (is_Some (pbGetTransaction b txID)).

(** Modelled from the spec: "add_tx: append to txs". *)
Definition pbAddTransaction `{Hashing} (b : pendingBlock) (tx : TransactionBody)
    : pendingBlock :=
  mkPendingBlock (pbHeader b) (pbTransactions b ++ [(TxID tx, tx)])
    (pbTransactionResults b) (pbLedgerView b) (pbEvents b) (pbIndex b).

(** Modelled from the spec: "Collection. An ordered list of transaction
    ids grouped inside a block. A block holds zero or more": one collection
    of all transactions, none for an empty block. *)
Definition Collections (b : pendingBlock) : list LightCollection :=
  match pbTransactions b with
  | [] => []
  | _ => [mkLightCollection (fst <$> pbTransactions b)]
  end.

(** Modelled from the spec: "Build a finalized Block from the header and
    collected collections". *)
Definition pbBlock `{Hashing} (b : pendingBlock) : Block :=
  mkBlock (pbHeader b) (CollectionID <$> Collections b).

Definition pbID `{Hashing} (b : pendingBlock) : N := BlockID (pbBlock b).

(** Modelled from the spec: the accessors the facade hands to the store. *)
Definition pbTransactionsMap (b : pendingBlock) : gmap N TransactionBody :=
  list_to_map (pbTransactions b).
Definition pbTransactionResultsMap (b : pendingBlock)
    : gmap N IndexedTransactionResult :=
  list_to_map (pbTransactionResults b).
Definition LedgerDelta (b : pendingBlock) : list (RegisterID * option string) :=
  map_to_list (viewDelta (pbLedgerView b)).

(** Modelled from the spec: "evt_index contiguous from 0", with
    "tx_index = index". *)
Fixpoint stampEvents (txIndex eventIndex : N) (events : list Event) : list Event :=
  match events with
  | [] => []
  | e :: rest =>
      mkEvent (EventType e) (TransactionID e) txIndex eventIndex (Payload e)
        :: stampEvents txIndex (eventIndex + 1) rest
  end.

(** Modelled from the spec: "drain the overlay's writes into a per-tx
    sub-delta, merge into the block delta". *)
Definition mergeWrites (view : LedgerView)
    (writes : list (RegisterID * option string)) : LedgerView :=
  mkLedgerView (viewHeight view)
    (foldl (λ d w, <[w.1 := w.2]> d) (viewDelta view) writes).

(** A read through a view of the store: the writes made through the view
    first, then the ledger of the store at the height of the view. *)
Definition viewGet `{Sentinel} (s : Store) (view : LedgerView) (id : RegisterID)
    : Result StoreError (option string) :=
  match viewDelta view !! id with
  | Some value => Ok value
  | None => LedgerViewByHeight s (viewHeight view) id
  end.

(** Modelled from the spec: the execute-next algorithm; "record events,
    record the result, increment index"; a failure of [execute] leaves the
    pending block as it is.  [None] is the out-of-range access of a block
    whose transactions are exhausted. *)
Definition pbExecuteNextTransaction {E} (b : pendingBlock)
    (execute : LedgerView → N → TransactionBody → Result E TransactionProcedure)
    : option (Result E TransactionProcedure * pendingBlock) :=
  match pbTransactions b !! N.to_nat (pbIndex b) with
  | None => None
  | Some (txID, tx) =>
      match execute (pbLedgerView b) (pbIndex b) tx with
      | Err e => Some (Err e, b)
      | Ok tp =>
          let events := stampEvents (pbIndex b) 0 (tpEvents tp) in
          let tp' := mkTransactionProcedure (tpTransaction tp) (tpTxIndex tp)
                       (tpWrites tp) (tpLogs tp) events (tpErr tp) in
          Some (Ok tp',
                mkPendingBlock (pbHeader b) (pbTransactions b)
                  (pbTransactionResults b ++
                     [(txID, mkIndexedTransactionResult tp' (pbIndex b))])
                  (mergeWrites (pbLedgerView b) (tpWrites tp))
                  (pbEvents b ++ events)
                  (pbIndex b + 1))
      end
  end.

(** ** The blockchain facade *)

(** [sdk.TransactionStatus], as far as [GetTransactionResult] uses it. *)
Inductive TransactionStatus :=
  | TransactionStatusUnknown
  | TransactionStatusPending
  | TransactionStatusSealed.

(** [cadence.Value], as far as [CreateAccount] looks at it. *)
Inductive CadenceValue :=
  | CadenceAddress (address : N)
  | CadenceOther (encoded : string).

(** [sdk.Event]. *)
Record SDKEvent := mkSDKEvent {
  sdkEventType : string;
  sdkEventFields : list CadenceValue
}.

(** [ExecutionError]. *)
Record ExecutionError := mkExecutionError {
  Code : N;
  Message : string
}.

(** [sdk.TransactionResult]. *)
Record SDKTransactionResult := mkSDKTransactionResult {
  Status : TransactionStatus;
  Error : option ExecutionError;
  sdkEvents : list SDKEvent
}.

(** [types.TransactionResult]. *)
Record TransactionResult := mkTransactionResult {
  trTransactionID : N;
  trError : option ExecutionError;
  trLogs : list string;
  trEvents : list SDKEvent;
  trDebug : option string
}.

Definition Succeeded (r : TransactionResult) : bool :=
  bool_decide (trError r = None).

(** [ServiceKey], without the key material. *)
Record ServiceKey := mkServiceKey {
  skIndex : N;
  skAddress : N;
  skSequenceNumber : N;
  skWeight : N
}.

(** [flowgo.Account]: the keys of an account. *)
Record AccountPublicKey := mkAccountPublicKey {
  SeqNumber : N;
  Weight : N
}.
Record Account := mkAccount {
  Address : N;
  Keys : list AccountPublicKey
}.

Inductive GetAccountResult :=
  | AccountFound (account : Account)
  | AccountNotFound
  | AccountFailure.

(** The errors of the facade.  [StorageError] is the wrapper of the same
    name; [StorageFailure] is a storage error returned as it is, and
    [CheckStorageFailure] the one wrapped by [addTransaction];
    [GoPanic] stands for a run-time panic. *)
Inductive EmulatorError :=
  | PendingBlockMidExecutionError (blockID : N)
  | PendingBlockCommitBeforeExecutionError (blockID : N)
  | PendingBlockTransactionsExhaustedError (blockID : N)
  | DuplicateTransactionError (txID : N)
  | TransactionNotFoundError (txID : N)
  | BlockNotFoundByIDError (blockID : N)
  | BlockNotFoundByHeightError (height : N)
  | CollectionNotFoundError (colID : N)
  | AccountNotFoundError (address : N)
  | StorageError (e : StoreError)
  | StorageFailure (e : StoreError)
  | CheckStorageFailure (e : StoreError)
  | ValidationError (code : N)
  | ConversionError
  | SigningError
  | VMFatalError
  | TransactionReverted (e : ExecutionError)
  | AccountCreatedEventMissing
  | GoPanic.

(** What the facade takes from outside: the virtual machine, the
    transaction validator, the conversions between the representations of
    results and events, and the account-creation template with its
    signature.  A read function stands for the ledger view handed over. *)
Class Externals := {
  vmRunTransaction :
    Header → N → TransactionBody →
    (RegisterID → Result StoreError (option string)) →
    option TransactionProcedure;
  vmGetAccount :
    N → (RegisterID → Result StoreError (option string)) → GetAccountResult;
  validate : Store → TransactionBody → option N;
  VMTransactionResultToEmulator : TransactionProcedure → option TransactionResult;
  ToStorableResult : TransactionProcedure → option StorableTransactionResult;
  FlowEventsToSDK : list Event → option (list SDKEvent);
  debugSignatureError : Store → ExecutionError → TransactionBody → option string;
  createAccountTransaction :
    list string → list string → ServiceKey → N → option TransactionBody
}.

(** [Blockchain]: the storage, the pending block and the service key. *)
Record Blockchain := mkBlockchain {
  storage : Store;
  pendingBlockOf : pendingBlock;
  serviceKey : ServiceKey
}.

Definition Op (A : Type) : Type :=
  Blockchain → Result EmulatorError A * Blockchain.

Definition withPendingBlock (b : Blockchain) (p : pendingBlock) : Blockchain :=
  mkBlockchain (storage b) p (serviceKey b).
Definition withStorage (b : Blockchain) (s : Store) : Blockchain :=
  mkBlockchain s (pendingBlockOf b) (serviceKey b).

(** [GetLatestBlock]. *)
Definition GetLatestBlock `{Encoding} (b : Blockchain) : Result EmulatorError Block :=
  match LatestBlock (storage b) with
  | Ok block => Ok block
  | Err e => Err (StorageError e)
  end.

(** [GetBlockByID]. *)
Definition GetBlockByID `{Encoding} (b : Blockchain) (id : N)
    : Result EmulatorError Block :=
  match BlockByID (storage b) id with
  | Ok block => Ok block
  | Err ErrNotFound => Err (BlockNotFoundByIDError id)
  | Err e => Err (StorageError e)
  end.

(** [getBlockByHeight]. *)
Definition getBlockByHeight `{Encoding} (b : Blockchain) (height : N)
    : Result EmulatorError Block :=
  match BlockByHeight (storage b) height with
  | Ok block => Ok block
  | Err ErrNotFound => Err (BlockNotFoundByHeightError height)
  | Err e => Err (StorageFailure e)
  end.

(** [GetTransaction]: the pending block first, then the storage. *)
Definition GetTransaction `{Encoding} (b : Blockchain) (txID : N)
    : Result EmulatorError TransactionBody :=
  match pbGetTransaction (pendingBlockOf b) txID with
  | Some pendingTx => Ok pendingTx
  | None =>
      match TransactionByID (storage b) txID with
      | Ok tx => Ok tx
      | Err ErrNotFound => Err (TransactionNotFoundError txID)
      | Err e => Err (StorageError e)
      end
  end.

(** [GetTransactionResult]. *)
Definition GetTransactionResult `{Encoding, Externals} (b : Blockchain) (txID : N)
    : Result EmulatorError SDKTransactionResult :=
  if ContainsTransaction (pendingBlockOf b) txID then
    Ok (mkSDKTransactionResult TransactionStatusPending None [])
  else
    match TransactionResultByID (storage b) txID with
    | Err ErrNotFound => Ok (mkSDKTransactionResult TransactionStatusUnknown None [])
    | Err e => Err (StorageError e)
    | Ok storedResult =>
        let errResult :=
          if decide (ErrorCode storedResult ≠ 0)
          then Some (mkExecutionError (ErrorCode storedResult)
                       (ErrorMessage storedResult))
          else None in
        match FlowEventsToSDK (Events storedResult) with
        | None => Err ConversionError
        | Some events =>
            Ok (mkSDKTransactionResult TransactionStatusSealed errResult events)
        end
    end.

(** [getAccountAtBlock]: only the account-not-found error of the virtual
    machine is returned; after any other failure the account is nil. *)
Definition getAccountAtBlock `{Sentinel, Externals} (b : Blockchain) (address : N)
    (blockHeight : N) : Result EmulatorError (option Account) :=
  match vmGetAccount address (LedgerViewByHeight (storage b) blockHeight) with
  | AccountFound account => Ok (Some account)
  | AccountNotFound => Err (AccountNotFoundError address)
  | AccountFailure => Ok None
  end.

(** [getAccount]. *)
Definition getAccount `{Encoding, Sentinel, Externals} (b : Blockchain)
    (address : N) : Result EmulatorError (option Account) :=
  match GetLatestBlock b with
  | Err e => Err e
  | Ok latestBlock => getAccountAtBlock b address (Height (BlockHeader latestBlock))
  end.

(** [Blockchain.ServiceKey]: refreshes the key from the service account.
    A nil account is dereferenced. *)
Definition getServiceKey `{Encoding, Sentinel, Externals} : Op ServiceKey :=
  λ b,
    match getAccount b (skAddress (serviceKey b)) with
    | Err _ => (Ok (serviceKey b), b)
    | Ok None => (Err GoPanic, b)
    | Ok (Some serviceAccount) =>
        match Keys serviceAccount with
        | [] => (Ok (serviceKey b), b)
        | key0 :: _ =>
            let k := mkServiceKey 0 (skAddress (serviceKey b)) (SeqNumber key0)
                       (Weight key0) in
            (Ok k, mkBlockchain (storage b) (pendingBlockOf b) k)
        end
    end.

(** [GetEventsByHeight]. *)
Definition GetEventsByHeight `{Encoding, Externals} (b : Blockchain)
    (blockHeight : N) (eventType : string) : Result EmulatorError (list SDKEvent) :=
  match EventsByHeight (storage b) blockHeight eventType with
  | Err e => Err (StorageFailure e)
  | Ok flowEvents =>
      match FlowEventsToSDK flowEvents with
      | None => Err ConversionError
      | Some events => Ok events
      end
  end.

(** [addTransaction]. *)
Definition addTransaction `{Encoding, Hashing, Externals} (tx : TransactionBody)
    : Op unit :=
  λ b,
    if ExecutionStarted (pendingBlockOf b) then
      (Err (PendingBlockMidExecutionError (pbID (pendingBlockOf b))), b)
    else if ContainsTransaction (pendingBlockOf b) (TxID tx) then
      (Err (DuplicateTransactionError (TxID tx)), b)
    else
      match TransactionByID (storage b) (TxID tx) with
      | Ok _ => (Err (DuplicateTransactionError (TxID tx)), b)
      | Err ErrNotFound =>
          match validate (storage b) tx with
          | Some code => (Err (ValidationError code), b)
          | None => (Ok tt, withPendingBlock b (pbAddTransaction (pendingBlockOf b) tx))
          end
      | Err e => (Err (CheckStorageFailure e), b)
      end.

Definition AddTransaction `{Encoding, Hashing, Externals} (tx : TransactionBody)
    : Op unit :=
  addTransaction tx.

(** [executeNextTransaction]: the header of the pending block is bound
    into the context of the virtual machine.  The pending block has moved
    on when the conversion of the result fails. *)
Definition executeNextTransaction `{Hashing, Sentinel, Externals}
    : Op TransactionResult :=
  λ b,
    let pb := pendingBlockOf b in
    if ExecutionComplete pb then
      (Err (PendingBlockTransactionsExhaustedError (pbID pb)), b)
    else
      match
        pbExecuteNextTransaction pb (λ ledgerView txIndex txBody,
          match vmRunTransaction (BlockHeader (pbBlock pb)) txIndex txBody
                  (viewGet (storage b) ledgerView) with
          | Some tx => Ok tx
          | None => Err VMFatalError
          end)
      with
      | None => (Err GoPanic, b)
      | Some (Err e, pb') => (Err e, withPendingBlock b pb')
      | Some (Ok tp, pb') =>
          let b' := withPendingBlock b pb' in
          match VMTransactionResultToEmulator tp with
          | None => (Err ConversionError, b')
          | Some tr =>
              match trError tr with
              | Some e =>
                  (Ok (mkTransactionResult (trTransactionID tr) (trError tr)
                         (trLogs tr) (trEvents tr)
                         (debugSignatureError (storage b') e (tpTransaction tp))),
                   b')
              | None => (Ok tr, b')
              end
          end
      end.

Definition ExecuteNextTransaction `{Hashing, Sentinel, Externals}
    : Op TransactionResult :=
  executeNextTransaction.

(** The loop of [executeBlock], [for !b.pendingBlock.ExecutionComplete()]:
    every round executes one transaction, so the number of transactions
    left bounds the rounds; [fuel] counts them.  The results gathered so
    far are returned with an error, as in the source. *)
Fixpoint executeLoop `{Hashing, Sentinel, Externals} (fuel : nat)
    (results : list TransactionResult) (b : Blockchain)
    : (list TransactionResult * option EmulatorError) * Blockchain :=
  match fuel with
  | O => ((results, None), b)
  | S fuel' =>
      if ExecutionComplete (pendingBlockOf b) then ((results, None), b)
      else
        match executeNextTransaction b with
        | (Err e, b') => ((results, Some e), b')
        | (Ok result, b') => executeLoop fuel' (results ++ [result]) b'
        end
  end.

(** [executeBlock]. *)
Definition executeBlock `{Hashing, Sentinel, Externals} (b : Blockchain)
    : (list TransactionResult * option EmulatorError) * Blockchain :=
  let pb := pendingBlockOf b in
  if Empty pb then (([], None), b)
  else if ExecutionComplete pb then
    (([], Some (PendingBlockTransactionsExhaustedError (pbID pb))), b)
  else
    executeLoop (length (pbTransactions pb) - N.to_nat (pbIndex pb)) [] b.

Definition ExecuteBlock `{Hashing, Sentinel, Externals} := executeBlock.

(** [convertToSealedResults]. *)
Fixpoint convertResults `{Externals} (results : list (N * IndexedTransactionResult))
    : option (list (N * StorableTransactionResult)) :=
  match results with
  | [] => Some []
  | (id, result) :: rest =>
      match ToStorableResult (itrTransaction result) with
      | None => None
      | Some temp =>
          match convertResults rest with
          | None => None
          | Some output => Some ((id, temp) :: output)
          end
      end
  end.

Definition convertToSealedResults `{Externals}
    (results : gmap N IndexedTransactionResult)
    : option (gmap N StorableTransactionResult) :=
  list_to_map <$> convertResults (map_to_list results).

(** [commitBlock].  [now] is the wall-clock time read for the pending block
    that replaces the committed one. *)
Definition commitBlock `{Encoding, Hashing, Faults, Externals} (now : N)
    : Op Block :=
  λ b,
    let pb := pendingBlockOf b in
    if negb (ExecutionStarted pb) && negb (Empty pb) then
      (Err (PendingBlockCommitBeforeExecutionError (pbID pb)), b)
    else if ExecutionStarted pb && negb (ExecutionComplete pb) then
      (Err (PendingBlockMidExecutionError (pbID pb)), b)
    else
      let block := pbBlock pb in
      let collections := Collections pb in
      let transactions := pbTransactionsMap pb in
      match convertToSealedResults (pbTransactionResultsMap pb) with
      | None => (Err ConversionError, b)
      | Some transactionResults =>
          let ledgerDelta := LedgerDelta pb in
          let events := pbEvents pb in
          match CommitBlock (storage b) block collections transactions
                  transactionResults ledgerDelta events with
          | (Err e, s') => (Err (StorageFailure e), withStorage b s')
          | (Ok _, s') =>
              let ledgerView := mkLedgerView (Height (BlockHeader block)) ∅ in
              (Ok block,
               mkBlockchain s' (newPendingBlock block ledgerView now) (serviceKey b))
          end
      end.

Definition CommitBlockOp `{Encoding, Hashing, Faults, Externals} (now : N)
    : Op Block :=
  commitBlock now.

(** [executeAndCommitBlock]. *)
Definition executeAndCommitBlock `{Encoding, Hashing, Faults, Sentinel, Externals}
    (now : N) : Op (Block * list TransactionResult) :=
  λ b,
    match executeBlock b with
    | ((_, Some e), b') => (Err e, b')
    | ((results, None), b') =>
        match commitBlock now b' with
        | (Err e, b'') => (Err e, b'')
        | (Ok block, b'') => (Ok (block, results), b'')
        end
    end.

(** [ResetPendingBlock]. *)
Definition ResetPendingBlock `{Encoding, Hashing} (now : N) : Op unit :=
  λ b,
    match LatestBlock (storage b) with
    | Err e => (Err (StorageError e), b)
    | Ok latestBlock =>
        let latestLedgerView := mkLedgerView (Height (BlockHeader latestBlock)) ∅ in
        (Ok tt, withPendingBlock b (newPendingBlock latestBlock latestLedgerView now))
    end.

(** [sdk.EventAccountCreated]. *)
Definition EventAccountCreated : string := "flow.AccountCreated".

(** [CreateAccount].  [now1] and [now2] are the wall-clock times read by
    its two commits. *)
Definition CreateAccount `{Encoding, Hashing, Faults, Sentinel, Externals}
    (publicKeys contracts : list string) (now1 now2 : N) : Op N :=
  key <- getServiceKey ;;
  latestBlock <- (λ b, (GetLatestBlock b, b)) ;;
  tx <- (λ b, match createAccountTransaction publicKeys contracts key
                      (BlockID latestBlock) with
              | Some tx => (Ok tx, b)
              | None => (Err SigningError, b)
              end) ;;
  addTransaction tx ;;;
  committed <- executeAndCommitBlock now1 ;;
  match last committed.2 with
  | None => fail GoPanic
  | Some lastResult =>
      commitBlock now2 ;;;
      match trError lastResult with
      | Some e => fail (TransactionReverted e)
      | None =>
          match list_find (λ event, sdkEventType event = EventAccountCreated)
                  (trEvents lastResult) with
          | None => fail AccountCreatedEventMissing
          | Some (_, event) =>
              match sdkEventFields event with
              | CadenceAddress address :: _ =>
                  if decide (address = 0) then fail AccountCreatedEventMissing
                  else ret address
              | _ => fail GoPanic
              end
          end
      end
  end.

(** [GetBlockByHeight]. *)
Definition GetBlockByHeight `{Encoding} (b : Blockchain) (height : N)
    : Result EmulatorError Block :=
  getBlockByHeight b height.

(** [GetCollection]. *)
Definition GetCollection `{Encoding} (b : Blockchain) (colID : N)
    : Result EmulatorError LightCollection :=
  match CollectionByID (storage b) colID with
  | Ok col => Ok col
  | Err ErrNotFound => Err (CollectionNotFoundError colID)
  | Err e => Err (StorageError e)
  end.

(** [PendingBlockID] and [PendingBlockTimestamp]. *)
Definition PendingBlockID `{Hashing} (b : Blockchain) : N :=
  pbID (pendingBlockOf b).
Definition PendingBlockTimestamp `{Hashing} (b : Blockchain) : N :=
  Timestamp (BlockHeader (pbBlock (pendingBlockOf b))).

(** [config], as far as [NewBlockchain] reads it: the store, the service
    key, the genesis block of the chain, whether the virtual machine can be
    set up, and the bootstrap procedure, which runs on a ledger view and
    leaves its writes in it. *)
Record config := mkConfig {
  confStore : Store;
  confServiceKey : ServiceKey;
  confGenesis : Block;
  confFVMFails : bool;
  confBootstrap :
    (RegisterID → Result StoreError (option string)) →
    option (list (RegisterID * option string))
}.

(** [configureExistingLedger]. *)
Definition configureExistingLedger (latestBlock : Block) (s : Store)
    : Result EmulatorError (Block * LedgerView) * Store :=
  (Ok (latestBlock, mkLedgerView (Height (BlockHeader latestBlock)) ∅), s).

(** [configureNewLedger]: the ledger is bootstrapped on the view at height
    zero and the genesis block is committed with the writes of the
    bootstrap. *)
Definition configureNewLedger `{Encoding, Hashing, Faults, Sentinel}
    (conf : config) (s : Store)
    : Result EmulatorError (Block * LedgerView) * Store :=
  match confBootstrap conf (LedgerViewByHeight s 0) with
  | None => (Err VMFatalError, s)
  | Some delta =>
      match CommitBlock s (confGenesis conf) [] ∅ ∅ delta [] with
      | (Err e, s') => (Err (StorageFailure e), s')
      | (Ok _, s') => (Ok (confGenesis conf, mkLedgerView 0 ∅), s')
      end
  end.

(** [configureLedger]. *)
Definition configureLedger `{Encoding, Hashing, Faults, Sentinel}
    (conf : config) (s : Store)
    : Result EmulatorError (Block * LedgerView) * Store :=
  match LatestBlock s with
  | Err ErrNotFound => configureNewLedger conf s
  | Err e => (Err (StorageFailure e), s)
  | Ok latestBlock => configureExistingLedger latestBlock s
  end.

(** [NewBlockchain].  [now] is the wall-clock time read for the pending
    block. *)
Definition NewBlockchain `{Encoding, Hashing, Faults, Sentinel} (conf : config)
    (now : N) : Result EmulatorError Blockchain :=
  if confFVMFails conf then Err VMFatalError
  else
    match configureLedger conf (confStore conf) with
    | (Err e, _) => Err e
    | (Ok (latestBlock, latestLedgerView), s) =>
        Ok (mkBlockchain s (newPendingBlock latestBlock latestLedgerView now)
              (confServiceKey conf))
    end.

(** ** Runs of the facade on one pending block

    The calls that leave the pending block in place: a reset and a
    successful commit replace it, every other call works on it. *)
Inductive keepsPendingBlock `{Encoding, Hashing, Faults, Sentinel, Externals}
    : Blockchain → Blockchain → Prop :=
  | keeps_AddTransaction tx b r b' :
      AddTransaction tx b = (r, b') → keepsPendingBlock b b'
  | keeps_ExecuteNextTransaction b r b' :
      ExecuteNextTransaction b = (r, b') → keepsPendingBlock b b'
  | keeps_ExecuteBlock b r b' :
      ExecuteBlock b = (r, b') → keepsPendingBlock b b'
  | keeps_CommitBlock_refused now b e b' :
      CommitBlockOp now b = (Err e, b') → keepsPendingBlock b b'
  | keeps_ServiceKey b r b' :
      getServiceKey b = (r, b') → keepsPendingBlock b b'.

(** ** A concrete environment

    One instance of each parameter, for running the model: every entity is
    encoded as the binary digits of its code as a countable type, digests
    are the codes themselves, nothing fails, and the virtual machine runs a
    transaction by writing its script to a register of its payer and
    emitting one account-creation event. *)
Module Sample.

Definition zero : Ascii.ascii := Ascii.ascii_of_nat 48.
Definition one : Ascii.ascii := Ascii.ascii_of_nat 49.

Fixpoint digits (p : positive) : string :=
  match p with
  | xH => ""
  | xO p' => String zero (digits p')
  | xI p' => String one (digits p')
  end.

Fixpoint undigits (s : string) : positive :=
  match s with
  | EmptyString => xH
  | String a s' =>
      if decide (a = zero) then xO (undigits s') else xI (undigits s')
  end.

Definition encodeC {A} `{Countable A} (a : A) : option string :=
  Some (digits (encode a)).
Definition decodeC {A} `{Countable A} (s : string) : option A :=
  decode (undigits s).

Lemma undigits_digits p : undigits (digits p) = p.
Proof. induction p; simpl; by f_equal. Qed.

Lemma decodeC_encodeC {A} `{Countable A} (a : A) s :
  encodeC a = Some s → decodeC s = Some a.
Proof.
  unfold encodeC, decodeC. intros [= <-].
  by rewrite undigits_digits, decode_encode.
Qed.

#[export] Instance encoding : Encoding := {|
  encodeBlock := encodeC; decodeBlock := decodeC;
  encodeUint64 := encodeC; decodeUint64 := decodeC;
  encodeCollection := encodeC; decodeCollection := decodeC;
  encodeTransaction := encodeC; decodeTransaction := decodeC;
  encodeTransactionResult := encodeC; decodeTransactionResult := decodeC;
  encodeChangelist := encodeC; decodeChangelist := decodeC;
  encodeEvent := encodeC; decodeEvent := decodeC;
  decode_encode_Block := decodeC_encodeC;
  decode_encode_Uint64 := decodeC_encodeC;
  decode_encode_Collection := decodeC_encodeC;
  decode_encode_Transaction := decodeC_encodeC;
  decode_encode_TransactionResult := decodeC_encodeC;
  decode_encode_Changelist := decodeC_encodeC;
  decode_encode_Event := decodeC_encodeC
|}.

(** Digests of 61 bits: the code of the entity modulo a prime. *)
Definition digest {A} `{Countable A} (a : A) : N :=
  Npos (encode a) mod 2305843009213693951.

#[export] Instance hashing : Hashing := {|
  BlockID := digest;
  CollectionID := digest;
  TxID := digest
|}.

#[export] Instance noFaults : Faults := {|
  setFails _ _ := false;
  checkpointFails _ := false
|}.

(** The repository refuses every commit. *)
Definition brokenRepository : Faults := {|
  setFails _ _ := false;
  checkpointFails _ := true
|}.

(** Badger refuses the entries of events. *)
Definition eventsRefused : Faults := {|
  setFails k _ := match k with eventKey _ _ _ _ => true | _ => false end;
  checkpointFails _ := false
|}.

#[export] Instance sentinel : Sentinel := 18446744073709551615.

Definition sdkEventOf (e : Event) : SDKEvent :=
  mkSDKEvent (EventType e) [CadenceAddress (1 + TransactionIndex e)].

#[export] Instance externals : Externals := {|
  vmRunTransaction header txIndex tx read :=
    Some (mkTransactionProcedure tx txIndex
            [(mkRegisterID (Payer tx) "" "script", Some (Script tx))]
            [] [mkEvent EventAccountCreated (digest tx) 0 0 ""] None);
  vmGetAccount address read :=
    AccountFound (mkAccount address [mkAccountPublicKey 0 1000]);
  validate _ _ := None;
  VMTransactionResultToEmulator tp :=
    Some (mkTransactionResult (digest (tpTransaction tp))
            ((λ e, mkExecutionError e.1 e.2) <$> tpErr tp) (tpLogs tp)
            (sdkEventOf <$> tpEvents tp) None);
  ToStorableResult tp :=
    Some (mkStorableTransactionResult (default 0 (fst <$> tpErr tp))
            (default "" (snd <$> tpErr tp)) (tpLogs tp) (tpEvents tp));
  FlowEventsToSDK events := Some (sdkEventOf <$> events);
  debugSignatureError _ _ _ := None;
  createAccountTransaction publicKeys contracts key referenceBlockID :=
    Some (mkTransactionBody "create account" publicKeys referenceBlockID 9999 "service")
|}.

(** Registers and deltas to run the store on. *)
Definition balance : RegisterID := mkRegisterID "A" "" "balance".
Definition code : RegisterID := mkRegisterID "A" "" "code".

Definition genesis : Block := mkBlock (mkHeader 0 0 0) [].
Definition block1 : Block := mkBlock (mkHeader 1 (BlockID genesis) 10) [].
Definition block2 : Block := mkBlock (mkHeader 2 (BlockID block1) 20) [].

Definition event (txIndex eventIndex : N) (type : string) : Event :=
  mkEvent type 0 txIndex eventIndex "".

(** Three delta commits: a write, a deletion beside a write, a write. *)
Definition delta1 : list (RegisterID * option string) := [(balance, Some "10")].
Definition delta2 : list (RegisterID * option string) :=
  [(balance, None); (code, Some "x")].
Definition delta5 : list (RegisterID * option string) := [(balance, Some "30")].
Definition history : list (N * list (RegisterID * option string)) :=
  [(1, delta1); (2, delta2); (5, delta5)].
Definition store1 : Store := (InsertLedgerDelta emptyStore 1 delta1).2.
Definition store2 : Store := (InsertLedgerDelta store1 2 delta2).2.
Definition store5 : Store := (InsertLedgerDelta store2 5 delta5).2.

Definition tx1 : TransactionBody := mkTransactionBody "T1" [] 0 100 "A".
Definition tx2 : TransactionBody := mkTransactionBody "T2" [] 0 100 "B".

(** A block committed with one transaction, its result, a delta and an
    event. *)
Definition committed1 : Store :=
  (CommitBlock emptyStore block1 [mkLightCollection [TxID tx1]]
     {[TxID tx1 := tx1]}
     {[TxID tx1 := mkStorableTransactionResult 0 "" [] [event 0 0 "A"]]}
     delta1 [event 0 0 "A"]).2.

(** A block committed with three events, out of order. *)
Definition eventsOf1 : list Event :=
  [event 1 0 "B"; event 0 1 "A"; event 0 0 "A"].
Definition committedEvents : Store :=
  (CommitBlock emptyStore block1 [] ∅ ∅ [] eventsOf1).2.

(** Two commits around two jumps to the snapshot "snap": the first jump
    creates the snapshot after block 1, the second one returns to it after
    block 2. *)
Definition delta20 : list (RegisterID * option string) := [(balance, Some "20")].
Definition jump0 : Store := (CommitBlock emptyStore block1 [] ∅ ∅ delta1 []).2.
Definition jump1 : Store := (JumpToContext jump0 "snap" "u1").2.
Definition jump2 : Store := (CommitBlock jump1 block2 [] ∅ ∅ delta20 []).2.
Definition jump3 : Store := (JumpToContext jump2 "snap" "u2").2.
(** The store a restart opens on the files of [jump3]. *)
Definition reopened : Store := (New (db jump3) (dbGitRepository jump3)).2.

(** A commit at height 2 that follows the second jump and leaves the
    balance register alone, and the store a restart opens on its files. *)
Definition delta2x : list (RegisterID * option string) := [(code, Some "x")].
Definition jump4 : Store := (CommitBlock jump3 block2 [] ∅ ∅ delta2x []).2.
Definition reopened4 : Store := (New (db jump4) (dbGitRepository jump4)).2.

(** A commit of block 2 that Badger refuses at the entry of its event,
    after the delta was inserted, and the commit of block 2 that follows
    it, which leaves the balance register alone. *)
Definition refused : Store :=
  (@CommitBlock encoding hashing eventsRefused jump0 block2 [] ∅ ∅ delta20
     [event 0 0 "A"]).2.
Definition retried : Store := (CommitBlock refused block2 [] ∅ ∅ delta2x []).2.

(** A blockchain on the genesis block, and the blockchains reached from it
    by adding [tx1] and [tx2], executing one and then both of them, and
    committing. *)
Definition genesisStore : Store := (CommitBlock emptyStore genesis [] ∅ ∅ [] []).2.
Definition key0 : ServiceKey := mkServiceKey 0 1 0 1000.
Definition chain0 : Blockchain :=
  mkBlockchain genesisStore (newPendingBlock genesis (mkLedgerView 0 ∅) 5) key0.
Definition chain1 : Blockchain := (AddTransaction tx1 chain0).2.
Definition chain2 : Blockchain := (AddTransaction tx2 chain1).2.
Definition chain3 : Blockchain := (ExecuteNextTransaction chain2).2.
Definition chain4 : Blockchain := (ExecuteNextTransaction chain3).2.
Definition chain5 : Blockchain := (CommitBlockOp 30 chain4).2.

(** The sample blockchain after a commit whose checkpoint the repository
    refused: block 1 is in the database, and the pending block is still
    the one at height 1. *)
Definition stalled : Blockchain :=
  (@commitBlock encoding hashing brokenRepository externals 30 chain0).2.

(** A block above the sample history, and a configuration for a new
    blockchain on an empty store. *)
Definition block7 : Block := mkBlock (mkHeader 7 (BlockID block2) 70) [].
Definition sampleConfig : config :=
  mkConfig emptyStore key0 genesis false (λ _, Some []).

End Sample.

(** ** Histories of ledger commits *)

(** The stores reached by delta commits that succeeded, with the heights
    and deltas committed, oldest first.  A delta is committed by
    [InsertLedgerDelta] or as part of [CommitBlock]. *)
Inductive ledgerCommits `{Encoding, Hashing, Faults}
    : Store → list (N * list (RegisterID * option string)) → Store → Prop :=
  | ledgerCommits_nil s : ledgerCommits s [] s
  | ledgerCommits_delta s hist s1 blockHeight delta s2 :
      ledgerCommits s hist s1 →
      InsertLedgerDelta s1 blockHeight delta = (Ok tt, s2) →
      ledgerCommits s (hist ++ [(blockHeight, delta)]) s2
  | ledgerCommits_block s hist s1 block collections transactions
      transactionResults delta events s2 :
      ledgerCommits s hist s1 →
      CommitBlock s1 block collections transactions transactionResults
        delta events = (Ok tt, s2) →
      ledgerCommits s (hist ++ [(Height (BlockHeader block), delta)]) s2.

(** The heights of a history grow strictly, every delta names a register
    once (a delta is a map), and no height is the changelog's sentinel. *)
Definition wellFormedHistory `{Sentinel}
    (hist : list (N * list (RegisterID * option string))) : Prop :=
  StronglySorted N.lt (fst <$> hist) ∧
  Forall (λ c, NoDup (c.2.*1) ∧ c.1 ≠ notFound) hist.

(** The register [r] is written (or deleted) by the delta. *)
Definition touches (delta : list (RegisterID * option string)) (r : RegisterID)
    : Prop :=
  r ∈ delta.*1.

(** The keys under which [CommitBlock] writes: those of the block, of its
    collections, transactions and results, of the registers of the delta
    and of the events; the pointer to the latest block may be written
    too. *)
Definition committedKey `{Hashing} (block : Block)
    (collections : list LightCollection)
    (transactions : gmap N TransactionBody)
    (transactionResults : gmap N StorableTransactionResult)
    (delta : list (RegisterID * option string)) (events : list Event)
    (k : Key) : Prop :=
  match k with
  | blockKey h => h = Height (BlockHeader block)
  | blockIDIndexKey id => id = BlockID block
  | latestBlockKey => True
  | collectionKey id => ∃ col, col ∈ collections ∧ id = CollectionID col
  | transactionKey id => is_Some (transactions !! id)
  | transactionResultKey id => is_Some (transactionResults !! id)
  | ledgerValueKey r h =>
      h = Height (BlockHeader block) ∧ ∃ v, (r, Some v) ∈ delta
  | ledgerChangelogKey r => r ∈ delta.*1
  | eventKey h t e ty =>
      h = Height (BlockHeader block) ∧
      ∃ event, event ∈ events ∧ t = TransactionIndex event ∧
               e = EventIndex event ∧ ty = EventType event
  end.

(** Every entry of an event holds an event that carries the indices and
    the type its key is made of, as [insertEvents] writes it. *)
Definition eventsWellFormed `{Encoding} (d : gmap Key string) : Prop :=
  ∀ h t e ty b, d !! eventKey h t e ty = Some b →
    ∃ event, decodeEvent b = Some event ∧ TransactionIndex event = t ∧
             EventIndex event = e ∧ EventType event = ty.

(** The order of the events of a block: by transaction index, then by
    event index. *)
Definition eventOrder (e1 e2 : Event) : Prop :=
  TransactionIndex e1 < TransactionIndex e2 ∨
  (TransactionIndex e1 = TransactionIndex e2 ∧ EventIndex e1 ≤ EventIndex e2).

(** The event is asked for by the type filter of [EventsByHeight]. *)
Definition matchesType (eventType : string) (ty : string) : Prop :=
  eventType = "" ∨ ty = eventType.

(** The calls that write to a store within one session: the commits and
    the inserts, and the checkpoint of [Close]. *)
Inductive storeStep `{Encoding, Hashing, Faults} : Store → Store → Prop :=
  | step_CommitBlock s block collections transactions transactionResults
      delta events r s' :
      CommitBlock s block collections transactions transactionResults delta
        events = (r, s') → storeStep s s'
  | step_StoreBlock s block r s' :
      StoreBlock s block = (r, s') → storeStep s s'
  | step_InsertCollection s col r s' :
      InsertCollection s col = (r, s') → storeStep s s'
  | step_InsertTransaction s tx r s' :
      InsertTransaction s tx = (r, s') → storeStep s s'
  | step_InsertTransactionResult s txID result r s' :
      InsertTransactionResult s txID result = (r, s') → storeStep s s'
  | step_InsertLedgerDelta s blockHeight delta r s' :
      InsertLedgerDelta s blockHeight delta = (r, s') → storeStep s s'
  | step_InsertEvents s blockHeight events r s' :
      InsertEvents s blockHeight events = (r, s') → storeStep s s'
  | step_Close s r s' :
      Close s = (r, s') → storeStep s s'.

(** * Properties *)

(** ** The state-and-error monad *)

Section Monad.
Context {S E : Type}.
Implicit Types st : S.

Lemma bind_Ok {A B} (m : S → Result E A * S) (k : A → S → Result E B * S)
    st b st' :
  bind m k st = (Ok b, st') ↔
  ∃ a st1, m st = (Ok a, st1) ∧ k a st1 = (Ok b, st').
Proof.
  unfold bind. destruct (m st) as [[a|e] st1]; split.
  - eauto.
  - by intros (? & ? & [= -> ->] & ?).
  - done.
  - by intros (? & ? & ? & ?).
Qed.

Lemma bind_Err {A B} (m : S → Result E A * S) (k : A → S → Result E B * S)
    st e st' :
  bind m k st = (Err e, st') ↔
  m st = (Err e, st') ∨ ∃ a st1, m st = (Ok a, st1) ∧ k a st1 = (Err e, st').
Proof.
  unfold bind. destruct (m st) as [[a|e0] st1]; split.
  - eauto.
  - by intros [|(? & ? & [= -> ->] & ?)].
  - intros [= -> ->]. by left.
  - by intros [[= -> ->]|(? & ? & ? & ?)].
Qed.

Lemma ret_Ok {A} (a a' : A) st st' :
  ret (E:=E) a st = (Ok a', st') ↔ a' = a ∧ st' = st.
Proof. unfold ret. naive_solver. Qed.

End Monad.

(** ** Transactions of the database *)

Section Txn.
Context {encoding : Encoding} {hashing : Hashing} {faults : Faults}.
Implicit Types st : TxnState.

Lemma encoded_Ok {A} (o : option A) a st st' :
  encoded o st = (Ok a, st') ↔ o = Some a ∧ st' = st.
Proof. destruct o; unfold encoded, ret, fail; naive_solver. Qed.

Lemma decoded_Ok {A} (o : option A) a st st' :
  decoded o st = (Ok a, st') ↔ o = Some a ∧ st' = st.
Proof. destruct o; unfold decoded, ret, fail; naive_solver. Qed.

Lemma txnSet_Ok key value st st' :
  txnSet key value st = (Ok tt, st') ↔
  setFails key value = false ∧
  st' = mkTxnState (<[key := value]> (txnDB st)) (txnChangeLog st).
Proof. unfold txnSet. destruct (setFails key value); naive_solver. Qed.

Lemma getTx_Ok key val st st' :
  getTx key st = (Ok val, st') ↔ txnDB st !! key = Some val ∧ st' = st.
Proof. unfold getTx. destruct (txnDB st !! key); naive_solver. Qed.

Lemma forEach_cons_Ok {A} (x : A) xs (body : A → Txn unit) st st' :
  forEach (x :: xs) body st = (Ok tt, st') ↔
  ∃ st1, body x st = (Ok tt, st1) ∧ forEach xs body st1 = (Ok tt, st').
Proof.
  simpl. rewrite bind_Ok. split.
  - intros ([] & st1 & ? & ?). eauto.
  - intros (st1 & ? & ?). eauto.
Qed.

Lemma forEach_nil_Ok {A} (body : A → Txn unit) st st' :
  forEach [] body st = (Ok tt, st') ↔ st' = st.
Proof. simpl. unfold ret. naive_solver. Qed.

End Txn.

(** Takes a successful run of a transaction apart, step by step. *)
Ltac txn_inv :=
  repeat match goal with
  | H : bind _ _ _ = (Ok _, _) |- _ =>
      apply bind_Ok in H; destruct H as (? & ? & ? & H)
  | H : encoded _ _ = (Ok _, _) |- _ =>
      apply encoded_Ok in H; destruct H as [? ->]
  | H : decoded _ _ = (Ok _, _) |- _ =>
      apply decoded_Ok in H; destruct H as [? ->]
  | H : txnSet _ _ _ = (Ok ?u, _) |- _ =>
      destruct u; apply txnSet_Ok in H; destruct H as [? ->]
  | H : getTx _ _ = (Ok _, _) |- _ =>
      apply getTx_Ok in H; destruct H as [? ->]
  | H : ret _ _ = (Ok _, _) |- _ =>
      apply ret_Ok in H; destruct H as [-> ->]
  | H : fail _ _ = (Ok _, _) |- _ => discriminate H
  | u : unit |- _ => destruct u
  end.

(** ** The changelog: binary search *)

Section Search.

(** [sort.Search] returns the boundary of a predicate that is false, then
    true. *)
Lemma searchLoop_boundary (f : nat → bool) (n fuel i j : nat) :
  (∀ a b, a ≤ b → b < n → f a = true → f b = true)%nat →
  (i ≤ j)%nat → (j ≤ n)%nat → (j - i ≤ fuel)%nat →
  (∀ k, k < i → f k = false)%nat →
  (∀ k, j ≤ k → k < n → f k = true)%nat →
  (searchLoop fuel f i j ≤ n)%nat ∧
  (∀ k, k < searchLoop fuel f i j → f k = false)%nat ∧
  (∀ k, searchLoop fuel f i j ≤ k → k < n → f k = true)%nat.
Proof.
  intros Hmono. revert i j.
  induction fuel as [|fuel IH]; intros i j Hij Hjn Hfuel Hlo Hhi;
    cbn [searchLoop].
  - assert (i = j) as -> by lia. eauto.
  - destruct (decide (i < j)%nat) as [Hlt|Hge].
    + assert (i ≤ (i + j) / 2 ∧ (i + j) / 2 < j)%nat as [Hh1 Hh2].
      { split.
        - apply Nat.div_le_lower_bound; lia.
        - apply Nat.Div0.div_lt_upper_bound; lia. }
      cbv zeta. destruct (f ((i + j) / 2)%nat) eqn:Hf.
      * apply IH; try lia; try done.
        intros k Hk Hkn. apply (Hmono ((i + j) / 2)%nat); [lia..|done].
      * apply IH; try lia; try done.
        intros k Hk. destruct (f k) eqn:Hfk; [|done].
        rewrite <- Hf. symmetry.
        apply (Hmono k); [lia..|done].
    + assert (i = j) as -> by lia. eauto.
Qed.

(** On an ascending changelist, [search] finds the greatest entry at or
    below the height asked for, and nothing when every entry is above. *)
Lemma search_spec (blocks : list N) (n : N) :
  StronglySorted N.lt blocks →
  match search blocks n with
  | Some c => c ∈ blocks ∧ c ≤ n ∧ ∀ c', c' ∈ blocks → c' ≤ n → c' ≤ c
  | None => ∀ c, c ∈ blocks → n < c
  end.
Proof.
  intros Hsorted.
  assert (∀ a b x y, (a < b)%nat → blocks !! a = Some x →
            blocks !! b = Some y → x < y) as Hidx.
  { clear n. induction Hsorted as [|z l Hs IH Hall]; [done|].
    intros [|a] [|b] x y Hab Ha Hb; simpl in *; try lia.
    - injection Ha as <-. rewrite Forall_forall in Hall.
      apply Hall. by eapply list_elem_of_lookup_2.
    - eapply (IH a b); [lia|done..]. }
  unfold search, sortSearch.
  set (f := λ i : nat, match blocks !! i with
                       | Some b => bool_decide (n < b)
                       | None => true
                       end).
  destruct (searchLoop_boundary f (length blocks) (length blocks) 0
              (length blocks)) as (Hr & Hlo & Hhi); try lia.
  { intros a b Hab Hb. unfold f.
    destruct (lookup_lt_is_Some_2 blocks b Hb) as [y Hy].
    destruct (lookup_lt_is_Some_2 blocks a) as [x Hx]; [lia|].
    rewrite Hx, Hy, !bool_decide_eq_true. intros Hnx.
    destruct (decide (a = b)) as [->|Hne]; [congruence|].
    assert (x < y) by (eapply (Hidx a b); [lia|done..]). lia. }
  destruct (searchLoop (length blocks) f 0 (length blocks)) as [|r].
  - intros c [k Hk]%list_elem_of_lookup.
    specialize (Hhi k). unfold f in Hhi. rewrite Hk in Hhi.
    rewrite bool_decide_eq_true in Hhi.
    apply lookup_lt_Some in Hk. apply Hhi; [lia|done].
  - destruct (lookup_lt_is_Some_2 blocks r) as [x Hx]; [lia|].
    rewrite Hx. split_and!.
    + by eapply list_elem_of_lookup_2.
    + specialize (Hlo r ltac:(lia)). unfold f in Hlo. rewrite Hx in Hlo.
      rewrite bool_decide_eq_false in Hlo. lia.
    + intros c' [k Hk]%list_elem_of_lookup Hc'.
      destruct (decide (k ≤ r)%nat) as [Hkr|Hkr].
      * destruct (decide (k = r)) as [->|]; [naive_solver lia|].
        assert (c' < x) by (eapply (Hidx k r); [lia|done..]). lia.
      * specialize (Hhi k ltac:(lia) (lookup_lt_Some _ _ _ Hk)).
        unfold f in Hhi. rewrite Hk, bool_decide_eq_true in Hhi. lia.
Qed.

Lemma search_Some (blocks : list N) (n c : N) :
  StronglySorted N.lt blocks →
  search blocks n = Some c ↔
  c ∈ blocks ∧ c ≤ n ∧ ∀ c', c' ∈ blocks → c' ≤ n → c' ≤ c.
Proof.
  intros Hsorted. pose proof (search_spec blocks n Hsorted) as Hspec.
  destruct (search blocks n) as [x|].
  - destruct Hspec as (Hin & Hle & Hmax). split.
    + by intros [= <-].
    + intros (Hin' & Hle' & Hmax'). f_equal.
      specialize (Hmax c Hin' Hle'). specialize (Hmax' x Hin Hle). lia.
  - split; [done|]. intros (Hin & Hle & _). specialize (Hspec c Hin). lia.
Qed.

Lemma search_None (blocks : list N) (n : N) :
  StronglySorted N.lt blocks →
  search blocks n = None ↔ ∀ c, c ∈ blocks → n < c.
Proof.
  intros Hsorted. pose proof (search_spec blocks n Hsorted) as Hspec.
  destruct (search blocks n) as [x|]; [|done].
  destruct Hspec as (Hin & Hle & _). split; [done|].
  intros Hall. specialize (Hall x Hin). lia.
Qed.

End Search.

(** ** What a transaction does to its state

    A relation between the state before and the state after is respected
    by a transaction when every write of the transaction respects it. *)

Section Respects.
Context {encoding : Encoding} {hashing : Hashing} {faults : Faults}.
Implicit Types st : TxnState.
Implicit Types R : relation TxnState.

(** Every run of [m], failed or not, relates the state it starts from to
    the state it ends in. *)
Definition respects {A} R (m : Txn A) : Prop :=
  ∀ st r st', m st = (r, st') → R st st'.

(** The state after [txn.Set(key, value)], and after a change of the
    changelog. *)
Definition setKey st (key : Key) (value : string) : TxnState :=
  mkTxnState (<[key := value]> (txnDB st)) (txnChangeLog st).
Definition setLog st (c : gmap RegisterID (list N)) : TxnState :=
  mkTxnState (txnDB st) c.

Lemma respects_ret {A} R `{!Reflexive R} (a : A) : respects R (ret a).
Proof. by intros st r st' [= <- <-]. Qed.

Lemma respects_fail {A} R `{!Reflexive R} e : respects (A:=A) R (fail e).
Proof. by intros st r st' [= <- <-]. Qed.

Lemma respects_bind {A B} R `{!Transitive R} (m : Txn A) (k : A → Txn B) :
  respects R m → (∀ a, respects R (k a)) → respects R (bind m k).
Proof.
  intros Hm Hk st r st'. unfold bind.
  destruct (m st) as [[a|e] st1] eqn:Hrun.
  - intros Hka. trans st1; [by eapply Hm|by eapply Hk].
  - intros [= <- <-]. by eapply Hm.
Qed.

Lemma respects_encoded {A} R `{!Reflexive R} (o : option A) :
  respects R (encoded o).
Proof. destruct o; [by apply respects_ret|by apply respects_fail]. Qed.

Lemma respects_decoded {A} R `{!Reflexive R} (o : option A) :
  respects R (decoded o).
Proof. destruct o; [by apply respects_ret|by apply respects_fail]. Qed.

Lemma respects_getTx R `{!Reflexive R} key : respects R (getTx key).
Proof.
  intros st r st'. unfold getTx.
  destruct (txnDB st !! key); by intros [= <- <-].
Qed.

Lemma respects_txnSet R `{!Reflexive R} key value :
  (∀ st, R st (setKey st key value)) → respects R (txnSet key value).
Proof.
  intros Hset st r st'. unfold txnSet.
  destruct (setFails key value); intros [= <- <-]; [done|apply Hset].
Qed.

Lemma respects_forEach {A} R `{!PreOrder R} (xs : list A) (body : A → Txn unit) :
  (∀ x, x ∈ xs → respects R (body x)) → respects R (forEach xs body).
Proof.
  induction xs as [|x xs IH]; intros Hbody; simpl.
  - apply respects_ret, _.
  - apply respects_bind; [apply _|apply Hbody; set_solver|].
    intros _. apply IH. intros y Hy. apply Hbody. set_solver.
Qed.

(** An encoder's result is known to the steps that follow it. *)
Lemma respects_encoded_bind {A B} R `{!PreOrder R} (o : option A)
    (k : A → Txn B) :
  (∀ a, o = Some a → respects R (k a)) → respects R (bind (encoded o) k).
Proof.
  intros Hk. destruct o as [a|].
  - intros st r st' Hrun. by eapply (Hk a).
  - intros st r st' Hrun. injection Hrun as _ <-. done.
Qed.

Lemma respects_getLatestBlockHeightTx R `{!PreOrder R} :
  respects R getLatestBlockHeightTx.
Proof.
  apply respects_bind; [apply _|apply respects_getTx, _|].
  intros ?. apply respects_decoded, _.
Qed.

Lemma respects_store R `{!PreOrder R} block :
  (∀ st enc, encodeBlock block = Some enc →
     R st (setKey st (blockKey (Height (BlockHeader block))) enc)) →
  (∀ st enc, encodeUint64 (Height (BlockHeader block)) = Some enc →
     R st (setKey st (blockIDIndexKey (BlockID block)) enc)) →
  (∀ st enc, encodeUint64 (Height (BlockHeader block)) = Some enc →
     R st (setKey st latestBlockKey enc)) →
  respects R (store block).
Proof.
  intros Hb Hi Hl. unfold store.
  apply respects_encoded_bind; [apply _|intros encBlock HencB].
  apply respects_encoded_bind; [apply _|intros encHeight HencH].
  apply respects_bind; [apply _| |intros latest].
  { intros st r st' Hrun.
    destruct (getLatestBlockHeightTx st) as [[n|e] st1] eqn:Hget.
    - injection Hrun as <- <-. by eapply respects_getLatestBlockHeightTx.
    - assert (R st st1) by (by eapply respects_getLatestBlockHeightTx).
      destruct e; by injection Hrun as <- <-. }
  apply respects_bind; [apply _|apply respects_txnSet; [apply _|eauto]|intros _].
  apply respects_bind; [apply _|apply respects_txnSet; [apply _|eauto]|intros _].
  case_decide; [apply respects_txnSet; [apply _|eauto]|apply respects_ret, _].
Qed.

Lemma respects_insertCollection R `{!PreOrder R} col :
  (∀ st enc, encodeCollection col = Some enc →
     R st (setKey st (collectionKey (CollectionID col)) enc)) →
  respects R (insertCollection col).
Proof.
  intros Hset. apply respects_encoded_bind; [apply _|intros enc Henc].
  apply respects_txnSet; [apply _|eauto].
Qed.

Lemma respects_insertTransaction R `{!PreOrder R} txID tx :
  (∀ st enc, encodeTransaction tx = Some enc →
     R st (setKey st (transactionKey txID) enc)) →
  respects R (insertTransaction txID tx).
Proof.
  intros Hset. apply respects_encoded_bind; [apply _|intros enc Henc].
  apply respects_txnSet; [apply _|eauto].
Qed.

Lemma respects_insertTransactionResult R `{!PreOrder R} txID result :
  (∀ st enc, encodeTransactionResult result = Some enc →
     R st (setKey st (transactionResultKey txID) enc)) →
  respects R (insertTransactionResult txID result).
Proof.
  intros Hset. apply respects_encoded_bind; [apply _|intros enc Henc].
  apply respects_txnSet; [apply _|eauto].
Qed.

Lemma respects_insertEvents R `{!PreOrder R} blockHeight events :
  (∀ st event enc, event ∈ events → encodeEvent event = Some enc →
     R st (setKey st (eventKey blockHeight (TransactionIndex event)
                        (EventIndex event) (EventType event)) enc)) →
  respects R (insertEvents blockHeight events).
Proof.
  intros Hset. apply respects_forEach; [apply _|]. intros event Hin.
  apply respects_encoded_bind; [apply _|intros enc Henc].
  apply respects_txnSet; [apply _|eauto].
Qed.

(** [insertLedgerDelta]: its writes, and its additions to the changelog. *)
Lemma respects_insertLedgerDelta R `{!PreOrder R} blockHeight
    (delta : list (RegisterID * option string)) :
  (∀ st r v, (r, Some v) ∈ delta →
     R st (setKey st (ledgerValueKey r blockHeight) v)) →
  (∀ st r, r ∈ delta.*1 →
     R st (setLog st (addChange (txnChangeLog st) r blockHeight))) →
  (∀ st r enc, r ∈ delta.*1 →
     encodeChangelist (getChangelist (txnChangeLog st) r) = Some enc →
     R st (setKey st (ledgerChangelogKey r) enc)) →
  respects R (insertLedgerDelta blockHeight delta).
Proof.
  intros Hval Hlog Hclog. apply respects_forEach; [apply _|].
  intros [r v] Hin.
  assert (r ∈ delta.*1) as Hr.
  { apply list_elem_of_fmap. by exists (r, v). }
  apply respects_bind; [apply _| |intros _].
  { destruct v as [v|]; [|apply respects_ret, _].
    apply respects_txnSet; [apply _|eauto]. }
  apply respects_bind; [apply _| |intros _].
  { intros st res st' [= <- <-]. by apply Hlog. }
  intros st res st'. unfold bind, txnGetChangelist.
  destruct (encodeChangelist (getChangelist (txnChangeLog st) r))
    as [enc|] eqn:Henc; simpl; [|by intros [= <- <-]].
  unfold txnSet. destruct (setFails _ _); intros [= <- <-]; [done|].
  by apply Hclog.
Qed.

(** The writes of [CommitBlock], one condition for each. *)
Lemma respects_commitBlockTxn R `{!PreOrder R} block collections transactions
    transactionResults delta events :
  respects R (store block) →
  (∀ col, col ∈ collections → respects R (insertCollection col)) →
  (∀ txID tx, transactions !! txID = Some tx →
     respects R (insertTransaction txID tx)) →
  (∀ txID result, transactionResults !! txID = Some result →
     respects R (insertTransactionResult txID result)) →
  respects R (insertLedgerDelta (Height (BlockHeader block)) delta) →
  respects R (insertEvents (Height (BlockHeader block)) events) →
  respects R (commitBlockTxn block collections transactions transactionResults
                delta events).
Proof.
  intros Hstore Hcols Htxs Hres Hdelta Hevents. unfold commitBlockTxn.
  apply respects_bind; [apply _|done|intros _].
  apply respects_bind; [apply _|by apply respects_forEach|intros _].
  apply respects_bind; [apply _| |intros _].
  { apply respects_forEach; [apply _|]. intros [txID tx] Hin.
    apply elem_of_map_to_list in Hin.
    apply respects_bind; [apply _|by apply Htxs|intros _].
    destruct (transactionResults !! txID) as [result|] eqn:Hresult;
      [by apply Hres|apply respects_fail, _]. }
  apply respects_bind; [apply _|done|by intros _].
Qed.

End Respects.


(** *** The keys a transaction leaves alone *)

(** The changelog is untouched and the keys in [P] keep their values. *)
Definition agreeOn (P : Key → Prop) : relation TxnState :=
  λ st st', txnChangeLog st' = txnChangeLog st ∧
            ∀ k, P k → txnDB st' !! k = txnDB st !! k.

#[global] Instance agreeOn_preorder P : PreOrder (agreeOn P).
Proof.
  split.
  - by intros st.
  - intros st1 st2 st3 [Hc1 Hd1] [Hc2 Hd2]. split; [congruence|].
    intros k Hk. by rewrite Hd2, Hd1.
Qed.

Lemma agreeOn_setKey (P : Key → Prop) st key value :
  ¬ P key → agreeOn P st (setKey st key value).
Proof.
  intros Hkey. split; [done|]. intros k Hk. simpl.
  apply lookup_insert_ne. by intros ->.
Qed.

(** The keys in [P] keep their values; the changelog may change. *)
Definition agreeOnDB (P : Key → Prop) : relation TxnState :=
  λ st st', ∀ k, P k → txnDB st' !! k = txnDB st !! k.

#[global] Instance agreeOnDB_preorder P : PreOrder (agreeOnDB P).
Proof.
  split.
  - by intros st.
  - intros st1 st2 st3 Hd1 Hd2 k Hk. by rewrite Hd2, Hd1.
Qed.

Lemma agreeOnDB_setKey (P : Key → Prop) st key value :
  ¬ P key → agreeOnDB P st (setKey st key value).
Proof.
  intros Hkey k Hk. simpl. apply lookup_insert_ne. by intros ->.
Qed.

Definition ledgerKey (k : Key) : Prop :=
  match k with
  | ledgerValueKey _ _ | ledgerChangelogKey _ => True
  | _ => False
  end.

Definition blockFamilyKey (k : Key) : Prop :=
  match k with
  | blockKey _ | blockIDIndexKey _ | latestBlockKey => True
  | _ => False
  end.

Section Frames.
Context {encoding : Encoding} {hashing : Hashing} {faults : Faults}.

Lemma store_agreeOn P block :
  (∀ k, blockFamilyKey k → ¬ P k) → respects (agreeOn P) (store block).
Proof.
  intros HP. apply respects_store; [apply _|..]; intros;
    apply agreeOn_setKey, HP; done.
Qed.

Lemma insertCollection_agreeOn P col :
  (∀ i, ¬ P (collectionKey i)) → respects (agreeOn P) (insertCollection col).
Proof.
  intros HP. apply respects_insertCollection; [apply _|]. intros.
  apply agreeOn_setKey, HP.
Qed.

Lemma insertTransaction_agreeOn P txID tx :
  (∀ i, ¬ P (transactionKey i)) →
  respects (agreeOn P) (insertTransaction txID tx).
Proof.
  intros HP. apply respects_insertTransaction; [apply _|]. intros.
  apply agreeOn_setKey, HP.
Qed.

Lemma insertTransactionResult_agreeOn P txID result :
  (∀ i, ¬ P (transactionResultKey i)) →
  respects (agreeOn P) (insertTransactionResult txID result).
Proof.
  intros HP. apply respects_insertTransactionResult; [apply _|]. intros.
  apply agreeOn_setKey, HP.
Qed.

Lemma insertEvents_agreeOn P blockHeight events :
  (∀ h t e ty, ¬ P (eventKey h t e ty)) →
  respects (agreeOn P) (insertEvents blockHeight events).
Proof.
  intros HP. apply respects_insertEvents; [apply _|]. intros.
  apply agreeOn_setKey, HP.
Qed.

Lemma insertLedgerDelta_agreeOnDB P blockHeight delta :
  (∀ k, ledgerKey k → ¬ P k) →
  respects (agreeOnDB P) (insertLedgerDelta blockHeight delta).
Proof.
  intros HP. apply respects_insertLedgerDelta; [apply _|..]; intros.
  - apply agreeOnDB_setKey, HP. done.
  - done.
  - apply agreeOnDB_setKey, HP. done.
Qed.

End Frames.

(** ** Committing a delta *)

Section Ledger.
Context {encoding : Encoding} {hashing : Hashing} {faults : Faults}.
Implicit Types st : TxnState.
Implicit Types delta : list (RegisterID * option string).

(** What a successful [insertLedgerDelta] of a delta without repeated
    registers does to the transaction: one changelog entry per register
    of the delta, the values of the registers that have one, the changelist
    of every register of the delta written out, and nothing else. *)
Lemma insertLedgerDelta_Ok blockHeight delta st st' :
  insertLedgerDelta blockHeight delta st = (Ok tt, st') →
  NoDup delta.*1 →
  (∀ r, getChangelist (txnChangeLog st') r =
        if decide (r ∈ delta.*1)
        then getChangelist (txnChangeLog st) r ++ [blockHeight]
        else getChangelist (txnChangeLog st) r) ∧
  (∀ r v, (r, Some v) ∈ delta →
     txnDB st' !! ledgerValueKey r blockHeight = Some v) ∧
  (∀ r c, ¬ (c = blockHeight ∧ ∃ v, (r, Some v) ∈ delta) →
     txnDB st' !! ledgerValueKey r c = txnDB st !! ledgerValueKey r c) ∧
  (∀ r, r ∈ delta.*1 →
     ∃ enc, txnDB st' !! ledgerChangelogKey r = Some enc ∧
            encodeChangelist (getChangelist (txnChangeLog st') r) = Some enc) ∧
  (∀ r, r ∉ delta.*1 →
     txnDB st' !! ledgerChangelogKey r = txnDB st !! ledgerChangelogKey r) ∧
  (∀ k, (∀ r c, k ≠ ledgerValueKey r c) → (∀ r, k ≠ ledgerChangelogKey r) →
     txnDB st' !! k = txnDB st !! k).
Proof.
  unfold insertLedgerDelta. revert st.
  induction delta as [|[r0 v0] delta IH]; intros st Hrun Hnodup.
  - apply forEach_nil_Ok in Hrun as ->. split_and!; try done; set_solver.
  - apply forEach_cons_Ok in Hrun as (st1 & Hstep & Hrest).
    apply NoDup_cons in Hnodup as [Hr0 Hnodup].
    destruct (IH _ Hrest Hnodup) as (Hcl & Hval & Hother & Hclog & Hclog' & Hframe).
    clear IH Hrest.
    assert (txnChangeLog st1 = addChange (txnChangeLog st) r0 blockHeight ∧
            ∃ enc,
              encodeChangelist (getChangelist (txnChangeLog st1) r0) = Some enc ∧
              txnDB st1 =
                <[ledgerChangelogKey r0 := enc]>
                  (match v0 with
                   | Some v => <[ledgerValueKey r0 blockHeight := v]> (txnDB st)
                   | None => txnDB st
                   end)) as (Hcl1 & enc & Henc & Hdb1).
    { destruct v0 as [v|]; txn_inv; unfold txnAddChange, txnGetChangelist in *;
        simplify_eq/=; eauto. }
    clear Hstep.
    assert (∀ r, getChangelist (txnChangeLog st1) r =
              if decide (r = r0)
              then getChangelist (txnChangeLog st) r ++ [blockHeight]
              else getChangelist (txnChangeLog st) r) as Hcl1'.
    { intros r. rewrite Hcl1. unfold addChange, getChangelist.
      case_decide as Hr; [subst; by rewrite lookup_insert_eq|].
      by rewrite lookup_insert_ne. }
    split_and!.
    + intros r. rewrite Hcl, Hcl1'. simpl.
      destruct (decide (r = r0)) as [->|Hne].
      * rewrite decide_False by done. rewrite decide_True; [done|].
        apply elem_of_cons; by left.
      * destruct (decide (r ∈ delta.*1)) as [Hin|Hnin].
        -- rewrite decide_True; [done|]. apply elem_of_cons; by right.
        -- rewrite decide_False; [done|].
           rewrite elem_of_cons. naive_solver.
    + intros r v [Heq|Hin]%elem_of_cons; [|by apply Hval].
      simplify_eq. rewrite Hother, Hdb1.
      * rewrite lookup_insert_ne by done. by rewrite lookup_insert_eq.
      * intros [_ [v' Hv']]. apply Hr0.
        apply list_elem_of_fmap. by exists (r0, Some v').
    + intros r c Hnot. rewrite Hother, Hdb1.
      * rewrite lookup_insert_ne by done.
        destruct v0 as [v|]; [|done].
        apply lookup_insert_ne. intros [= -> ->]. apply Hnot.
        split; [done|]. exists v. apply elem_of_cons; by left.
      * intros [-> [v Hv]]. apply Hnot. split; [done|].
        exists v. apply elem_of_cons; by right.
    + intros r [->|Hin]%elem_of_cons.
      * exists enc. rewrite Hclog' by done. rewrite Hdb1, lookup_insert_eq.
        split; [done|]. rewrite Hcl. by rewrite decide_False by done.
      * by apply Hclog.
    + intros r Hnin. rewrite fmap_cons, not_elem_of_cons in Hnin.
      destruct Hnin as [Hne Hnin]. rewrite Hclog' by done.
      rewrite Hdb1. rewrite lookup_insert_ne by (simpl in Hne; congruence).
      destruct v0; [|done]. by rewrite lookup_insert_ne.
    + intros k Hk1 Hk2. rewrite Hframe by done. rewrite Hdb1.
      rewrite lookup_insert_ne by (intros <-; by eapply Hk2).
      destruct v0; [|done].
      rewrite lookup_insert_ne; [done|]. intros <-. by eapply Hk1.
Qed.


(** The other writes of [CommitBlock] leave the ledger keys and the
    changelog alone. *)
Lemma commitBlockTxn_ledger block collections transactions transactionResults
    delta events st st' :
  commitBlockTxn block collections transactions transactionResults delta
    events st = (Ok tt, st') →
  ∃ st1 st2,
    txnChangeLog st1 = txnChangeLog st ∧
    (∀ k, ledgerKey k → txnDB st1 !! k = txnDB st !! k) ∧
    insertLedgerDelta (Height (BlockHeader block)) delta st1 = (Ok tt, st2) ∧
    txnChangeLog st' = txnChangeLog st2 ∧
    (∀ k, ledgerKey k → txnDB st' !! k = txnDB st2 !! k).
Proof.
  unfold commitBlockTxn. intros Hrun.
  apply bind_Ok in Hrun as ([] & sa & Hstore & Hrun).
  apply bind_Ok in Hrun as ([] & sb & Hcols & Hrun).
  apply bind_Ok in Hrun as ([] & sc & Htxs & Hrun).
  apply bind_Ok in Hrun as ([] & sd & Hdelta & Hevents).
  exists sc, sd.
  assert (agreeOn ledgerKey st sa) as [Hc1 Hd1].
  { eapply store_agreeOn; [|done]. intros [] Hb Hl; done. }
  assert (agreeOn ledgerKey sa sb) as [Hc2 Hd2].
  { eapply respects_forEach; [apply _| |done]. intros col _.
    apply insertCollection_agreeOn. by cbv. }
  assert (agreeOn ledgerKey sb sc) as [Hc3 Hd3].
  { eapply respects_forEach; [apply _| |done]. intros [txID tx] _.
    apply respects_bind; [apply _|apply insertTransaction_agreeOn; by cbv|].
    intros _. destruct (transactionResults !! txID);
      [apply insertTransactionResult_agreeOn; by cbv|apply respects_fail, _]. }
  assert (agreeOn ledgerKey sd st') as [Hc4 Hd4].
  { eapply insertEvents_agreeOn; [|done]. by cbv. }
  split_and!; [congruence| |done|done|done].
  intros k Hk. by rewrite Hd3, Hd2, Hd1.
Qed.

(** A successful commit of a delta, by [InsertLedgerDelta] or within
    [CommitBlock], seen from the store. *)
Lemma ledger_step s blockHeight delta s' :
  InsertLedgerDelta s blockHeight delta = (Ok tt, s') ∨
  (∃ block collections transactions transactionResults events,
     Height (BlockHeader block) = blockHeight ∧
     CommitBlock s block collections transactions transactionResults delta
       events = (Ok tt, s')) →
  NoDup delta.*1 →
  (∀ r, getChangelist (ledgerChangeLog s') r =
        if decide (r ∈ delta.*1)
        then getChangelist (ledgerChangeLog s) r ++ [blockHeight]
        else getChangelist (ledgerChangeLog s) r) ∧
  (∀ r v, (r, Some v) ∈ delta →
     db s' !! ledgerValueKey r blockHeight = Some v) ∧
  (∀ r c, ¬ (c = blockHeight ∧ ∃ v, (r, Some v) ∈ delta) →
     db s' !! ledgerValueKey r c = db s !! ledgerValueKey r c) ∧
  (∀ r, r ∈ delta.*1 →
     ∃ enc, db s' !! ledgerChangelogKey r = Some enc ∧
            encodeChangelist (getChangelist (ledgerChangeLog s') r) = Some enc) ∧
  (∀ r, r ∉ delta.*1 →
     db s' !! ledgerChangelogKey r = db s !! ledgerChangelogKey r).
Proof.
  intros [Hrun|(block & cols & txs & res & events & <- & Hrun)] Hnodup.
  - unfold InsertLedgerDelta, Update in Hrun.
    destruct (insertLedgerDelta _ _ _) as [[[]|e] st'] eqn:Hins; [|done].
    injection Hrun as <-.
    destruct (insertLedgerDelta_Ok _ _ _ _ Hins Hnodup)
      as (H1 & H2 & H3 & H4 & H5 & _).
    done.
  - unfold CommitBlock in Hrun. case_decide; [done|].
    unfold Update in Hrun.
    destruct (commitBlockTxn _ _ _ _ _ _ _) as [[[]|e] st'] eqn:Htxn; [|done].
    unfold newCommit in Hrun. simpl in Hrun.
    destruct (checkpointFails (txnDB st')); [done|].
    injection Hrun as <-. simpl.
    apply commitBlockTxn_ledger in Htxn
      as (st1 & st2 & Hc1 & Hd1 & Hins & Hc2 & Hd2).
    destruct (insertLedgerDelta_Ok _ _ _ _ Hins Hnodup)
      as (H1 & H2 & H3 & H4 & H5 & _).
    simpl in *. rewrite Hc2. split_and!.
    + intros r. by rewrite H1, Hc1.
    + intros r v Hin. rewrite Hd2 by done. by apply H2.
    + intros r c Hnot. rewrite Hd2, H3, Hd1; done.
    + intros r Hin. rewrite Hd2 by done. by apply H4.
    + intros r Hnin. rewrite Hd2, H5, Hd1; done.
Qed.

(** The state of the ledger after a history of commits: the changelist of
    a register lists the heights of the deltas that touch it, a value entry
    exists exactly where a delta wrote a value, and the changelist written
    to the database is the one in memory. *)
Definition ledgerInv (s : Store)
    (hist : list (N * list (RegisterID * option string))) : Prop :=
  (∀ r, getChangelist (ledgerChangeLog s) r =
        fst <$> filter (λ c, r ∈ c.2.*1) hist) ∧
  (∀ r c v, db s !! ledgerValueKey r c = Some v ↔
            ∃ d, (c, d) ∈ hist ∧ (r, Some v) ∈ d) ∧
  (∀ r, match db s !! ledgerChangelogKey r with
        | Some enc =>
            decodeChangelist enc = Some (getChangelist (ledgerChangeLog s) r)
        | None => getChangelist (ledgerChangeLog s) r = []
        end).

Lemma wellFormedHistory_snoc `{Sentinel} hist c :
  wellFormedHistory (hist ++ [c]) →
  wellFormedHistory hist ∧ NoDup c.2.*1 ∧ c.1 ≠ notFound ∧
  ∀ c', c' ∈ hist → c'.1 < c.1.
Proof.
  intros [Hsorted Hall]. rewrite fmap_app in Hsorted.
  apply StronglySorted_app in Hsorted as (Hlt & Hs1 & _).
  apply Forall_app in Hall as [Hall1 Hall2].
  apply Forall_singleton in Hall2 as [??].
  split_and!; try done.
  intros c' Hc'. apply Hlt; [|set_solver].
  apply list_elem_of_fmap. eauto.
Qed.

Lemma ledgerCommits_inv `{Sentinel} hist s :
  ledgerCommits emptyStore hist s → wellFormedHistory hist → ledgerInv s hist.
Proof.
  assert (∀ s1 hist blockHeight delta s2,
            ledgerInv s1 hist →
            wellFormedHistory (hist ++ [(blockHeight, delta)]) →
            (InsertLedgerDelta s1 blockHeight delta = (Ok tt, s2) ∨
             (∃ block collections transactions transactionResults events,
                Height (BlockHeader block) = blockHeight ∧
                CommitBlock s1 block collections transactions
                  transactionResults delta events = (Ok tt, s2))) →
            ledgerInv s2 (hist ++ [(blockHeight, delta)])) as Hstep.
  { clear. intros s1 hist h delta s2 (Icl & Ival & Iclog) Hwf Hrun.
    apply wellFormedHistory_snoc in Hwf as (Hwf & Hnodup & _ & Hlt).
    simpl in *.
    destruct (ledger_step _ _ _ _ Hrun Hnodup) as (H1 & H2 & H3 & H4 & H5).
    split_and!.
    - intros r. rewrite H1, Icl, filter_app, fmap_app.
      rewrite filter_cons, filter_nil. simpl.
      destruct (decide (r ∈ delta.*1)); simpl; [done|by rewrite app_nil_r].
    - intros r c v. split.
      + intros Hv.
        assert ((c = h ∧ ∃ v', (r, Some v') ∈ delta) ∨
                ¬ (c = h ∧ ∃ v', (r, Some v') ∈ delta)) as [[-> [v' Hv']]|Hnot].
        { destruct (decide (c = h)) as [->|]; [|naive_solver].
          destruct (list_find (λ w, w.1 = r ∧ is_Some w.2) delta)
            as [[i [r' w]]|] eqn:Hfind.
          - apply list_find_Some in Hfind as (Hi & [Hr [v' Hw]] & _).
            simpl in Hr, Hw. subst r' w. left. split; [done|]. exists v'.
            by eapply list_elem_of_lookup_2.
          - right. intros [_ [v' Hv']].
            apply list_find_None in Hfind. rewrite Forall_forall in Hfind.
            apply (Hfind _ Hv'). split; [done|]. by eexists. }
        * rewrite (H2 _ _ Hv') in Hv. injection Hv as ->.
          exists delta. split; [set_solver|done].
        * rewrite H3 in Hv by done. apply Ival in Hv as (d & Hd & Hin).
          exists d. split; [set_solver|done].
      + intros (d & [Hd|Hd]%elem_of_app & Hin).
        * rewrite H3; [apply Ival; eauto|].
          intros [-> _]. specialize (Hlt _ Hd). simpl in Hlt. lia.
        * apply list_elem_of_singleton in Hd as [= -> ->]. by apply H2.
    - intros r. destruct (decide (r ∈ delta.*1)) as [Hin|Hnin].
      + destruct (H4 r Hin) as (enc & -> & Henc).
        by apply decode_encode_Changelist.
      + rewrite H5 by done. specialize (Iclog r). specialize (H1 r).
        rewrite decide_False in H1 by done. by rewrite H1. }
  intros Hcommits. remember emptyStore as s0 eqn:Hs0.
  induction Hcommits as [s|s hist s1 h delta s2 Hcommits IH Hrun
                  |s hist s1 block cols txs res delta events s2 Hcommits IH Hrun];
    intros Hwf.
  - subst s. split_and!; try done.
    intros r c v. split; [done|]. intros (d & Hd & _). by apply elem_of_nil in Hd.
  - apply (Hstep s1); [|done|by left].
    apply IH; [done|]. by apply wellFormedHistory_snoc in Hwf as [? _].
  - apply (Hstep s1); [|done|right; naive_solver].
    apply IH; [done|]. by apply wellFormedHistory_snoc in Hwf as [? _].
Qed.

End Ledger.

(** ** Reading the ledger at a height *)

Section LedgerView.
Context {encoding : Encoding} {hashing : Hashing} {faults : Faults}
  {sentinel : Sentinel}.

Lemma filter_heights_sorted (P : N * list (RegisterID * option string) → Prop)
    `{∀ c, Decision (P c)} hist :
  StronglySorted N.lt (hist.*1) → StronglySorted N.lt ((filter P hist).*1).
Proof.
  induction hist as [|c hist IH]; [done|].
  rewrite fmap_cons. intros [Hall Hsorted]%StronglySorted_cons.
  rewrite filter_cons. destruct (decide (P c)); [|by apply IH].
  rewrite fmap_cons. apply StronglySorted_cons. split; [|by apply IH].
  rewrite Forall_forall in Hall. apply Forall_forall.
  intros x [c' [-> Hc']]%list_elem_of_fmap.
  apply list_elem_of_filter in Hc' as [_ Hc'].
  apply Hall. apply list_elem_of_fmap. eauto.
Qed.

Lemma history_height_unique (hist : list (N * list (RegisterID * option string)))
    c d d' :
  StronglySorted N.lt (hist.*1) → (c, d) ∈ hist → (c, d') ∈ hist → d = d'.
Proof.
  induction hist as [|x hist IH]; [by intros _ ?%elem_of_nil|].
  rewrite fmap_cons. intros [Hall Hsorted]%StronglySorted_cons.
  rewrite Forall_forall in Hall.
  assert (∀ e, (c, e) ∈ hist → x.1 < c) as Hlt.
  { intros e He. apply Hall. apply list_elem_of_fmap. by exists (c, e). }
  intros [Heq|Hd]%elem_of_cons [Heq'|Hd']%elem_of_cons.
  - congruence.
  - subst x. specialize (Hlt _ Hd'). simpl in Hlt. lia.
  - subst x. specialize (Hlt _ Hd). simpl in Hlt. lia.
  - by apply IH.
Qed.

Lemma delta_value_unique (delta : list (RegisterID * option string)) r v v' :
  NoDup delta.*1 → (r, v) ∈ delta → (r, v') ∈ delta → v = v'.
Proof.
  induction delta as [|[r0 v0] delta IH]; [by intros _ ?%elem_of_nil|].
  rewrite fmap_cons. intros [Hr0 Hnodup]%NoDup_cons.
  assert (∀ w, (r0, w) ∈ delta → False) as Hno.
  { intros w Hw. apply Hr0. apply list_elem_of_fmap. by exists (r0, w). }
  intros [Heq|Hin]%elem_of_cons [Heq'|Hin']%elem_of_cons; simplify_eq;
    try done; try (exfalso; by eapply Hno).
  by apply IH.
Qed.

(** The changelog entries of a register are the heights of the deltas
    that touch it. *)
Lemma changelog_entries
    (hist : list (N * list (RegisterID * option string))) (s : Store)
    (r : RegisterID) (c : N) :
  ledgerCommits emptyStore hist s →
  wellFormedHistory hist →
  c ∈ getChangelist (ledgerChangeLog s) r ↔ ∃ d, (c, d) ∈ hist ∧ touches d r.
Proof.
  intros Hcommits Hwf.
  destruct (ledgerCommits_inv _ _ Hcommits Hwf) as (Icl & _ & _).
  rewrite Icl. unfold touches. split.
  - intros [[c0 d] [-> [Hr Hd]%list_elem_of_filter]]%list_elem_of_fmap. eauto.
  - intros (d & Hd & Hr). apply list_elem_of_fmap. exists (c, d).
    split; [done|]. by apply list_elem_of_filter.
Qed.

(** What the database holds under [(r, c)] is what the delta committed at
    [c] holds for [r]: its value, or nothing when it deleted [r]. *)
Lemma history_value_entry
    (hist : list (N * list (RegisterID * option string))) (s : Store)
    (c : N) d (r : RegisterID) (v : option string) :
  ledgerCommits emptyStore hist s →
  wellFormedHistory hist →
  (c, d) ∈ hist → (r, v) ∈ d →
  db s !! ledgerValueKey r c = v.
Proof.
  intros Hcommits Hwf Hd Hv.
  destruct (ledgerCommits_inv _ _ Hcommits Hwf) as (_ & Ival & _).
  destruct Hwf as [Hsorted Hall]. rewrite Forall_forall in Hall.
  destruct (db s !! ledgerValueKey r c) as [x|] eqn:Hx.
  - apply Ival in Hx as (d' & Hd' & Hx).
    assert (d' = d) as -> by (by eapply history_height_unique).
    eapply delta_value_unique; [|done..]. by apply (Hall _ Hd).
  - destruct v as [x|]; [|done].
    assert (db s !! ledgerValueKey r c = Some x) as Hx' by (apply Ival; eauto).
    congruence.
Qed.

Lemma ViewTxn_getTx (s : Store) (key : Key) :
  ViewTxn s (getTx key) =
  match db s !! key with
  | Some val => Ok val
  | None => Err ErrNotFound
  end.
Proof. unfold ViewTxn, getTx. simpl. by destruct (db s !! key). Qed.

(** In a session without a jump and without a refused commit the ledger
    view reads the latest write.  For a store reached from the empty store
    by successful delta commits at growing heights, and for every height
    [h] and register [r]: the changelog entries of [r] are the
    heights of the deltas that touch [r]; reading [r] through the ledger
    view at [h] returns the value written at the greatest changelog entry
    of [r] that is at most [h] (the nil value when that delta deleted [r]),
    and not-found (nil) when [r] has no changelog entry at or below [h]. *)
Theorem ledger_view_reads_latest_write
    (hist : list (N * list (RegisterID * option string))) (s : Store)
    (h : N) (r : RegisterID) :
  ledgerCommits emptyStore hist s →
  wellFormedHistory hist →
  (∀ c, c ∈ getChangelist (ledgerChangeLog s) r ↔
        ∃ d, (c, d) ∈ hist ∧ touches d r) ∧
  (∀ c d v,
     c ∈ getChangelist (ledgerChangeLog s) r → c ≤ h →
     (∀ c', c' ∈ getChangelist (ledgerChangeLog s) r → c' ≤ h → c' ≤ c) →
     (c, d) ∈ hist → (r, v) ∈ d →
     LedgerViewByHeight s h r = Ok v) ∧
  ((∀ c, c ∈ getChangelist (ledgerChangeLog s) r → h < c) →
   LedgerViewByHeight s h r = Ok None).
Proof.
  intros Hcommits Hwf.
  pose proof (ledgerCommits_inv _ _ Hcommits Hwf) as (Icl & Ival & _).
  assert (StronglySorted N.lt (getChangelist (ledgerChangeLog s) r)) as Hcl.
  { rewrite Icl. apply filter_heights_sorted, Hwf. }
  split_and!.
  - intros c. by apply changelog_entries.
  - intros c d v Hc Hle Hmax Hd Hv.
    unfold LedgerViewByHeight, getMostRecentChange.
    rewrite (proj2 (search_Some _ h c Hcl)) by done. simpl.
    rewrite ViewTxn_getTx.
    rewrite (history_value_entry hist s c d r v) by done.
    by destruct v.
  - intros Habove.
    unfold LedgerViewByHeight, getMostRecentChange.
    rewrite (proj2 (search_None _ h Hcl)) by done. simpl.
    rewrite ViewTxn_getTx.
    destruct (db s !! ledgerValueKey r notFound) as [x|] eqn:Hx; [|done].
    apply Ival in Hx as (d & Hd & _).
    destruct Hwf as [_ Hall]. rewrite Forall_forall in Hall.
    by destruct (Hall _ Hd) as [_ []].
Qed.


End LedgerView.

(** ** What a successful commit has written *)

Section Commit.
Context {encoding : Encoding} {hashing : Hashing} {faults : Faults}.
Implicit Types st : TxnState.

(** One round of a loop does what the loop over one element does. *)
Lemma respects_forEach_one {A} (R : relation TxnState) (body : A → Txn unit) x :
  respects R (forEach [x] body) → respects R (body x).
Proof.
  intros Hone st r st' Hrun. destruct r as [[]|e].
  - apply (Hone st (Ok tt) st'). simpl. unfold bind. by rewrite Hrun.
  - apply (Hone st (Err e) st'). simpl. unfold bind. by rewrite Hrun.
Qed.

(** What a loop has established for each of its elements, when the rest
    of the loop keeps it. *)
Lemma forEach_established {A} (R : relation TxnState) `{!PreOrder R}
    (Q : A → TxnState → Prop) (xs : list A) (body : A → Txn unit) st st' :
  (∀ x, x ∈ xs → respects R (body x)) →
  (∀ x st0 st1, x ∈ xs → body x st0 = (Ok tt, st1) → Q x st1) →
  (∀ x st1 st2, x ∈ xs → Q x st1 → R st1 st2 → Q x st2) →
  forEach xs body st = (Ok tt, st') →
  ∀ x, x ∈ xs → Q x st'.
Proof.
  intros HR Hbody Hmono. revert st.
  induction xs as [|x0 xs IH]; intros st Hrun x Hx; [by apply elem_of_nil in Hx|].
  apply forEach_cons_Ok in Hrun as (st1 & Hstep & Hrest).
  apply elem_of_cons in Hx as [->|Hx].
  - apply (Hmono _ st1); [set_solver|apply (Hbody _ st); [set_solver|done]|].
    eapply respects_forEach; [apply _| |done].
    intros y Hy. apply HR. set_solver.
  - eapply IH; [| | |done..].
    + intros y Hy. apply HR. set_solver.
    + intros y st0 st2 Hy. apply Hbody. set_solver.
    + intros y st1' st2 Hy. apply Hmono. set_solver.
Qed.

(** Writes never remove an entry. *)
Definition grows : relation TxnState :=
  λ st st', ∀ k, is_Some (txnDB st !! k) → is_Some (txnDB st' !! k).

#[global] Instance grows_preorder : PreOrder grows.
Proof.
  split.
  - by intros st k Hk.
  - intros st1 st2 st3 H1 H2 k Hk. by apply H2, H1.
Qed.

Lemma grows_setKey st key value : grows st (setKey st key value).
Proof.
  intros k Hk. simpl. destruct (decide (key = k)) as [->|].
  - rewrite lookup_insert_eq. by eexists.
  - by rewrite lookup_insert_ne.
Qed.

Lemma commitBlockTxn_grows block collections transactions transactionResults
    delta events :
  respects grows (commitBlockTxn block collections transactions
                    transactionResults delta events).
Proof.
  apply respects_commitBlockTxn; [apply _|..].
  - apply respects_store; [apply _|..]; intros; apply grows_setKey.
  - intros. apply respects_insertCollection; [apply _|].
    intros. apply grows_setKey.
  - intros. apply respects_insertTransaction; [apply _|].
    intros. apply grows_setKey.
  - intros. apply respects_insertTransactionResult; [apply _|].
    intros. apply grows_setKey.
  - apply respects_insertLedgerDelta; [apply _|..]; intros;
      try apply grows_setKey. by intros k Hk.
  - apply respects_insertEvents; [apply _|]. intros. apply grows_setKey.
Qed.

(** The latest height a database records, zero when it records none. *)
Definition latestHeightOf (d : gmap Key string) : option N :=
  match d !! latestBlockKey with
  | Some enc => decodeUint64 enc
  | None => Some 0
  end.

Lemma store_Ok block st st' :
  store block st = (Ok tt, st') →
  ∃ encBlock encHeight latest,
    encodeBlock block = Some encBlock ∧
    encodeUint64 (Height (BlockHeader block)) = Some encHeight ∧
    latestHeightOf (txnDB st) = Some latest ∧
    txnDB st' !! blockKey (Height (BlockHeader block)) = Some encBlock ∧
    txnDB st' !! blockIDIndexKey (BlockID block) = Some encHeight ∧
    txnDB st' !! latestBlockKey =
      (if decide (latest ≤ Height (BlockHeader block)) then Some encHeight
       else txnDB st !! latestBlockKey).
Proof.
  unfold store. intros Hrun.
  apply bind_Ok in Hrun as (encBlock & ? & [HencB ->]%encoded_Ok & Hrun).
  apply bind_Ok in Hrun as (encHeight & ? & [HencH ->]%encoded_Ok & Hrun).
  apply bind_Ok in Hrun as (latest & st1 & Hlatest & Hrun).
  assert (st1 = st ∧ latestHeightOf (txnDB st) = Some latest) as [-> Hl].
  { unfold getLatestBlockHeightTx, bind, getTx, latestHeightOf in *.
    destruct (txnDB st !! latestBlockKey) as [enc|]; simpl in *.
    - unfold decoded, ret, fail in Hlatest.
      destruct (decodeUint64 enc); by simplify_eq.
    - by simplify_eq. }
  exists encBlock, encHeight, latest.
  apply bind_Ok in Hrun as ([] & sa & [_ ->]%txnSet_Ok & Hrun).
  apply bind_Ok in Hrun as ([] & sb & [_ ->]%txnSet_Ok & Hrun).
  destruct (decide (latest ≤ Height (BlockHeader block))).
  - apply txnSet_Ok in Hrun as [_ ->]. simpl.
    rewrite lookup_insert_eq.
    rewrite !(lookup_insert_ne _ latestBlockKey) by done.
    rewrite lookup_insert_eq.
    rewrite (lookup_insert_ne _ (blockIDIndexKey _) (blockKey _)) by done.
    by rewrite lookup_insert_eq.
  - apply ret_Ok in Hrun as [_ ->]. simpl.
    rewrite lookup_insert_eq.
    rewrite (lookup_insert_ne _ (blockIDIndexKey _) (blockKey _)) by done.
    rewrite lookup_insert_eq.
    by rewrite !lookup_insert_ne by done.
Qed.

(** After the block is stored, [CommitBlock] leaves its keys alone. *)
Lemma commitBlockTxn_block block collections transactions transactionResults
    delta events st st' :
  commitBlockTxn block collections transactions transactionResults delta
    events st = (Ok tt, st') →
  ∃ st1, store block st = (Ok tt, st1) ∧
         ∀ k, blockFamilyKey k → txnDB st' !! k = txnDB st1 !! k.
Proof.
  unfold commitBlockTxn. intros Hrun.
  apply bind_Ok in Hrun as ([] & sa & Hstore & Hrun).
  exists sa. split; [done|].
  assert (agreeOnDB blockFamilyKey sa st') as Hagree; [|done].
  assert (∀ (m : Txn unit), respects (agreeOn blockFamilyKey) m →
            respects (agreeOnDB blockFamilyKey) m) as Hweak.
  { intros m Hm s0 r s1 Hm0. by destruct (Hm _ _ _ Hm0). }
  eapply (respects_bind (agreeOnDB blockFamilyKey)); [| |exact Hrun].
  { apply Hweak, respects_forEach; [apply _|]. intros col _.
    apply insertCollection_agreeOn. by cbv. }
  intros []. apply respects_bind; [apply _| |intros _].
  { apply Hweak, respects_forEach; [apply _|]. intros [txID tx] _.
    apply respects_bind; [apply _|apply insertTransaction_agreeOn; by cbv|].
    intros _. destruct (transactionResults !! txID);
      [apply insertTransactionResult_agreeOn; by cbv|apply respects_fail, _]. }
  apply respects_bind; [apply _| |intros _].
  { apply insertLedgerDelta_agreeOnDB. intros [] Hl Hb; done. }
  apply Hweak, insertEvents_agreeOn. by cbv.
Qed.


(** The error of the snapshot repository is never raised inside a
    transaction. *)
Definition noGitError {A} (m : Txn A) : Prop :=
  ∀ st st', m st ≠ (Err ErrGit, st').

Lemma noGitError_bind {A B} (m : Txn A) (k : A → Txn B) :
  noGitError m → (∀ a, noGitError (k a)) → noGitError (bind m k).
Proof.
  intros Hm Hk st st' [Hrun|(a & st1 & _ & Hrun)]%bind_Err.
  - by eapply Hm.
  - by eapply Hk.
Qed.

Lemma noGitError_encoded {A} (o : option A) : noGitError (encoded o).
Proof. by destruct o. Qed.

Lemma noGitError_decoded {A} (o : option A) : noGitError (decoded o).
Proof. by destruct o. Qed.

Lemma noGitError_getTx key : noGitError (getTx key).
Proof. intros st st'. unfold getTx. by destruct (txnDB st !! key). Qed.

Lemma noGitError_txnSet key value : noGitError (txnSet key value).
Proof. intros st st'. unfold txnSet. by destruct (setFails key value). Qed.

Lemma noGitError_forEach {A} (xs : list A) (body : A → Txn unit) :
  (∀ x, noGitError (body x)) → noGitError (forEach xs body).
Proof.
  intros Hbody. induction xs as [|x xs IH]; [done|].
  simpl. apply noGitError_bind; [done|by intros _].
Qed.

Lemma noGitError_store block : noGitError (store block).
Proof.
  unfold store.
  apply noGitError_bind; [apply noGitError_encoded|intros encBlock].
  apply noGitError_bind; [apply noGitError_encoded|intros encHeight].
  apply noGitError_bind; [|intros latest].
  { intros st st'. unfold getLatestBlockHeightTx, bind, getTx.
    destruct (txnDB st !! latestBlockKey) as [enc|]; [|done].
    by destruct (decodeUint64 enc). }
  apply noGitError_bind; [apply noGitError_txnSet|intros _].
  apply noGitError_bind; [apply noGitError_txnSet|intros _].
  case_decide; [apply noGitError_txnSet|done].
Qed.

Lemma noGitError_commitBlockTxn block collections transactions
    transactionResults delta events :
  noGitError (commitBlockTxn block collections transactions transactionResults
                delta events).
Proof.
  unfold commitBlockTxn.
  apply noGitError_bind; [apply noGitError_store|intros _].
  apply noGitError_bind; [|intros _].
  { apply noGitError_forEach. intros col.
    apply noGitError_bind; [apply noGitError_encoded|].
    intros ?. apply noGitError_txnSet. }
  apply noGitError_bind; [|intros _].
  { apply noGitError_forEach. intros [txID tx].
    apply noGitError_bind.
    - apply noGitError_bind; [apply noGitError_encoded|].
      intros ?. apply noGitError_txnSet.
    - intros _. destruct (transactionResults !! txID); [|done].
      apply noGitError_bind; [apply noGitError_encoded|].
      intros ?. apply noGitError_txnSet. }
  apply noGitError_bind; [|intros _].
  { apply noGitError_forEach. intros [r v].
    apply noGitError_bind; [destruct v; [apply noGitError_txnSet|done]|intros _].
    apply noGitError_bind; [done|intros _].
    apply noGitError_bind; [done|intros clist].
    apply noGitError_bind; [apply noGitError_encoded|intros enc].
    apply noGitError_txnSet. }
  apply noGitError_forEach. intros event.
  apply noGitError_bind; [apply noGitError_encoded|].
  intros ?. apply noGitError_txnSet.
Qed.

(** The two ways [CommitBlock] ends: before or inside the transaction,
    with nothing written, or after it, with everything written. *)
Lemma CommitBlock_failed s block collections transactions transactionResults
    delta events e s' :
  CommitBlock s block collections transactions transactionResults delta
    events = (Err e, s') →
  e ≠ ErrGit →
  db s' = db s ∧ dbGitRepository s' = dbGitRepository s.
Proof.
  unfold CommitBlock, Update, newCommit. intros Hrun He.
  case_decide; [by simplify_eq|].
  destruct (commitBlockTxn _ _ _ _ _ _ _) as [[[]|e0] st']; simpl in *.
  - destruct (checkpointFails (txnDB st')); by simplify_eq.
  - by simplify_eq.
Qed.

Lemma CommitBlock_applied s block collections transactions transactionResults
    delta events r s' :
  CommitBlock s block collections transactions transactionResults delta
    events = (r, s') →
  r = Ok tt ∨ r = Err ErrGit →
  size transactions = size transactionResults ∧
  ∃ st', commitBlockTxn block collections transactions transactionResults
           delta events (mkTxnState (db s) (ledgerChangeLog s)) = (Ok tt, st') ∧
         db s' = txnDB st' ∧ ledgerChangeLog s' = txnChangeLog st'.
Proof.
  unfold CommitBlock, Update, newCommit. intros Hrun Hr.
  case_decide as Hsize; [destruct Hr; by simplify_eq|].
  split; [by destruct (decide (size transactions = size transactionResults))|].
  destruct (commitBlockTxn _ _ _ _ _ _ _) as [[[]|e0] st'] eqn:Htxn; simpl in *.
  - exists st'. destruct (checkpointFails (txnDB st')); by simplify_eq.
  - destruct Hr; simplify_eq.
    by apply noGitError_commitBlockTxn in Htxn.
Qed.


(** An entry that holds the value expected under its key keeps it. *)
Definition keeps (W : Key → string → Prop) : relation TxnState :=
  λ st st', ∀ k v, W k v → txnDB st !! k = Some v → txnDB st' !! k = Some v.

#[global] Instance keeps_preorder W : PreOrder (keeps W).
Proof.
  split.
  - by intros st k v.
  - intros st1 st2 st3 H1 H2 k v Hw Hk. by eapply H2, H1.
Qed.

Lemma keeps_setKey W st key value :
  (∀ v, W key v → v = value) → keeps W st (setKey st key value).
Proof.
  intros Hkey k v Hw Hk. simpl. destruct (decide (key = k)) as [->|].
  - rewrite lookup_insert_eq. f_equal. symmetry. by apply Hkey.
  - by rewrite lookup_insert_ne.
Qed.

(** The entries [CommitBlock] is to write for the transactions and their
    results. *)
Definition expectedEntry (transactions : gmap N TransactionBody)
    (transactionResults : gmap N StorableTransactionResult)
    (k : Key) (v : string) : Prop :=
  match k with
  | transactionKey txID =>
      ∃ tx, transactions !! txID = Some tx ∧ encodeTransaction tx = Some v
  | transactionResultKey txID =>
      ∃ result, transactionResults !! txID = Some result ∧
                encodeTransactionResult result = Some v
  | _ => False
  end.

Lemma commitBlockTxn_written block collections transactions transactionResults
    delta events st st' :
  commitBlockTxn block collections transactions transactionResults delta
    events st = (Ok tt, st') →
  (∃ enc, encodeBlock block = Some enc ∧
          txnDB st' !! blockKey (Height (BlockHeader block)) = Some enc) ∧
  (∀ col, col ∈ collections →
     is_Some (txnDB st' !! collectionKey (CollectionID col))) ∧
  (∀ txID tx, transactions !! txID = Some tx →
     (∃ enc, encodeTransaction tx = Some enc ∧
             txnDB st' !! transactionKey txID = Some enc) ∧
     (∃ result enc, transactionResults !! txID = Some result ∧
                    encodeTransactionResult result = Some enc ∧
                    txnDB st' !! transactionResultKey txID = Some enc)) ∧
  (∀ r v, (r, Some v) ∈ delta →
     is_Some (txnDB st' !! ledgerValueKey r (Height (BlockHeader block)))) ∧
  (∀ r, r ∈ delta.*1 → is_Some (txnDB st' !! ledgerChangelogKey r)) ∧
  (∀ event, event ∈ events →
     is_Some (txnDB st' !! eventKey (Height (BlockHeader block))
                (TransactionIndex event) (EventIndex event) (EventType event))).
Proof.
  intros Hrun.
  destruct (commitBlockTxn_block _ _ _ _ _ _ _ _ Hrun) as (s1 & Hstore1 & Hblock).
  destruct (store_Ok _ _ _ Hstore1)
    as (encBlock & encHeight & latest & HencB & _ & _ & HdbB & _ & _).
  unfold commitBlockTxn in Hrun.
  apply bind_Ok in Hrun as ([] & sa & Hstore & Hrun).
  apply bind_Ok in Hrun as ([] & sb & Hcols & Hrun).
  apply bind_Ok in Hrun as ([] & sc & Htxs & Hrun).
  apply bind_Ok in Hrun as ([] & sd & Hdelta & Hevents).
  set (W := expectedEntry transactions transactionResults).
  assert (∀ evs, respects grows (insertEvents (Height (BlockHeader block)) evs))
    as Hgrows_events.
  { intros evs. apply respects_insertEvents; [apply _|].
    intros. apply grows_setKey. }
  assert (∀ d, respects grows (insertLedgerDelta (Height (BlockHeader block)) d))
    as Hgrows_delta.
  { intros d. apply respects_insertLedgerDelta; [apply _|..]; intros;
      try apply grows_setKey. by intros k Hk. }
  assert (respects (keeps W) (insertEvents (Height (BlockHeader block)) events))
    as Hkeeps_events.
  { apply respects_insertEvents; [apply _|]. intros.
    apply keeps_setKey. by intros v []. }
  assert (respects (keeps W)
            (insertLedgerDelta (Height (BlockHeader block)) delta))
    as Hkeeps_delta.
  { apply respects_insertLedgerDelta; [apply _|..]; intros;
      try (apply keeps_setKey; by intros ? []). by intros k v0 ??. }
  match type of Htxs with forEach _ ?body _ = _ => set (txBody := body) in * end.
  assert (∀ x, x ∈ map_to_list transactions → respects grows (txBody x))
    as Hgrows_tx.
  { intros [txID tx] _. unfold txBody.
    apply respects_bind; [apply _| |intros _].
    - apply respects_insertTransaction; [apply _|]. intros. apply grows_setKey.
    - destruct (transactionResults !! txID); [|apply respects_fail, _].
      apply respects_insertTransactionResult; [apply _|].
      intros. apply grows_setKey. }
  assert (∀ x, x ∈ map_to_list transactions → respects (keeps W) (txBody x))
    as Hkeeps_tx.
  { intros [txID tx] Hin%elem_of_map_to_list. unfold txBody.
    apply respects_bind; [apply _| |intros _].
    - apply respects_insertTransaction; [apply _|]. intros s0 enc Henc.
      apply keeps_setKey. intros v (tx' & Htx' & Hv). congruence.
    - destruct (transactionResults !! txID) as [result|] eqn:Hres;
        [|apply respects_fail, _].
      apply respects_insertTransactionResult; [apply _|]. intros s0 enc Henc.
      apply keeps_setKey. intros v (result' & Hres' & Hv). congruence. }
  split_and!.
  - exists encBlock. split; [done|]. by rewrite Hblock.
  - intros col Hcol.
    apply (Hgrows_events _ _ _ _ Hevents), (Hgrows_delta _ _ _ _ Hdelta).
    eapply (respects_forEach grows); [apply Hgrows_tx|exact Htxs|].
    revert col Hcol.
    apply (forEach_established grows
             (λ col s0, is_Some (txnDB s0 !! collectionKey (CollectionID col)))
             collections insertCollection sa sb); [| | |done].
    + intros col _. apply respects_insertCollection; [apply _|].
      intros. apply grows_setKey.
    + intros col s0 s1' _ Hbody. unfold insertCollection in Hbody. txn_inv.
      simpl. rewrite lookup_insert_eq. by eexists.
    + intros col s0 s1' _ Hq Hg. by apply Hg.
  - intros txID tx Htx.
    assert ((txID, tx) ∈ map_to_list transactions) as Hin
      by (by apply elem_of_map_to_list).
    pose proof (forEach_established (keeps W)
      (λ x s0,
         (∃ enc, encodeTransaction x.2 = Some enc ∧
                 txnDB s0 !! transactionKey x.1 = Some enc) ∧
         (∃ result enc, transactionResults !! x.1 = Some result ∧
                        encodeTransactionResult result = Some enc ∧
                        txnDB s0 !! transactionResultKey x.1 = Some enc))
      (map_to_list transactions) txBody sb sc Hkeeps_tx) as Hloop.
    destruct (Hloop) with (x := (txID, tx))
      as [(enc & Henc & Hdb) (result & encR & Hres & HencR & HdbR)];
      [| |done|done|].
    + intros [id0 tx0] s0 s1' Hin0%elem_of_map_to_list Hbody.
      unfold txBody in Hbody.
      apply bind_Ok in Hbody as ([] & s2 & Hins & Hbody).
      destruct (transactionResults !! id0) as [result|] eqn:Hres; [|done].
      unfold insertTransaction, insertTransactionResult in *. txn_inv. simpl.
      split.
      * eexists. split; [done|].
        rewrite lookup_insert_ne by done. by rewrite lookup_insert_eq.
      * eexists _, _. split_and!; [done..|]. by rewrite lookup_insert_eq.
    + intros [id0 tx0] s0 s1' Hin0%elem_of_map_to_list
        [(enc & Henc & Hdb) (result & encR & Hres & HencR & HdbR)] Hk.
      simpl in *. split.
      * exists enc. split; [done|]. eapply Hk; [|done]. simpl. eauto.
      * exists result, encR. split_and!; [done..|].
        eapply Hk; [|done]. simpl. eauto.
    + simpl in *. split.
      * exists enc. split; [done|].
        eapply (Hkeeps_events _ _ _ Hevents); [simpl; eauto|].
        eapply (Hkeeps_delta _ _ _ Hdelta); [simpl; eauto|done].
      * exists result, encR. split_and!; [done..|].
        eapply (Hkeeps_events _ _ _ Hevents); [simpl; eauto|].
        eapply (Hkeeps_delta _ _ _ Hdelta); [simpl; eauto|done].
  - intros r v Hv. apply (Hgrows_events _ _ _ _ Hevents).
    unfold insertLedgerDelta in Hdelta.
    match type of Hdelta with forEach _ ?body _ = _ => set (step := body) in * end.
    eapply (forEach_established grows
              (λ x s0, ∀ v0, x.2 = Some v0 →
                 is_Some (txnDB s0 !! ledgerValueKey x.1
                            (Height (BlockHeader block)))))
      with (x := (r, Some v)); [| | |exact Hdelta|done|done].
    + intros x Hx. apply respects_forEach_one, (Hgrows_delta [x]).
    + intros [r0 [v0|]] s0 s1' _ Hbody v1 [= <-]. unfold step in Hbody.
      unfold txnAddChange, txnGetChangelist in Hbody. txn_inv. simplify_eq/=.
      rewrite lookup_insert_ne by done. rewrite lookup_insert_eq. by eexists.
    + intros x s0 s1' _ Hq Hg v0 Hv0. apply Hg. by eapply Hq.
  - intros r [[r0 v0] [-> Hin]]%list_elem_of_fmap.
    apply (Hgrows_events _ _ _ _ Hevents).
    unfold insertLedgerDelta in Hdelta.
    match type of Hdelta with forEach _ ?body _ = _ => set (step := body) in * end.
    eapply (forEach_established grows
              (λ x s0, is_Some (txnDB s0 !! ledgerChangelogKey x.1)))
      with (x := (r0, v0)); [| | |exact Hdelta|done].
    + intros x Hx. apply respects_forEach_one, (Hgrows_delta [x]).
    + intros [r1 v1] s0 s1' _ Hbody. unfold step in Hbody.
      unfold txnAddChange, txnGetChangelist in Hbody.
      destruct v1; txn_inv; simplify_eq/=; rewrite lookup_insert_eq; by eexists.
    + intros x s0 s1' _ Hq Hg. by apply Hg, Hq.
  - intros event Hin. unfold insertEvents in Hevents.
    eapply (forEach_established grows
              (λ x s0, is_Some (txnDB s0 !! eventKey (Height (BlockHeader block))
                                  (TransactionIndex x) (EventIndex x) (EventType x))));
      [| | |exact Hevents|done].
    + intros x Hx. apply respects_forEach_one, (Hgrows_events [x]).
    + intros x s0 s1' _ Hbody. cbv beta in Hbody. txn_inv. simpl.
      rewrite lookup_insert_eq. by eexists.
    + intros x s0 s1' _ Hq Hg. by apply Hg, Hq.
Qed.

End Commit.

(** ** Reading what a commit stored *)

Section Atomicity.
Context {encoding : Encoding} {hashing : Hashing} {faults : Faults}.

Lemma BlockByHeight_lookup s blockHeight block enc :
  db s !! blockKey blockHeight = Some enc → encodeBlock block = Some enc →
  BlockByHeight s blockHeight = Ok block.
Proof.
  intros Hdb Henc. unfold BlockByHeight, ViewTxn, bind, getTx. simpl.
  rewrite Hdb. by rewrite (decode_encode_Block _ _ Henc).
Qed.

Lemma TransactionByID_lookup s txID tx enc :
  db s !! transactionKey txID = Some enc → encodeTransaction tx = Some enc →
  TransactionByID s txID = Ok tx.
Proof.
  intros Hdb Henc. unfold TransactionByID, ViewTxn, bind, getTx. simpl.
  rewrite Hdb. by rewrite (decode_encode_Transaction _ _ Henc).
Qed.

Lemma TransactionResultByID_lookup s txID result enc :
  db s !! transactionResultKey txID = Some enc →
  encodeTransactionResult result = Some enc →
  TransactionResultByID s txID = Ok result.
Proof.
  intros Hdb Henc. unfold TransactionResultByID, ViewTxn, bind, getTx. simpl.
  rewrite Hdb. by rewrite (decode_encode_TransactionResult _ _ Henc).
Qed.

End Atomicity.


(** ** The facade: adding transactions and reading results *)

Section Facade.
Context {encoding : Encoding} {hashing : Hashing} {faults : Faults}
  {sentinel : Sentinel} {externals : Externals}.

(** C6. A transaction whose id is in the pending block, or is stored by a
    committed block, is refused as a duplicate when it is submitted before
    the pending block has started executing, and the blockchain is left as
    it was. *)
Theorem addTransaction_duplicate (b : Blockchain) (tx : TransactionBody) :
  ExecutionStarted (pendingBlockOf b) = false →
  ContainsTransaction (pendingBlockOf b) (TxID tx) = true ∨
  (∃ stored, TransactionByID (storage b) (TxID tx) = Ok stored) →
  addTransaction tx b = (Err (DuplicateTransactionError (TxID tx)), b).
Proof.
  intros Hstarted Hdup. unfold addTransaction. rewrite Hstarted.
  destruct (ContainsTransaction (pendingBlockOf b) (TxID tx)) eqn:Hpending;
    [done|].
  destruct Hdup as [|[stored Hstored]]; [done|]. by rewrite Hstored.
Qed.

(** A transaction of a committed block is stored under its id. *)
Lemma committed_transaction_stored (s : Store) (block : Block)
    (collections : list LightCollection)
    (transactions : gmap N TransactionBody)
    (transactionResults : gmap N StorableTransactionResult)
    (delta : list (RegisterID * option string)) (events : list Event)
    (s' : Store) (tx : TransactionBody) :
  CommitBlock s block collections transactions transactionResults delta
    events = (Ok tt, s') →
  transactions !! TxID tx = Some tx →
  TransactionByID s' (TxID tx) = Ok tx.
Proof.
  intros Hcommit Htx.
  destruct (CommitBlock_applied _ _ _ _ _ _ _ _ _ Hcommit)
    as (_ & st' & Htxn & Hdb & _); [by left|].
  destruct (commitBlockTxn_written _ _ _ _ _ _ _ _ Htxn)
    as (_ & _ & Htxs & _).
  destruct (Htxs _ _ Htx) as [(enc & Henc & Hstored) _].
  rewrite <- Hdb in Hstored. by eapply TransactionByID_lookup.
Qed.

(** C8. [GetTransactionResult] answers Pending for an id of the pending
    block; Unknown for an id that is neither in the pending block nor stored
    with a result; and Sealed for an id whose result is stored, with the
    stored events (converted) and with an error exactly when the stored
    error code is not zero, the error carrying the stored code and
    message. *)
Theorem GetTransactionResult_status (b : Blockchain) (txID : N) :
  (ContainsTransaction (pendingBlockOf b) txID = true →
   GetTransactionResult b txID =
     Ok (mkSDKTransactionResult TransactionStatusPending None [])) ∧
  (ContainsTransaction (pendingBlockOf b) txID = false →
   db (storage b) !! transactionResultKey txID = None →
   GetTransactionResult b txID =
     Ok (mkSDKTransactionResult TransactionStatusUnknown None [])) ∧
  (∀ storedResult events,
     ContainsTransaction (pendingBlockOf b) txID = false →
     TransactionResultByID (storage b) txID = Ok storedResult →
     FlowEventsToSDK (Events storedResult) = Some events →
     ∃ result,
       GetTransactionResult b txID = Ok result ∧
       Status result = TransactionStatusSealed ∧
       sdkEvents result = events ∧
       (Error result = None ↔ ErrorCode storedResult = 0) ∧
       (∀ e, Error result = Some e →
          Code e = ErrorCode storedResult ∧
          Message e = ErrorMessage storedResult)).
Proof.
  unfold GetTransactionResult. split_and!.
  - by intros ->.
  - intros -> Hnone.
    unfold TransactionResultByID, ViewTxn, bind, getTx. simpl.
    by rewrite Hnone.
  - intros storedResult events -> -> ->. eexists. split; [done|]. simpl.
    split_and!; [done..| |].
    + by case_decide.
    + intros e. case_decide; [|done]. by intros [= <-].
Qed.

End Facade.

(** ** The facade: executing and committing the pending block *)

Section Pending.
Context {encoding : Encoding} {hashing : Hashing} {faults : Faults}
  {sentinel : Sentinel} {externals : Externals}.

(** Executing a transaction works on the pending block alone: the header
    and the transactions stay, and the index moves on by one when a result
    is returned. *)
Lemma executeNextTransaction_frame (b : Blockchain) r b' :
  executeNextTransaction b = (r, b') →
  storage b' = storage b ∧ serviceKey b' = serviceKey b ∧
  pbHeader (pendingBlockOf b') = pbHeader (pendingBlockOf b) ∧
  pbTransactions (pendingBlockOf b') = pbTransactions (pendingBlockOf b) ∧
  pbIndex (pendingBlockOf b) ≤ pbIndex (pendingBlockOf b') ∧
  (∀ result, r = Ok result →
     pbIndex (pendingBlockOf b') = pbIndex (pendingBlockOf b) + 1).
Proof.
  unfold executeNextTransaction, pbExecuteNextTransaction. intros Hrun.
  destruct (ExecutionComplete _); [simplify_eq; split_and!; (done || lia)|].
  destruct (pbTransactions _ !! _) as [[txID tx]|];
    [|simplify_eq; split_and!; (done || lia)].
  destruct (vmRunTransaction _ _ _ _) as [tp|];
    [|simplify_eq; split_and!; (done || lia)].
  destruct (VMTransactionResultToEmulator _) as [tr|];
    [destruct (trError tr)|]; simplify_eq; simpl;
    split_and!; (done || lia || (intros; lia)).
Qed.

Lemma executeLoop_frame (fuel : nat) results (b : Blockchain) r b' :
  executeLoop fuel results b = (r, b') →
  storage b' = storage b ∧ serviceKey b' = serviceKey b ∧
  pbHeader (pendingBlockOf b') = pbHeader (pendingBlockOf b) ∧
  pbTransactions (pendingBlockOf b') = pbTransactions (pendingBlockOf b) ∧
  pbIndex (pendingBlockOf b) ≤ pbIndex (pendingBlockOf b').
Proof.
  revert results b. induction fuel as [|fuel IH]; intros results b Hrun;
    simpl in Hrun; [by simplify_eq|].
  destruct (ExecutionComplete _); [by simplify_eq|].
  destruct (executeNextTransaction b) as [[result|e] b1] eqn:Hnext;
    apply executeNextTransaction_frame in Hnext
      as (Hs & Hk & Hh & Ht & Hi & _).
  - apply IH in Hrun as (Hs' & Hk' & Hh' & Ht' & Hi').
    split_and!; (congruence || lia).
  - by simplify_eq.
Qed.

Lemma executeBlock_frame (b : Blockchain) r b' :
  executeBlock b = (r, b') →
  storage b' = storage b ∧ serviceKey b' = serviceKey b ∧
  pbHeader (pendingBlockOf b') = pbHeader (pendingBlockOf b) ∧
  pbTransactions (pendingBlockOf b') = pbTransactions (pendingBlockOf b) ∧
  pbIndex (pendingBlockOf b) ≤ pbIndex (pendingBlockOf b').
Proof.
  unfold executeBlock. intros Hrun.
  destruct (Empty _); [by simplify_eq|].
  destruct (ExecutionComplete _); [by simplify_eq|].
  by eapply executeLoop_frame.
Qed.

(** An empty pending block has nothing left to execute. *)
Lemma Empty_ExecutionComplete (pb : pendingBlock) :
  Empty pb = true → ExecutionComplete pb = true.
Proof.
  unfold Empty, ExecutionComplete.
  intros Hempty%bool_decide_eq_true. apply bool_decide_eq_true. lia.
Qed.

(** A failed commit leaves the pending block in place. *)
Lemma commitBlock_refused now (b : Blockchain) e b' :
  commitBlock now b = (Err e, b') → pendingBlockOf b' = pendingBlockOf b.
Proof.
  unfold commitBlock. intros Hrun.
  destruct (negb _ && negb _); [by simplify_eq|].
  destruct (_ && negb _); [by simplify_eq|].
  destruct (convertToSealedResults _); [|by simplify_eq].
  destruct (CommitBlock _ _ _ _ _ _ _) as [[[]|e0] s']; by simplify_eq.
Qed.

(** What a successful commit did: the store committed the pending block,
    and the new pending block is empty and follows the committed one. *)
Lemma commitBlock_Ok now (b : Blockchain) block b' :
  commitBlock now b = (Ok block, b') →
  block = pbBlock (pendingBlockOf b) ∧
  serviceKey b' = serviceKey b ∧
  pendingBlockOf b' =
    newPendingBlock block (mkLedgerView (Height (BlockHeader block)) ∅) now ∧
  ∃ transactionResults,
    convertToSealedResults (pbTransactionResultsMap (pendingBlockOf b)) =
      Some transactionResults ∧
    CommitBlock (storage b) block (Collections (pendingBlockOf b))
      (pbTransactionsMap (pendingBlockOf b)) transactionResults
      (LedgerDelta (pendingBlockOf b)) (pbEvents (pendingBlockOf b)) =
      (Ok tt, storage b').
Proof.
  unfold commitBlock. intros Hrun.
  destruct (negb _ && negb _); [by simplify_eq|].
  destruct (_ && negb _); [by simplify_eq|].
  destruct (convertToSealedResults _) as [trs|]; [|by simplify_eq].
  destruct (CommitBlock _ _ _ _ _ _ _) as [[[]|e0] s'] eqn:Hstore;
    simplify_eq. split_and!; [done..|]. by exists trs.
Qed.

(** A block the store committed is read back under its height. *)
Lemma committed_block_stored (s : Store) (block : Block)
    (collections : list LightCollection)
    (transactions : gmap N TransactionBody)
    (transactionResults : gmap N StorableTransactionResult)
    (delta : list (RegisterID * option string)) (events : list Event)
    (s' : Store) :
  CommitBlock s block collections transactions transactionResults delta
    events = (Ok tt, s') →
  BlockByHeight s' (Height (BlockHeader block)) = Ok block.
Proof.
  intros Hcommit.
  destruct (CommitBlock_applied _ _ _ _ _ _ _ _ _ Hcommit)
    as (_ & st' & Htxn & Hdb & _); [by left|].
  destruct (commitBlockTxn_written _ _ _ _ _ _ _ _ Htxn)
    as ((enc & Henc & Hstored) & _).
  rewrite <- Hdb in Hstored. by eapply BlockByHeight_lookup.
Qed.


(** The mid-execution lock is kept by every call that leaves the pending
    block in place. *)
Lemma keepsPendingBlock_started (b b' : Blockchain) :
  keepsPendingBlock b b' →
  0 < pbIndex (pendingBlockOf b) →
  0 < pbIndex (pendingBlockOf b') ∧
  pbTransactions (pendingBlockOf b') = pbTransactions (pendingBlockOf b).
Proof.
  intros Hstep Hstarted.
  assert (ExecutionStarted (pendingBlockOf b) = true) as Hlock
    by (by apply bool_decide_eq_true).
  destruct Hstep as [tx b r b' Hrun|b r b' Hrun|b r b' Hrun|now b e b' Hrun
                    |b r b' Hrun].
  - unfold AddTransaction, addTransaction in Hrun. rewrite Hlock in Hrun.
    by simplify_eq.
  - apply executeNextTransaction_frame in Hrun as (_ & _ & _ & Ht & Hi & _).
    split; [lia|done].
  - apply executeBlock_frame in Hrun as (_ & _ & _ & Ht & Hi).
    split; [lia|done].
  - apply commitBlock_refused in Hrun. by rewrite Hrun.
  - unfold getServiceKey in Hrun.
    destruct (getAccount _ _) as [[account|]|]; [|by simplify_eq..].
    destruct (Keys account); by simplify_eq.
Qed.

(** C7. After a successful [ExecuteNextTransaction], and whatever calls
    follow that leave the pending block in place (no reset, no successful
    commit), [AddTransaction] is refused with the mid-execution error: the
    blockchain is left as it was, and the pending block holds the
    transactions it held when the transaction was executed. *)
Theorem AddTransaction_after_execution (b0 b1 b : Blockchain)
    (result : TransactionResult) (tx : TransactionBody) :
  ExecuteNextTransaction b0 = (Ok result, b1) →
  rtc keepsPendingBlock b1 b →
  AddTransaction tx b =
    (Err (PendingBlockMidExecutionError (pbID (pendingBlockOf b))), b) ∧
  pbTransactions (pendingBlockOf b) = pbTransactions (pendingBlockOf b0).
Proof.
  intros Hexec Hsteps.
  apply executeNextTransaction_frame in Hexec as (_ & _ & _ & Ht & _ & Hi).
  specialize (Hi result eq_refl).
  assert (0 < pbIndex (pendingBlockOf b1)) as Hstarted by lia.
  clear Hi. rewrite <- Ht. clear Ht b0.
  induction Hsteps as [b|b1 b2 b Hstep Hsteps IH].
  - split; [|done]. unfold AddTransaction, addTransaction, ExecutionStarted.
    by rewrite (bool_decide_eq_true_2 _ Hstarted).
  - destruct (keepsPendingBlock_started _ _ Hstep Hstarted) as [Hstarted2 Ht].
    rewrite <- Ht. by apply IH.
Qed.

End Pending.

(** ** What a commit leaves alone, and the latest block *)

Section Latest.
Context {encoding : Encoding} {hashing : Hashing} {faults : Faults}.

Lemma commitBlockTxn_frame block collections transactions transactionResults
    delta events :
  respects
    (agreeOnDB (λ k, ¬ committedKey block collections transactions
                       transactionResults delta events k))
    (commitBlockTxn block collections transactions transactionResults delta
       events).
Proof.
  apply respects_commitBlockTxn; [apply _|..].
  - apply respects_store; [apply _|..]; intros;
      apply agreeOnDB_setKey; intros Hk; by apply Hk.
  - intros col Hcol. apply respects_insertCollection; [apply _|]. intros.
    apply agreeOnDB_setKey. intros Hk. apply Hk. simpl. eauto.
  - intros txID tx Htx. apply respects_insertTransaction; [apply _|]. intros.
    apply agreeOnDB_setKey. intros Hk. apply Hk. simpl. eauto.
  - intros txID result Hres.
    apply respects_insertTransactionResult; [apply _|]. intros.
    apply agreeOnDB_setKey. intros Hk. apply Hk. simpl. eauto.
  - apply respects_insertLedgerDelta; [apply _|..]; intros.
    + apply agreeOnDB_setKey. intros Hk. apply Hk. simpl. eauto.
    + by intros k Hk.
    + apply agreeOnDB_setKey. intros Hk. by apply Hk.
  - apply respects_insertEvents; [apply _|]. intros.
    apply agreeOnDB_setKey. intros Hk. apply Hk. simpl. eauto 10.
Qed.

(** [CommitBlock] changes no entry outside the keys of the block it
    commits, whether it succeeds or fails. *)
Lemma CommitBlock_frame s block collections transactions transactionResults
    delta events r s' k :
  CommitBlock s block collections transactions transactionResults delta
    events = (r, s') →
  ¬ committedKey block collections transactions transactionResults delta
      events k →
  db s' !! k = db s !! k.
Proof.
  unfold CommitBlock, Update, newCommit. intros Hrun Hk.
  case_decide; [by simplify_eq|].
  destruct (commitBlockTxn _ _ _ _ _ _ _) as [[[]|e0] st'] eqn:Htxn;
    simpl in *; [|by simplify_eq].
  apply commitBlockTxn_frame in Htxn. specialize (Htxn k Hk). simpl in Htxn.
  destruct (checkpointFails (txnDB st')); by simplify_eq.
Qed.

(** The height [getLatestBlockHeightTx] reads is the decoded pointer. *)
Lemma latestHeight_lookup (s : Store) (l : N) :
  ViewTxn s getLatestBlockHeightTx = Ok l ↔
  ∃ enc, db s !! latestBlockKey = Some enc ∧ decodeUint64 enc = Some l.
Proof.
  unfold ViewTxn, getLatestBlockHeightTx, bind, getTx. simpl.
  destruct (db s !! latestBlockKey) as [enc|]; simpl.
  - unfold decoded. split.
    + destruct (decodeUint64 enc) as [n|] eqn:Hdec; simpl; [|done].
      intros [= ->]. eauto.
    + by intros (? & [= <-] & ->).
  - split; [done|]. by intros (? & ? & ?).
Qed.

(** A committed block that is not below the latest one becomes the latest
    block. *)
Lemma CommitBlock_latest s block collections transactions transactionResults
    delta events s' l :
  CommitBlock s block collections transactions transactionResults delta
    events = (Ok tt, s') →
  ViewTxn s getLatestBlockHeightTx = Ok l →
  l ≤ Height (BlockHeader block) →
  ViewTxn s' getLatestBlockHeightTx = Ok (Height (BlockHeader block)) ∧
  LatestBlock s' = Ok block.
Proof.
  intros Hcommit (encL & HdbL & HdecL)%latestHeight_lookup Hle.
  destruct (CommitBlock_applied _ _ _ _ _ _ _ _ _ Hcommit)
    as (_ & st' & Htxn & Hdb & _); [by left|].
  destruct (commitBlockTxn_block _ _ _ _ _ _ _ _ Htxn)
    as (st1 & Hstore & Hfamily).
  destruct (store_Ok _ _ _ Hstore)
    as (encBlock & encHeight & latest & HencB & HencH & Hlatest & HdbB & _ & Hptr).
  unfold latestHeightOf in Hlatest. simpl in Hlatest.
  rewrite HdbL, HdecL in Hlatest. simplify_eq.
  rewrite decide_True in Hptr by done.
  rewrite <- Hfamily in HdbB, Hptr by done. rewrite <- Hdb in HdbB, Hptr.
  assert (ViewTxn s' getLatestBlockHeightTx = Ok (Height (BlockHeader block)))
    as Hheight.
  { apply latestHeight_lookup. exists encHeight. split; [done|].
    by apply decode_encode_Uint64. }
  split; [done|].
  unfold LatestBlock, ViewTxn, getLatestBlockHeightTx, bind, getTx, decoded.
  simpl. rewrite Hptr. rewrite (decode_encode_Uint64 _ _ HencH). simpl.
  rewrite HdbB. by rewrite (decode_encode_Block _ _ HencB).
Qed.

(** The latest height after a commit is the greater of the latest height
    before it and the height of the block. *)
Lemma CommitBlock_latest_max s block collections transactions
    transactionResults delta events s' l :
  CommitBlock s block collections transactions transactionResults delta
    events = (Ok tt, s') →
  ViewTxn s getLatestBlockHeightTx = Ok l →
  ViewTxn s' getLatestBlockHeightTx =
    Ok (N.max l (Height (BlockHeader block))).
Proof.
  intros Hcommit (encL & HdbL & HdecL)%latestHeight_lookup.
  destruct (CommitBlock_applied _ _ _ _ _ _ _ _ _ Hcommit)
    as (_ & st' & Htxn & Hdb & _); [by left|].
  destruct (commitBlockTxn_block _ _ _ _ _ _ _ _ Htxn)
    as (st1 & Hstore & Hfamily).
  destruct (store_Ok _ _ _ Hstore)
    as (encBlock & encHeight & latest & _ & HencH & Hl & _ & _ & Hptr).
  unfold latestHeightOf in Hl. simpl in Hl, Hptr.
  rewrite HdbL, HdecL in Hl. simplify_eq.
  rewrite <- Hfamily in Hptr by done. rewrite <- Hdb in Hptr.
  apply latestHeight_lookup. case_decide.
  - exists encHeight. split; [done|].
    rewrite (decode_encode_Uint64 _ _ HencH). f_equal. lia.
  - exists encL. rewrite Hptr, HdbL. split; [done|]. rewrite HdecL.
    f_equal. lia.
Qed.

(** A store that has a latest block has a latest height. *)
Lemma LatestBlock_height (s : Store) (block : Block) :
  LatestBlock s = Ok block → ∃ l, ViewTxn s getLatestBlockHeightTx = Ok l.
Proof.
  unfold LatestBlock, ViewTxn, bind.
  destruct (getLatestBlockHeightTx _) as [[l|e] st]; simpl; [eauto|done].
Qed.

End Latest.

(** ** Block commit applies all its writes together *)

(** ** Block commit is atomic in the database *)

Section AtomicCommit.
Context {encoding : Encoding} {hashing : Hashing} {faults : Faults}.
Implicit Types st : TxnState.

(** A loop that encodes each element and writes it under its key: in the
    end a key is untouched, and no element has it, or it holds the
    encoding of an element that has it. *)
Lemma forEach_set_Ok {A} (xs : list A) (key : A → Key) (enc : A → option string)
    st st' :
  forEach xs (λ x, b <- encoded (enc x) ;; txnSet (key x) b) st = (Ok tt, st') →
  txnChangeLog st' = txnChangeLog st ∧
  ∀ k, (txnDB st' !! k = txnDB st !! k ∧ ∀ x, x ∈ xs → key x ≠ k) ∨
       (∃ x b, x ∈ xs ∧ key x = k ∧ enc x = Some b ∧ txnDB st' !! k = Some b).
Proof.
  revert st. induction xs as [|x xs IH]; intros st Hrun.
  - apply forEach_nil_Ok in Hrun as ->. split; [done|]. intros k. left.
    split; [done|]. by intros x ?%elem_of_nil.
  - apply forEach_cons_Ok in Hrun as (st1 & Hstep & Hrest). txn_inv.
    destruct (IH _ Hrest) as [Hlog Hdb]. split; [done|]. intros k.
    destruct (Hdb k) as [[Hsame Hnone]|(x' & b' & Hin & Hkey & Henc & Hk)].
    + simpl in Hsame. destruct (decide (key x = k)) as [<-|Hne].
      * right. exists x, x0. rewrite Hsame, lookup_insert_eq.
        split_and!; [apply list_elem_of_here|done..].
      * left. rewrite Hsame, lookup_insert_ne by done. split; [done|].
        intros y [->|Hy]%elem_of_cons; [done|by apply Hnone].
    + right. exists x', b'. split_and!; [by apply list_elem_of_further|done..].
Qed.

(** One round of [insertLedgerDelta]. *)
Lemma insertLedgerDelta_round blockHeight (r0 : RegisterID)
    (v0 : option string) (rest : list (RegisterID * option string)) st st' :
  insertLedgerDelta blockHeight ((r0, v0) :: rest) st = (Ok tt, st') →
  ∃ st1 enc,
    insertLedgerDelta blockHeight rest st1 = (Ok tt, st') ∧
    txnChangeLog st1 = addChange (txnChangeLog st) r0 blockHeight ∧
    encodeChangelist (getChangelist (txnChangeLog st) r0 ++ [blockHeight]) =
      Some enc ∧
    txnDB st1 =
      <[ledgerChangelogKey r0 := enc]>
        (match v0 with
         | Some v => <[ledgerValueKey r0 blockHeight := v]> (txnDB st)
         | None => txnDB st
         end).
Proof.
  unfold insertLedgerDelta. intros (st1 & Hstep & Hrest)%forEach_cons_Ok.
  exists st1.
  assert (getChangelist (addChange (txnChangeLog st) r0 blockHeight) r0 =
          getChangelist (txnChangeLog st) r0 ++ [blockHeight]) as Hadded.
  { unfold addChange, getChangelist at 1. by rewrite lookup_insert_eq. }
  destruct v0 as [v|]; txn_inv; unfold txnAddChange, txnGetChangelist in *;
    simplify_eq/=; rewrite Hadded in *; eauto.
Qed.

(** A delta leaves the registers it does not name alone. *)
Lemma insertLedgerDelta_other blockHeight
    (delta : list (RegisterID * option string)) (r : RegisterID) st st' :
  insertLedgerDelta blockHeight delta st = (Ok tt, st') →
  r ∉ delta.*1 →
  getChangelist (txnChangeLog st') r = getChangelist (txnChangeLog st) r ∧
  txnDB st' !! ledgerChangelogKey r = txnDB st !! ledgerChangelogKey r ∧
  ∀ c, txnDB st' !! ledgerValueKey r c = txnDB st !! ledgerValueKey r c.
Proof.
  revert st. induction delta as [|[r0 v0] delta IH]; intros st Hrun Hr.
  - unfold insertLedgerDelta in Hrun. by apply forEach_nil_Ok in Hrun as ->.
  - apply insertLedgerDelta_round in Hrun
      as (st1 & enc & Hrest & Hlog & _ & Hdb).
    rewrite fmap_cons, not_elem_of_cons in Hr. destruct Hr as [Hne Hr].
    simpl in Hne.
    destruct (IH _ Hrest Hr) as (Hcl & Hclog & Hval).
    rewrite Hcl, Hclog, Hlog, Hdb. split_and!.
    + unfold addChange, getChangelist. by rewrite lookup_insert_ne.
    + rewrite lookup_insert_ne by congruence.
      destruct v0; [|done]. by rewrite lookup_insert_ne.
    + intros c. rewrite Hval, Hdb. rewrite lookup_insert_ne by done.
      destruct v0; [|done]. rewrite lookup_insert_ne; [done|]. congruence.
Qed.

Lemma insertLedgerDelta_value_other blockHeight
    (delta : list (RegisterID * option string)) (r : RegisterID) (c : N)
    st st' :
  insertLedgerDelta blockHeight delta st = (Ok tt, st') →
  (∀ v, (r, Some v) ∉ delta) →
  txnDB st' !! ledgerValueKey r c = txnDB st !! ledgerValueKey r c.
Proof.
  intros Hrun Hnone.
  assert (respects (agreeOnDB (λ k, k = ledgerValueKey r c))
            (insertLedgerDelta blockHeight delta)) as Hframe.
  { apply respects_insertLedgerDelta; [apply _|..].
    - intros s0 r' v Hin. apply agreeOnDB_setKey. intros [= -> _].
      by apply (Hnone v).
    - by intros s0 r' _ k Hk.
    - intros. by apply agreeOnDB_setKey. }
  by apply (Hframe _ _ _ Hrun).
Qed.

(** What a delta has written in the end: under the value key of a
    register, a value the delta holds for it; under its changelist key,
    its changelist in memory, which ends with the height. *)
Lemma insertLedgerDelta_applied blockHeight
    (delta : list (RegisterID * option string)) st st' :
  insertLedgerDelta blockHeight delta st = (Ok tt, st') →
  (∀ r v, (r, Some v) ∈ delta →
     ∃ v', (r, Some v') ∈ delta ∧
           txnDB st' !! ledgerValueKey r blockHeight = Some v') ∧
  (∀ r, r ∈ delta.*1 →
     ∃ enc clist,
       txnDB st' !! ledgerChangelogKey r = Some enc ∧
       encodeChangelist (clist ++ [blockHeight]) = Some enc ∧
       getChangelist (txnChangeLog st') r = clist ++ [blockHeight]).
Proof.
  revert st. induction delta as [|[r0 v0] delta IH]; intros st Hrun.
  - split; [by intros r v ?%elem_of_nil|]. by intros r ?%elem_of_nil.
  - apply insertLedgerDelta_round in Hrun
      as (st1 & enc & Hrest & Hlog & Henc & Hdb).
    destruct (IH _ Hrest) as [Hvalues Hlists]. split.
    + intros r v Hin.
      destruct (decide (Exists (λ x, x.1 = r ∧ is_Some x.2) delta))
        as [Hlater|Hnone].
      * apply Exists_exists in Hlater as ([r' [v'|]] & Hv' & Hr' & Hsome);
          simpl in *; [subst r'|by destruct Hsome].
        destruct (Hvalues _ _ Hv') as (v'' & Hin'' & Hdb'').
        exists v''. split; [by apply list_elem_of_further|done].
      * assert (∀ v', (r, Some v') ∉ delta) as Hnone'.
        { intros v' Hv'. apply Hnone, Exists_exists.
          exists (r, Some v'). split; [done|]. split; [done|]. by eexists. }
        apply elem_of_cons in Hin as [[= -> <-]|Hin]; [|by destruct (Hnone' v)].
        exists v. split; [apply list_elem_of_here|].
        rewrite (insertLedgerDelta_value_other _ _ _ _ _ _ Hrest Hnone'), Hdb.
        rewrite lookup_insert_ne by done. by rewrite lookup_insert_eq.
    + intros r Hr. destruct (decide (r ∈ delta.*1)) as [Hin|Hnin].
      * by apply Hlists.
      * rewrite fmap_cons in Hr. simpl in Hr.
        apply elem_of_cons in Hr as [->|Hr]; [|done].
        destruct (insertLedgerDelta_other _ _ _ _ _ Hrest Hnin)
          as (Hcl & Hclog & _).
        exists enc, (getChangelist (txnChangeLog st) r0).
        rewrite Hclog, Hcl, Hdb, Hlog, lookup_insert_eq.
        split_and!; [done..|].
        unfold addChange, getChangelist at 1. by rewrite lookup_insert_eq.
Qed.

(** What a successful transaction of [CommitBlock] has written, besides
    the block, the transactions and their results. *)
Lemma commitBlockTxn_applied block collections transactions transactionResults
    delta events st st' :
  commitBlockTxn block collections transactions transactionResults delta
    events st = (Ok tt, st') →
  (∀ col, col ∈ collections →
     ∃ col' enc,
       col' ∈ collections ∧ CollectionID col' = CollectionID col ∧
       encodeCollection col' = Some enc ∧
       txnDB st' !! collectionKey (CollectionID col) = Some enc) ∧
  (∀ r v, (r, Some v) ∈ delta →
     ∃ v', (r, Some v') ∈ delta ∧
           txnDB st' !! ledgerValueKey r (Height (BlockHeader block)) =
             Some v') ∧
  (∀ r, r ∈ delta.*1 →
     ∃ enc clist,
       txnDB st' !! ledgerChangelogKey r = Some enc ∧
       encodeChangelist (clist ++ [Height (BlockHeader block)]) = Some enc ∧
       getChangelist (txnChangeLog st') r =
         clist ++ [Height (BlockHeader block)]) ∧
  (∀ event, event ∈ events →
     ∃ event' enc,
       event' ∈ events ∧
       TransactionIndex event' = TransactionIndex event ∧
       EventIndex event' = EventIndex event ∧
       EventType event' = EventType event ∧
       encodeEvent event' = Some enc ∧
       txnDB st' !! eventKey (Height (BlockHeader block))
                      (TransactionIndex event) (EventIndex event)
                      (EventType event) = Some enc).
Proof.
  intros Hrun.
  destruct (commitBlockTxn_ledger _ _ _ _ _ _ _ _ Hrun)
    as (st1 & st2 & _ & _ & Hdelta & Hlog & Hledger).
  destruct (insertLedgerDelta_applied _ _ _ _ Hdelta) as [Hvalues Hlists].
  unfold commitBlockTxn in Hrun.
  apply bind_Ok in Hrun as ([] & sa & Hstore & Hrun).
  apply bind_Ok in Hrun as ([] & sb & Hcols & Hrun).
  split_and!.
  - intros col Hcol.
    apply (forEach_set_Ok collections (λ col, collectionKey (CollectionID col))
             encodeCollection) in Hcols as [_ Hcols].
    destruct (Hcols (collectionKey (CollectionID col)))
      as [[_ Hnone]|(col' & enc & Hin & Hkey & Henc & Hdb)];
      [by destruct (Hnone col Hcol)|].
    exists col', enc. split_and!; [done|congruence|done|].
    rewrite <- Hdb.
    assert (agreeOnDB (λ k, ∃ id, k = collectionKey id) sb st') as Hagree;
      [|apply Hagree; eauto].
    assert (∀ (m : Txn unit),
              respects (agreeOn (λ k, ∃ id, k = collectionKey id)) m →
              respects (agreeOnDB (λ k, ∃ id, k = collectionKey id)) m)
      as Hweak.
    { intros m Hm s0 r s1 Hm0. by destruct (Hm _ _ _ Hm0). }
    eapply (respects_bind (agreeOnDB (λ k, ∃ id, k = collectionKey id)));
      [| |exact Hrun].
    { apply Hweak, respects_forEach; [apply _|]. intros [txID tx] _.
      apply respects_bind; [apply _| |intros _].
      - apply insertTransaction_agreeOn. by intros i [id ?].
      - destruct (transactionResults !! txID);
          [|apply respects_fail, _].
        apply insertTransactionResult_agreeOn. by intros i [id ?]. }
    intros []. apply respects_bind; [apply _| |intros _].
    { apply insertLedgerDelta_agreeOnDB. intros [] Hl [id ?]; done. }
    apply Hweak, insertEvents_agreeOn. by intros h t e ty [id ?].
  - intros r v Hv. destruct (Hvalues _ _ Hv) as (v' & Hv' & Hdb).
    exists v'. split; [done|]. by rewrite Hledger.
  - intros r Hr. destruct (Hlists _ Hr) as (enc & clist & Hdb & Henc & Hcl).
    exists enc, clist. rewrite Hledger, Hlog by done. done.
  - intros event Hevent.
    apply bind_Ok in Hrun as ([] & sc & _ & Hrun).
    apply bind_Ok in Hrun as ([] & sd & _ & Hevents).
    apply (forEach_set_Ok events
             (λ event, eventKey (Height (BlockHeader block))
                         (TransactionIndex event) (EventIndex event)
                         (EventType event))
             encodeEvent) in Hevents as [_ Hevents].
    destruct (Hevents (eventKey (Height (BlockHeader block))
                         (TransactionIndex event) (EventIndex event)
                         (EventType event)))
      as [[_ Hnone]|(event' & enc & Hin & Hkey & Henc & Hdb)];
      [by destruct (Hnone event Hevent)|].
    exists event', enc. by simplify_eq.
Qed.

Lemma CollectionByID_lookup s colID col enc :
  db s !! collectionKey colID = Some enc → encodeCollection col = Some enc →
  CollectionByID s colID = Ok col.
Proof.
  intros Hdb Henc. unfold CollectionByID, ViewTxn, bind, getTx. simpl.
  rewrite Hdb. by rewrite (decode_encode_Collection _ _ Henc).
Qed.

(** A block the store committed is read back under its id. *)
Lemma CommitBlock_block_by_id s block collections transactions
    transactionResults delta events r s' :
  CommitBlock s block collections transactions transactionResults delta
    events = (r, s') →
  r = Ok tt ∨ r = Err ErrGit →
  BlockByID s' (BlockID block) = Ok block.
Proof.
  intros Hrun Hr.
  destruct (CommitBlock_applied _ _ _ _ _ _ _ _ _ Hrun Hr)
    as (_ & st' & Htxn & Hdbs & _).
  destruct (commitBlockTxn_block _ _ _ _ _ _ _ _ Htxn)
    as (st1 & Hstore & Hfamily).
  destruct (store_Ok _ _ _ Hstore)
    as (encBlock & encHeight & latest & HencB & HencH & _ & HdbB & HdbI & _).
  rewrite <- Hfamily in HdbB, HdbI by done. rewrite <- Hdbs in HdbB, HdbI.
  unfold BlockByID, ViewTxn, bind, getTx, decoded. simpl.
  rewrite HdbI, (decode_encode_Uint64 _ _ HencH). simpl.
  by rewrite HdbB, (decode_encode_Block _ _ HencB).
Qed.

(** C4, as amended. [CommitBlock] is all-or-nothing in the database.  When
    it returns an error raised by the count check or inside the backend
    transaction, no block, collection, transaction, result, event,
    ledger-value or persisted changelist entry is changed, nor is the
    snapshot repository.  When the transaction succeeds, all of those
    writes are applied together, and that holds as well when the checkpoint
    after the transaction fails and [CommitBlock] returns its error: the
    block is read back under its height and under its id, every
    transaction and every result under its id, and under the id of every
    collection a collection of the block that has this id; the value entry
    of a register the delta gives a value holds a value the delta gives
    it; the persisted changelist of every register of the delta is its
    changelist in memory, which ends with the height of the block; the
    entry of every event decodes to an event of the block with the same
    indices and type; and no entry outside the keys of the block is
    changed.  When no two collections share an id, the delta names no
    register twice and no two events share their indices and type, what is
    read back is the collection, the value and the event themselves, and
    the changelist of every register of the delta is the one before the
    commit followed by the height of the block. *)
Theorem CommitBlock_database_atomic (s : Store) (block : Block)
    (collections : list LightCollection)
    (transactions : gmap N TransactionBody)
    (transactionResults : gmap N StorableTransactionResult)
    (delta : list (RegisterID * option string)) (events : list Event)
    (r : Result StoreError unit) (s' : Store) :
  CommitBlock s block collections transactions transactionResults delta
    events = (r, s') →
  (∀ e, r = Err e → e ≠ ErrGit →
     db s' = db s ∧ dbGitRepository s' = dbGitRepository s) ∧
  (r = Ok tt ∨ r = Err ErrGit →
     BlockByHeight s' (Height (BlockHeader block)) = Ok block ∧
     BlockByID s' (BlockID block) = Ok block ∧
     (∀ col, col ∈ collections →
        ∃ col', col' ∈ collections ∧
                CollectionID col' = CollectionID col ∧
                CollectionByID s' (CollectionID col) = Ok col') ∧
     (∀ txID tx, transactions !! txID = Some tx →
        TransactionByID s' txID = Ok tx) ∧
     (∀ txID result, transactionResults !! txID = Some result →
        TransactionResultByID s' txID = Ok result) ∧
     (∀ r0 v, (r0, Some v) ∈ delta →
        ∃ v', (r0, Some v') ∈ delta ∧
              db s' !! ledgerValueKey r0 (Height (BlockHeader block)) =
                Some v') ∧
     (∀ r0, r0 ∈ delta.*1 →
        ∃ enc clist,
          db s' !! ledgerChangelogKey r0 = Some enc ∧
          decodeChangelist enc = Some (clist ++ [Height (BlockHeader block)]) ∧
          getChangelist (ledgerChangeLog s') r0 =
            clist ++ [Height (BlockHeader block)]) ∧
     (∀ event, event ∈ events →
        ∃ event' enc,
          event' ∈ events ∧
          TransactionIndex event' = TransactionIndex event ∧
          EventIndex event' = EventIndex event ∧
          EventType event' = EventType event ∧
          db s' !! eventKey (Height (BlockHeader block))
                     (TransactionIndex event) (EventIndex event)
                     (EventType event) = Some enc ∧
          decodeEvent enc = Some event') ∧
     ((∀ col1 col2, col1 ∈ collections → col2 ∈ collections →
         CollectionID col1 = CollectionID col2 → col1 = col2) →
      ∀ col, col ∈ collections →
        CollectionByID s' (CollectionID col) = Ok col) ∧
     (NoDup delta.*1 →
      (∀ r0 v, (r0, Some v) ∈ delta →
         db s' !! ledgerValueKey r0 (Height (BlockHeader block)) = Some v) ∧
      (∀ r0, r0 ∈ delta.*1 →
         getChangelist (ledgerChangeLog s') r0 =
           getChangelist (ledgerChangeLog s) r0 ++
             [Height (BlockHeader block)])) ∧
     ((∀ event1 event2, event1 ∈ events → event2 ∈ events →
         TransactionIndex event1 = TransactionIndex event2 →
         EventIndex event1 = EventIndex event2 →
         EventType event1 = EventType event2 → event1 = event2) →
      ∀ event, event ∈ events →
        ∃ enc,
          db s' !! eventKey (Height (BlockHeader block))
                     (TransactionIndex event) (EventIndex event)
                     (EventType event) = Some enc ∧
          decodeEvent enc = Some event) ∧
     (∀ k, ¬ committedKey block collections transactions transactionResults
               delta events k →
        db s' !! k = db s !! k)).
Proof.
  intros Hrun. split.
  - intros e -> He. by eapply CommitBlock_failed.
  - intros Hr.
    destruct (CommitBlock_applied _ _ _ _ _ _ _ _ _ Hrun Hr)
      as (Hsize & st' & Htxn & Hdbs & Hlogs).
    destruct (commitBlockTxn_written _ _ _ _ _ _ _ _ Htxn)
      as ((enc & Henc & Hblock) & _ & Htxs & _).
    destruct (commitBlockTxn_applied _ _ _ _ _ _ _ _ Htxn)
      as (Hcols & Hvals & Hclogs & Hevents).
    destruct (commitBlockTxn_ledger _ _ _ _ _ _ _ _ Htxn)
      as (st1 & st2 & Hlog1 & _ & Hdelta & Hlog2 & Hledger).
    rewrite <- Hdbs in *. rewrite <- Hlogs in *.
    split_and!.
    + by eapply BlockByHeight_lookup.
    + by eapply CommitBlock_block_by_id.
    + intros col Hcol.
      destruct (Hcols _ Hcol) as (col' & e & Hin & Hid & He & Hdb).
      exists col'. split_and!; [done..|]. by eapply CollectionByID_lookup.
    + intros txID tx Htx. destruct (Htxs _ _ Htx) as [(e & He & Hdb) _].
      by eapply TransactionByID_lookup.
    + intros txID result Hres.
      assert (dom transactions = dom transactionResults) as Hdom.
      { apply set_subseteq_size_eq.
        - intros i [tx Htx]%elem_of_dom.
          destruct (Htxs _ _ Htx) as [_ (res & _ & Hres' & _)].
          apply elem_of_dom. eauto.
        - rewrite !size_dom. lia. }
      assert (txID ∈ dom transactions) as [tx Htx]%elem_of_dom.
      { rewrite Hdom. apply elem_of_dom. eauto. }
      destruct (Htxs _ _ Htx) as [_ (res & e & Hres' & He & Hdb)].
      simplify_eq. by eapply TransactionResultByID_lookup.
    + done.
    + intros r0 Hr0.
      destruct (Hclogs _ Hr0) as (e & clist & Hdb & He & Hcl).
      exists e, clist. split_and!; [done| |done].
      by apply decode_encode_Changelist.
    + intros event Hevent.
      destruct (Hevents _ Hevent)
        as (event' & e & Hin & Ht & Hi & Hty & He & Hdb).
      exists event', e. split_and!; [done..|].
      by apply decode_encode_Event.
    + intros Hinj col Hcol.
      destruct (Hcols _ Hcol) as (col' & e & Hin & Hid & He & Hdb).
      assert (col' = col) as -> by (by apply Hinj).
      by eapply CollectionByID_lookup.
    + intros Hnodup.
      destruct (insertLedgerDelta_Ok _ _ _ _ Hdelta Hnodup)
        as (Hlists & Hwritten & _).
      split.
      * intros r0 v Hv. rewrite Hledger by done. by apply Hwritten.
      * intros r0 Hr0. rewrite Hlog2, Hlists, Hlog1.
        by rewrite decide_True.
    + intros Hinj event Hevent.
      destruct (Hevents _ Hevent)
        as (event' & e & Hin & Ht & Hi & Hty & He & Hdb).
      assert (event' = event) as -> by (by apply Hinj).
      exists e. split; [done|]. by apply decode_encode_Event.
    + intros k Hk. by eapply CommitBlock_frame.
Qed.

End AtomicCommit.

(** ** Creating an account *)

Section Account.
Context {encoding : Encoding} {hashing : Hashing} {faults : Faults}
  {sentinel : Sentinel} {externals : Externals}.

Lemma getServiceKey_frame (b : Blockchain) r b' :
  getServiceKey b = (r, b') →
  storage b' = storage b ∧ pendingBlockOf b' = pendingBlockOf b.
Proof.
  unfold getServiceKey. intros Hrun.
  destruct (getAccount _ _) as [[account|]|]; [|by simplify_eq..].
  destruct (Keys account); by simplify_eq.
Qed.

(** What an accepted transaction went through. *)
Lemma addTransaction_Ok (tx : TransactionBody) (b b' : Blockchain) :
  addTransaction tx b = (Ok tt, b') →
  ExecutionStarted (pendingBlockOf b) = false ∧
  ContainsTransaction (pendingBlockOf b) (TxID tx) = false ∧
  TransactionByID (storage b) (TxID tx) = Err ErrNotFound ∧
  validate (storage b) tx = None ∧
  b' = withPendingBlock b (pbAddTransaction (pendingBlockOf b) tx).
Proof.
  unfold addTransaction. intros Hrun.
  destruct (ExecutionStarted _); [done|].
  destruct (ContainsTransaction _ _); [done|].
  destruct (TransactionByID _ _) as [stored|[]]; try done.
  destruct (validate _ _); [done|]. by simplify_eq.
Qed.

(** The transaction added last is found under its id when the id was not
    in the block before. *)
Lemma pbTransactionsMap_added (pb : pendingBlock) (tx : TransactionBody) :
  ContainsTransaction pb (TxID tx) = false →
  pbTransactionsMap (pbAddTransaction pb tx) !! TxID tx = Some tx.
Proof.
  unfold ContainsTransaction, pbGetTransaction, pbTransactionsMap,
    pbAddTransaction. simpl.
  intros Hnone%bool_decide_eq_false.
  destruct (list_find _ (pbTransactions pb)) as [found|] eqn:Hfind;
    [destruct Hnone; by eexists|].
  apply list_find_None in Hfind.
  rewrite list_to_map_app. apply lookup_union_Some_raw. right. split.
  - apply not_elem_of_list_to_map_1.
    intros ([id tx'] & Hid & Hin)%list_elem_of_fmap. simpl in Hid.
    rewrite Forall_forall in Hfind. by apply (Hfind _ Hin).
  - simpl. apply lookup_insert_eq.
Qed.

(** Reads depend on the entry under their key alone. *)
Lemma BlockByHeight_agree (s1 s2 : Store) (h : N) :
  db s1 !! blockKey h = db s2 !! blockKey h →
  BlockByHeight s1 h = BlockByHeight s2 h.
Proof.
  intros Heq. unfold BlockByHeight, ViewTxn, bind, getTx. cbn [txnDB].
  rewrite Heq. destruct (db s2 !! _) as [enc|]; [|done].
  unfold decoded. by destruct (decodeBlock enc).
Qed.

Lemma TransactionByID_agree (s1 s2 : Store) (txID : N) :
  db s1 !! transactionKey txID = db s2 !! transactionKey txID →
  TransactionByID s1 txID = TransactionByID s2 txID.
Proof.
  intros Heq. unfold TransactionByID, ViewTxn, bind, getTx. cbn [txnDB].
  rewrite Heq. destruct (db s2 !! _) as [enc|]; [|done].
  unfold decoded. by destruct (decodeTransaction enc).
Qed.

(** C10, as amended. A successful [CreateAccount] commits two blocks.  With
    [H] the height of the pending block before the call and [l] the latest
    committed height before it, the block at height [H] holds the
    account-creation transaction, the block at height [H + 1] is the empty
    block committed by the second call of [commitBlock], its parent is the
    first block, and the pending block that follows is at height [H + 2].
    The latest committed height becomes the greater of [l] and [H + 1]: it
    grows by exactly 2 when the pending block followed the latest block
    ([H = l + 1]), and the second block is the latest block whenever
    [l ≤ H + 1]. *)
Theorem CreateAccount_commits_two_blocks (publicKeys contracts : list string)
    (now1 now2 : N) (b b' : Blockchain) (address : N) :
  CreateAccount publicKeys contracts now1 now2 b = (Ok address, b') →
  ∃ l first second key referenceBlockID tx,
    ViewTxn (storage b) getLatestBlockHeightTx = Ok l ∧
    ViewTxn (storage b') getLatestBlockHeightTx =
      Ok (N.max l (Height (pbHeader (pendingBlockOf b)) + 1)) ∧
    (Height (pbHeader (pendingBlockOf b)) = l + 1 →
       ViewTxn (storage b') getLatestBlockHeightTx = Ok (l + 2)) ∧
    BlockByHeight (storage b') (Height (pbHeader (pendingBlockOf b))) =
      Ok first ∧
    BlockByHeight (storage b') (Height (pbHeader (pendingBlockOf b)) + 1) =
      Ok second ∧
    (l ≤ Height (pbHeader (pendingBlockOf b)) + 1 →
       LatestBlock (storage b') = Ok second) ∧
    Height (BlockHeader first) = Height (pbHeader (pendingBlockOf b)) ∧
    Height (BlockHeader second) = Height (pbHeader (pendingBlockOf b)) + 1 ∧
    ParentID (BlockHeader second) = BlockID first ∧
    Guarantees second = [] ∧
    createAccountTransaction publicKeys contracts key referenceBlockID =
      Some tx ∧
    TransactionByID (storage b') (TxID tx) = Ok tx ∧
    Height (pbHeader (pendingBlockOf b')) =
      Height (pbHeader (pendingBlockOf b)) + 2.
Proof.
  intros Hrun. unfold CreateAccount in Hrun.
  apply bind_Ok in Hrun as (key & b1 & Hkey & Hrun).
  apply getServiceKey_frame in Hkey as [Hs1 Hp1].
  apply bind_Ok in Hrun as (latestBlock & b2 & Hlb & Hrun).
  injection Hlb as Hlb <-. unfold GetLatestBlock in Hlb.
  destruct (LatestBlock (storage b1)) as [latestBlock'|] eqn:Hlatest; [|done].
  apply LatestBlock_height in Hlatest as [l Hlatest]. rewrite Hs1 in Hlatest.
  clear Hlb.
  apply bind_Ok in Hrun as (tx & b3 & Htx & Hrun).
  destruct (createAccountTransaction _ _ _ _) eqn:Hcreate; [|done].
  simplify_eq.
  apply bind_Ok in Hrun as ([] & b4 & Hadd & Hrun).
  apply addTransaction_Ok in Hadd as (_ & Hfresh & _ & _ & ->).
  apply bind_Ok in Hrun as ([block results] & b5 & Hexec & Hrun).
  unfold executeAndCommitBlock in Hexec.
  destruct (executeBlock _) as [[results' [e|]] b4'] eqn:Hblock; [done|].
  apply executeBlock_frame in Hblock as (Hs4 & _ & Hh4 & Ht4 & _).
  destruct (commitBlock now1 b4') as [[block'|e] b5'] eqn:Hcommit1; [|done].
  simplify_eq. simpl in *.
  apply commitBlock_Ok in Hcommit1 as (-> & _ & Hp5 & trs1 & _ & Hstore1).
  destruct (last results) as [lastResult|]; [|done].
  apply bind_Ok in Hrun as (block2 & b6 & Hcommit2 & Hrun).
  assert (b' = b6) as ->.
  { destruct (trError lastResult); [done|].
    destruct (list_find _ _) as [[i event]|]; [|done].
    destruct (sdkEventFields event) as [|[a|] ?]; try done.
    case_decide; [done|]. unfold ret in Hrun. by simplify_eq. }
  clear Hrun.
  apply commitBlock_Ok in Hcommit2 as (-> & _ & Hp6 & trs2 & _ & Hstore2).
  rewrite Hp5 in Hstore2. simpl in Hstore2.
  rewrite Hs4 in Hstore1. simpl in Hstore1. rewrite Hs1 in Hstore1.
  assert (Height (pbHeader (pendingBlockOf b4')) =
            Height (pbHeader (pendingBlockOf b))) as Hpending.
  { rewrite Hh4. simpl. by rewrite Hp1. }
  set (first := pbBlock (pendingBlockOf b4')) in *.
  assert (Height (BlockHeader first) = Height (pbHeader (pendingBlockOf b)))
    as Hfirst by done.
  pose proof (CommitBlock_latest_max _ _ _ _ _ _ _ _ _ Hstore1 Hlatest)
    as Hlatest1.
  match type of Hstore2 with
  | CommitBlock _ ?blk _ _ _ _ _ = _ => set (second := blk) in *
  end.
  assert (Height (BlockHeader second) =
            Height (pbHeader (pendingBlockOf b)) + 1) as Hsecond.
  { unfold second. simpl. lia. }
  pose proof (CommitBlock_latest_max _ _ _ _ _ _ _ _ _ Hstore2 Hlatest1)
    as Hlatest2.
  rewrite Hsecond, Hfirst in Hlatest2.
  replace (N.max (N.max l (Height (pbHeader (pendingBlockOf b))))
             (Height (pbHeader (pendingBlockOf b)) + 1))
    with (N.max l (Height (pbHeader (pendingBlockOf b)) + 1))
    in Hlatest2 by lia.
  exists l, first, second, key, (BlockID latestBlock), tx.
  split_and!; try done.
  - intros Hanchor. rewrite Hlatest2. f_equal. lia.
  - rewrite (BlockByHeight_agree _ (storage b5)).
    + rewrite <- Hfirst.
      apply (committed_block_stored _ _ _ _ _ _ _ _ Hstore1).
    + apply (CommitBlock_frame _ _ _ _ _ _ _ _ _ _ Hstore2). simpl. lia.
  - rewrite <- Hsecond.
    apply (committed_block_stored _ _ _ _ _ _ _ _ Hstore2).
  - intros Hle.
    destruct (CommitBlock_latest _ _ _ _ _ _ _ _ _ Hstore2 Hlatest1)
      as [_ Hblock2]; [|done].
    rewrite Hsecond, Hfirst. lia.
  - rewrite (TransactionByID_agree _ (storage b5)).
    + apply (committed_transaction_stored _ _ _ _ _ _ _ _ _ Hstore1).
      unfold pbTransactionsMap. rewrite Ht4. simpl.
      apply (pbTransactionsMap_added _ _ Hfresh).
    + apply (CommitBlock_frame _ _ _ _ _ _ _ _ _ _ Hstore2). simpl.
      unfold pbTransactionsMap. simpl. rewrite lookup_empty. by intros [].
  - rewrite Hp6, Hp5. simpl. lia.
Qed.

End Account.

(** ** Iteration over the database *)

Section Iteration.

Lemma lexico_cons (x y : N) (l k : list N) :
  lexico (x :: l) (y :: k) ↔ x < y ∨ (x = y ∧ lexico l k).
Proof. done. Qed.

Lemma lexico_nil_r (l : list N) : ¬ lexico l [].
Proof. destruct l; by intros []. Qed.

#[global] Instance keyLe_total : Total keyLe.
Proof.
  intros k1 k2. unfold keyLe, keyLt.
  destruct (trichotomyT lexico (keyPath k1) (keyPath k2)) as [[Hlt|Heq]|Hgt].
  - left. intros Hgt. apply (irreflexivity lexico (keyPath k1)).
    by trans (keyPath k2).
  - left. rewrite Heq. apply (irreflexivity lexico).
  - right. intros Hlt. apply (irreflexivity lexico (keyPath k1)).
    by trans (keyPath k2).
Qed.

#[global] Instance keyLe_transitive : Transitive keyLe.
Proof.
  intros k1 k2 k3. unfold keyLe, keyLt. intros H12 H23 H31.
  destruct (trichotomyT lexico (keyPath k1) (keyPath k2)) as [[Hlt|Heq]|Hgt].
  - apply H23. by trans (keyPath k1).
  - apply H23. by rewrite <- Heq.
  - done.
Qed.

#[global] Instance entryLe_total : Total entryLe.
Proof. intros e1 e2. apply (total keyLe). Qed.

#[global] Instance entryLe_transitive : Transitive entryLe.
Proof. intros e1 e2 e3. apply (transitivity (R:=keyLe)). Qed.

(** A key below another one is below every key above that one. *)
Lemma keyLt_keyLe (k1 k2 k3 : Key) : keyLe k1 k2 → keyLt k2 k3 → keyLt k1 k3.
Proof.
  unfold keyLe, keyLt. intros H12 H23.
  destruct (trichotomyT lexico (keyPath k1) (keyPath k2)) as [[Hlt|Heq]|Hgt].
  - by trans (keyPath k2).
  - by rewrite Heq.
  - done.
Qed.

(** The entries in iteration order are the entries of the database. *)
Lemma sortedEntries_sorted (d : gmap Key string) :
  StronglySorted entryLe (sortedEntries d).
Proof. apply StronglySorted_merge_sort; apply _. Qed.

Lemma elem_of_sortedEntries (d : gmap Key string) (k : Key) (v : string) :
  (k, v) ∈ sortedEntries d ↔ d !! k = Some v.
Proof.
  unfold sortedEntries. rewrite merge_sort_Permutation.
  apply elem_of_map_to_list.
Qed.

Lemma sortedEntries_NoDup (d : gmap Key string) : NoDup (sortedEntries d).*1.
Proof.
  unfold sortedEntries. rewrite merge_sort_Permutation.
  apply NoDup_fst_map_to_list.
Qed.

Lemma filter_none {A} (P : A → bool) (l : list A) :
  (∀ y, y ∈ l → P y = false) → filter (λ x, P x) l = [].
Proof.
  induction l as [|x l IH]; [reflexivity|]. intros Hnone.
  rewrite filter_cons_False.
  - apply IH. intros y Hy. by apply Hnone, list_elem_of_further.
  - rewrite (Hnone x) by apply list_elem_of_here. by intros [].
Qed.

(** On a sorted list, taking while a property holds selects the elements
    with the property, when no element with the property follows one
    without. *)
Lemma takeWhile_filter {A} (R : relation A) (P : A → bool) (l : list A) :
  StronglySorted R l →
  (∀ x y, x ∈ l → y ∈ l → P x = false → R x y → P y = false) →
  takeWhile P l = filter (λ x, P x) l.
Proof.
  induction l as [|x l IH]; [reflexivity|].
  intros [Hx Hl]%StronglySorted_cons Hconv. simpl.
  destruct (P x) eqn:HP.
  - rewrite filter_cons_True by (rewrite HP; exact I). f_equal. apply IH; [done|].
    intros y z Hy Hz. apply Hconv; by apply list_elem_of_further.
  - rewrite filter_cons_False by (rewrite HP; by intros []).
    symmetry. apply filter_none. intros y Hy.
    apply (Hconv x y); [apply list_elem_of_here| |done|].
    + by apply list_elem_of_further.
    + rewrite Forall_forall in Hx. by apply Hx.
Qed.

(** Skipping what lies below a bound first leaves the selection as it is,
    when whatever has the property lies at or above the bound. *)
Lemma takeWhile_dropWhile_filter {A} (R : relation A) (below P : A → bool)
    (l : list A) :
  StronglySorted R l →
  (∀ x, P x = true → below x = false) →
  (∀ x y, below x = false → R x y → below y = false) →
  (∀ x y, below x = false → P x = false → R x y → P y = false) →
  takeWhile P (dropWhile below l) = filter (λ x, P x) l.
Proof.
  intros Hsorted Hbound Hmono Hconv.
  induction l as [|x l IH]; [reflexivity|]. simpl.
  pose proof Hsorted as [Hx Hl]%StronglySorted_cons.
  destruct (below x) eqn:Hbelow.
  - rewrite filter_cons_False; [by apply IH|].
    destruct (P x) eqn:HP; [|by intros []]. apply Hbound in HP. congruence.
  - apply (takeWhile_filter R); [done|].
    rewrite Forall_forall in Hx.
    intros y z Hy Hz. apply Hconv.
    apply elem_of_cons in Hy as [->|Hy]; [done|].
    apply (Hmono x); [done|by apply Hx].
Qed.

End Iteration.

(** ** The events of a block *)

Section Events.
Context {encoding : Encoding} {hashing : Hashing} {faults : Faults}.

Lemma StronglySorted_filter {A} (R : relation A) (P : A → Prop)
    `{∀ x, Decision (P x)} (l : list A) :
  StronglySorted R l → StronglySorted R (filter P l).
Proof.
  induction l as [|x l IH]; [done|].
  intros [Hx Hl]%StronglySorted_cons. rewrite filter_cons.
  destruct (decide (P x)); [|by apply IH].
  apply StronglySorted_cons. split; [|by apply IH].
  apply Forall_forall. intros y [_ Hy]%list_elem_of_filter.
  by apply (proj1 (Forall_forall _ _) Hx).
Qed.

(** The image of a list under a functional relation. *)
Lemma Forall2_elem_of_r {A B} (Q : A → B → Prop) (l : list A) (k : list B)
    (y : B) :
  (∀ x z z', Q x z → Q x z' → z = z') →
  Forall2 Q l k → y ∈ k ↔ ∃ x, x ∈ l ∧ Q x y.
Proof.
  intros Hfun. induction 1 as [|x y' l k Hxy Hlk IH].
  - split; [by intros ?%elem_of_nil|]. by intros (? & ?%elem_of_nil & _).
  - rewrite elem_of_cons, IH. split.
    + intros [->|(x0 & Hx0 & Hq)].
      * exists x. split; [apply list_elem_of_here|done].
      * exists x0. split; [by apply list_elem_of_further|done].
    + intros (x0 & [->|Hx0]%elem_of_cons & Hq).
      * left. by eapply Hfun.
      * right. eauto.
Qed.

Lemma Forall2_StronglySorted {A B} (R : relation A) (R' : relation B)
    (Q : A → B → Prop) (l : list A) (k : list B) :
  (∀ x z z', Q x z → Q x z' → z = z') →
  Forall2 Q l k → StronglySorted R l →
  (∀ x y x' y', x ∈ l → y ∈ l → Q x x' → Q y y' → R x y → R' x' y') →
  StronglySorted R' k.
Proof.
  intros Hfun. induction 1 as [|x x' l k Hxx Hlk IH]; [constructor|].
  intros [Hx Hl]%StronglySorted_cons Hrel.
  apply StronglySorted_cons. split.
  - apply Forall_forall. intros y' Hy'.
    apply (Forall2_elem_of_r Q l k y' Hfun Hlk) in Hy' as (y & Hy & Hyy).
    apply (Hrel x y); [apply list_elem_of_here|by apply list_elem_of_further|
                       done..|].
    by apply (proj1 (Forall_forall _ _) Hx).
  - apply IH; [done|]. intros y z y' z' Hy Hz.
    apply Hrel; by apply list_elem_of_further.
Qed.

Lemma Forall2_NoDup {A B} (Q : A → B → Prop) (l : list A) (k : list B) :
  (∀ x z z', Q x z → Q x z' → z = z') →
  Forall2 Q l k → NoDup l →
  (∀ x y z, x ∈ l → y ∈ l → Q x z → Q y z → x = y) →
  NoDup k.
Proof.
  intros Hfun. induction 1 as [|x x' l k Hxx Hlk IH]; [constructor|].
  intros [Hx Hl]%NoDup_cons Hinj. apply NoDup_cons. split.
  - intros (y & Hy & Hyx)%(Forall2_elem_of_r Q l k x' Hfun Hlk).
    apply Hx. rewrite (Hinj x y x'); [done|apply list_elem_of_here| |done..].
    by apply list_elem_of_further.
  - apply IH; [done|]. intros y z z' Hy Hz.
    apply Hinj; by apply list_elem_of_further.
Qed.

(** The keys of the events of a block lie side by side in the iteration
    order, from the key the iterator seeks. *)
Lemma eventKey_not_below (h t e : N) (ty : string) :
  ¬ keyLt (eventKey h t e ty) (eventKey h 0 0 "").
Proof.
  unfold keyLt. simpl. rewrite !lexico_cons.
  intros [?|[_ [?|[_ [?|[_ [?|[_ []%lexico_nil_r]]]]]]]]; lia.
Qed.

Lemma eventKeyBlockPrefix_convex (h : N) (k1 k2 : Key) :
  ¬ keyLt k1 (eventKey h 0 0 "") →
  eventKeyBlockPrefix h k1 = false →
  keyLe k1 k2 →
  eventKeyBlockPrefix h k2 = false.
Proof.
  intros Hbelow Hprefix Hle.
  destruct k2 as [| | | | | | | |h2 t2 e2 ty2]; try done.
  simpl. apply bool_decide_eq_false. intros ->.
  unfold keyLe, keyLt in *.
  destruct k1 as [h1|i1| |i1|i1|i1|r1 h1|r1|h1 t1 e1 ty1]; simpl in *;
    rewrite ?lexico_cons in *;
    try (apply Hbelow; left; lia); try (apply Hle; left; lia).
  apply bool_decide_eq_false in Hprefix.
  destruct (N.lt_trichotomy h1 h) as [?|[?|?]]; [|done|].
  - apply Hbelow. right. split; [done|]. left. done.
  - apply Hle. right. split; [done|]. left. done.
Qed.

Lemma iterate_events (d : gmap Key string) (h : N) :
  iterate d (eventKeyBlockPrefix h) (eventKey h 0 0 "") =
  filter (λ entry, eventKeyBlockPrefix h entry.1) (sortedEntries d).
Proof.
  unfold iterate.
  apply (takeWhile_dropWhile_filter entryLe
           (λ entry, bool_decide (keyLt entry.1 (eventKey h 0 0 "")))
           (λ entry, eventKeyBlockPrefix h entry.1)).
  - apply sortedEntries_sorted.
  - intros [k v] Hprefix. simpl in *. apply bool_decide_eq_false.
    destruct k; try done. apply bool_decide_eq_true in Hprefix as ->.
    apply eventKey_not_below.
  - intros [k1 v1] [k2 v2] Hbelow%bool_decide_eq_false Hle. simpl in *.
    apply bool_decide_eq_false. intros Hlt. apply Hbelow.
    by apply (keyLt_keyLe k1 k2).
  - intros [k1 v1] [k2 v2] Hbelow%bool_decide_eq_false Hprefix Hle.
    simpl in *. by apply (eventKeyBlockPrefix_convex h k1 k2).
Qed.

(** The entries of the events of a block. *)
Lemma elem_of_event_entries (d : gmap Key string) (h : N) (k : Key)
    (v : string) :
  (k, v) ∈ filter (λ entry, eventKeyBlockPrefix h entry.1) (sortedEntries d) ↔
  (∃ t e ty, k = eventKey h t e ty) ∧ d !! k = Some v.
Proof.
  rewrite list_elem_of_filter, elem_of_sortedEntries. simpl.
  split; intros [Hk Hv]; (split; [|done]).
  - destruct k; try done. simpl in Hk. apply bool_decide_unpack in Hk as ->.
    eauto.
  - destruct Hk as (t & e & ty & ->). simpl. by apply bool_decide_pack.
Qed.

(** The loop of [EventsByHeight] decodes, in order, the entries the type
    filter lets through. *)
Lemma collectEvents_Ok (entries : list (Key * string)) (eventType : string)
    (acc : list Event) :
  Forall (λ entry, is_Some (decodeEvent entry.2)) entries →
  ∃ events,
    collectEvents entries eventType acc = Ok (acc ++ events) ∧
    Forall2 (λ entry event, decodeEvent entry.2 = Some event)
      (filter (λ entry, negb (bool_decide (eventType ≠ "") &&
                              negb (eventKeyHasType entry.1 eventType)))
         entries)
      events.
Proof.
  revert acc. induction entries as [|[k v] entries IH]; intros acc Hdec.
  - exists []. split; [by rewrite app_nil_r|constructor].
  - apply Forall_cons in Hdec as [[event Hevent] Hdec]. simpl in *.
    rewrite filter_cons. simpl.
    destruct (bool_decide (eventType ≠ "") && negb (eventKeyHasType k eventType))
      eqn:Hskip; simpl.
    + by apply IH.
    + rewrite Hevent.
      destruct (IH (acc ++ [event]) Hdec) as (events & -> & Hall).
      exists (event :: events). split; [by rewrite <- app_assoc|].
      by constructor.
Qed.

(** C9. On a database whose event entries are as [insertEvents] writes
    them, [EventsByHeight] returns the events stored under the height that
    match the type filter (all of them when the filter is empty), each
    once, in ascending order of transaction index and event index. *)
Theorem EventsByHeight_sorted_matching (s : Store) (h : N)
    (eventType : string) :
  eventsWellFormed (db s) →
  ∃ events,
    EventsByHeight s h eventType = Ok events ∧
    (∀ event,
       event ∈ events ↔
       (∃ b, db s !! eventKey h (TransactionIndex event) (EventIndex event)
                       (EventType event) = Some b ∧
             decodeEvent b = Some event) ∧
       matchesType eventType (EventType event)) ∧
    StronglySorted eventOrder events ∧
    NoDup events.
Proof.
  intros Hwf. unfold EventsByHeight. rewrite iterate_events.
  set (entries := filter (λ entry, eventKeyBlockPrefix h entry.1)
                    (sortedEntries (db s))).
  assert (∀ k v, (k, v) ∈ entries →
            ∃ event, decodeEvent v = Some event ∧
                     k = eventKey h (TransactionIndex event) (EventIndex event)
                           (EventType event) ∧
                     db s !! k = Some v) as Hentry.
  { intros k v [(t & e & ty & ->) Hv]%elem_of_event_entries.
    destruct (Hwf _ _ _ _ _ Hv) as (event & Hdec & <- & <- & <-). eauto. }
  destruct (collectEvents_Ok entries eventType []) as (events & Hrun & Hall).
  { apply Forall_forall. intros [k v] Hin.
    destruct (Hentry _ _ Hin) as (event & Hdec & _). simpl. rewrite Hdec.
    by eexists. }
  exists events. split; [done|].
  set (Q := λ (entry : Key * string) event, decodeEvent entry.2 = Some event)
    in *.
  assert (∀ x z z', Q x z → Q x z' → z = z') as Hfun.
  { unfold Q. intros x z z' Hz Hz'. congruence. }
  match type of Hall with Forall2 _ ?l _ => set (selected := l) in * end.
  assert (∀ k v, (k, v) ∈ selected ↔
            (k, v) ∈ entries ∧
            ∀ t e ty, k = eventKey h t e ty → matchesType eventType ty)
    as Hselected.
  { intros k v. unfold selected. rewrite list_elem_of_filter. simpl. split.
    - intros [Hkeep Hin]. split; [done|]. intros t e ty ->. simpl in Hkeep.
      unfold matchesType.
      destruct (decide (eventType = "")) as [|Hne]; [by left|right].
      rewrite (bool_decide_eq_true_2 _ Hne) in Hkeep. simpl in Hkeep.
      rewrite negb_involutive in Hkeep.
      by apply bool_decide_unpack in Hkeep.
    - intros [Hin Hkeep]. split; [|done].
      destruct (Hentry _ _ Hin) as (event & _ & -> & _). simpl.
      destruct (Hkeep _ _ _ eq_refl) as [->| <-].
      + rewrite bool_decide_eq_false_2 by (intros Hne; by apply Hne).
        exact I.
      + rewrite (bool_decide_eq_true_2 (_ = _)) by done.
        simpl. rewrite andb_false_r. exact I. }
  split_and!.
  - intros event. rewrite (Forall2_elem_of_r Q selected events event Hfun Hall).
    split.
    + intros ([k v] & [Hin Hkeep]%Hselected & Hdec).
      destruct (Hentry _ _ Hin) as (event' & Hdec' & -> & Hdb).
      unfold Q in Hdec. simpl in Hdec. simplify_eq. split; [eauto|].
      by apply (Hkeep _ _ _ eq_refl).
    + intros [(b & Hdb & Hdec) Hmatch].
      exists (eventKey h (TransactionIndex event) (EventIndex event)
                (EventType event), b).
      split; [|done]. apply Hselected. split.
      * apply elem_of_event_entries. eauto 10.
      * by intros t e ty [= _ _ <-].
  - apply (Forall2_StronglySorted entryLe eventOrder Q selected events Hfun
             Hall).
    + apply StronglySorted_filter, StronglySorted_filter,
        sortedEntries_sorted.
    + intros [k1 v1] [k2 v2] ev1 ev2 [Hin1 _]%Hselected [Hin2 _]%Hselected
        Hq1 Hq2 Hle.
      destruct (Hentry _ _ Hin1) as (ev1' & Hdec1 & -> & _).
      destruct (Hentry _ _ Hin2) as (ev2' & Hdec2 & -> & _).
      unfold Q in Hq1, Hq2. simpl in *. simplify_eq.
      unfold entryLe, keyLe, keyLt, eventOrder in *. simpl in Hle.
      rewrite !lexico_cons in Hle.
      destruct (N.lt_trichotomy (TransactionIndex ev1) (TransactionIndex ev2))
        as [?|[Heq|?]]; [by left| |].
      * right. split; [done|].
        destruct (decide (EventIndex ev1 ≤ EventIndex ev2)); [done|].
        destruct Hle. right. split; [done|]. right. split; [done|].
        right. split; [done|]. left. lia.
      * destruct Hle. right. split; [done|]. right. split; [done|]. by left.
  - apply (Forall2_NoDup Q selected events Hfun Hall).
    + apply NoDup_filter, NoDup_filter.
      apply (NoDup_fmap_1 fst), sortedEntries_NoDup.
    + intros [k1 v1] [k2 v2] ev [Hin1 _]%Hselected [Hin2 _]%Hselected
        Hq1 Hq2.
      destruct (Hentry _ _ Hin1) as (ev1' & Hdec1 & -> & Hdb1).
      destruct (Hentry _ _ Hin2) as (ev2' & Hdec2 & -> & Hdb2).
      unfold Q in Hq1, Hq2. simpl in *. simplify_eq. done.
Qed.

(** *** Event entries stay well formed *)

Definition eventsKept : relation TxnState :=
  λ st st', eventsWellFormed (txnDB st) → eventsWellFormed (txnDB st').

#[global] Instance eventsKept_preorder : PreOrder eventsKept.
Proof.
  split.
  - by intros st Hwf.
  - intros st1 st2 st3 H12 H23 Hwf. by apply H23, H12.
Qed.

Lemma eventsKept_setKey_other st key value :
  (∀ h t e ty, key ≠ eventKey h t e ty) →
  eventsKept st (setKey st key value).
Proof.
  intros Hkey Hwf h t e ty b. simpl.
  rewrite lookup_insert_ne by apply Hkey. apply Hwf.
Qed.

Lemma eventsKept_setKey_event st h event enc :
  encodeEvent event = Some enc →
  eventsKept st
    (setKey st (eventKey h (TransactionIndex event) (EventIndex event)
                  (EventType event)) enc).
Proof.
  intros Henc Hwf h' t e ty b. simpl.
  destruct (decide (eventKey h (TransactionIndex event) (EventIndex event)
                      (EventType event) = eventKey h' t e ty)) as [Heq|Hne].
  - rewrite Heq, lookup_insert_eq. intros [= <-]. exists event.
    split; [by apply decode_encode_Event|]. by simplify_eq.
  - rewrite lookup_insert_ne by done. apply Hwf.
Qed.

Lemma insertEvents_eventsKept blockHeight events :
  respects eventsKept (insertEvents blockHeight events).
Proof.
  apply respects_insertEvents; [apply _|]. intros st event enc _ Henc.
  by apply eventsKept_setKey_event.
Qed.

Lemma commitBlockTxn_eventsKept block collections transactions
    transactionResults delta events :
  respects eventsKept
    (commitBlockTxn block collections transactions transactionResults delta
       events).
Proof.
  apply respects_commitBlockTxn; [apply _|..].
  - apply respects_store; [apply _|..]; intros;
      by apply eventsKept_setKey_other.
  - intros. apply respects_insertCollection; [apply _|]. intros.
    by apply eventsKept_setKey_other.
  - intros. apply respects_insertTransaction; [apply _|]. intros.
    by apply eventsKept_setKey_other.
  - intros. apply respects_insertTransactionResult; [apply _|]. intros.
    by apply eventsKept_setKey_other.
  - apply respects_insertLedgerDelta; [apply _|..]; intros;
      try (by apply eventsKept_setKey_other). by intros Hwf.
  - apply insertEvents_eventsKept.
Qed.

Lemma insertLedgerDelta_eventsKept blockHeight delta :
  respects eventsKept (insertLedgerDelta blockHeight delta).
Proof.
  apply respects_insertLedgerDelta; [apply _|..]; intros;
    try (by apply eventsKept_setKey_other). by intros Hwf.
Qed.

Lemma Update_eventsWellFormed (s : Store) (fn : Txn unit) r s' :
  respects eventsKept fn →
  Update s fn = (r, s') →
  eventsWellFormed (db s) → eventsWellFormed (db s').
Proof.
  unfold Update. intros Hfn Hrun Hwf.
  destruct (fn _) as [[[]|e] st'] eqn:Hrun'; simplify_eq; [|done].
  by apply (Hfn _ _ _ Hrun').
Qed.

Lemma CommitBlock_eventsWellFormed s block collections transactions
    transactionResults delta events r s' :
  CommitBlock s block collections transactions transactionResults delta
    events = (r, s') →
  eventsWellFormed (db s) → eventsWellFormed (db s').
Proof.
  unfold CommitBlock. intros Hrun Hwf. case_decide; [by simplify_eq|].
  destruct (Update _ _) as [[[]|e] s1] eqn:Hupdate.
  - apply Update_eventsWellFormed in Hupdate;
      [|apply commitBlockTxn_eventsKept|done].
    unfold newCommit in Hrun.
    destruct (checkpointFails _); by simplify_eq.
  - simplify_eq.
    by eapply Update_eventsWellFormed;
      [apply commitBlockTxn_eventsKept|done..].
Qed.

(** Every store reached by commits from the empty store holds well-formed
    event entries. *)
Lemma ledgerCommits_eventsWellFormed hist s :
  ledgerCommits emptyStore hist s → eventsWellFormed (db s).
Proof.
  remember emptyStore as s0 eqn:Hs0.
  induction 1 as [s|s hist s1 blockHeight delta s2 _ IH Hrun
                    |s hist s1 block collections transactions
                       transactionResults delta events s2 _ IH Hrun].
  - subst. intros h t e ty b. simpl. by rewrite lookup_empty.
  - eapply Update_eventsWellFormed;
      [apply insertLedgerDelta_eventsKept|exact Hrun|by apply IH].
  - eapply CommitBlock_eventsWellFormed; [exact Hrun|by apply IH].
Qed.

End Events.

(** * Further properties *)

(** ** Snapshots *)

Section Snapshots.
Context {encoding : Encoding} {hashing : Hashing} {faults : Faults}.

(** A jump leaves the in-memory changelog as it is, whatever it does to
    the database and whether it succeeds or fails. *)
Theorem JumpToContext_keeps_changelog (s : Store) (context newBranchUuid : string) :
  ledgerChangeLog (JumpToContext s context newBranchUuid).2 = ledgerChangeLog s.
Proof.
  unfold JumpToContext, newCommit.
  destruct (checkpointFails (db s)); [done|]. simpl.
  destruct (_ !! context); [|done].
  by destruct (_ !! newBranchUuid).
Qed.

(** A write to the store works in the database and on the branch that is
    checked out: the tags stay, the branch checked out stays the same and
    keeps having a head once it has one, and the other branches stay. *)
Lemma Update_repository (s : Store) (fn : Txn unit) r s' :
  Update s fn = (r, s') → dbGitRepository s' = dbGitRepository s.
Proof.
  unfold Update. intros Hrun.
  destruct (fn _) as [[[]|e] st]; by simplify_eq.
Qed.

Lemma newCommit_repository (s : Store) r s' :
  newCommit s = (r, s') →
  db s' = db s ∧
  tags (dbGitRepository s') = tags (dbGitRepository s) ∧
  currentBranch (dbGitRepository s') = currentBranch (dbGitRepository s) ∧
  (∀ c, c ≠ currentBranch (dbGitRepository s) →
     branches (dbGitRepository s') !! c = branches (dbGitRepository s) !! c) ∧
  (is_Some (branches (dbGitRepository s) !! currentBranch (dbGitRepository s)) →
   is_Some (branches (dbGitRepository s') !! currentBranch (dbGitRepository s))).
Proof.
  unfold newCommit. intros Hrun.
  destruct (checkpointFails (db s)); simplify_eq; [done|]. simpl.
  split_and!; [done..| |].
  - intros c Hc. by rewrite lookup_insert_ne.
  - intros _. rewrite lookup_insert_eq. by eexists.
Qed.

Lemma storeStep_repository (s s' : Store) :
  storeStep s s' →
  tags (dbGitRepository s') = tags (dbGitRepository s) ∧
  currentBranch (dbGitRepository s') = currentBranch (dbGitRepository s) ∧
  (∀ c, c ≠ currentBranch (dbGitRepository s) →
     branches (dbGitRepository s') !! c = branches (dbGitRepository s) !! c) ∧
  (is_Some (branches (dbGitRepository s) !! currentBranch (dbGitRepository s)) →
   is_Some (branches (dbGitRepository s') !! currentBranch (dbGitRepository s))).
Proof.
  assert (∀ s s' fn r, Update s fn = (r, s') →
            tags (dbGitRepository s') = tags (dbGitRepository s) ∧
            currentBranch (dbGitRepository s') =
              currentBranch (dbGitRepository s) ∧
            (∀ c, c ≠ currentBranch (dbGitRepository s) →
               branches (dbGitRepository s') !! c =
                 branches (dbGitRepository s) !! c) ∧
            (is_Some (branches (dbGitRepository s) !!
                        currentBranch (dbGitRepository s)) →
             is_Some (branches (dbGitRepository s') !!
                        currentBranch (dbGitRepository s)))) as Hupdate.
  { intros s0 s0' fn r ->%Update_repository. done. }
  intros [s0 block collections transactions transactionResults delta events
            r s0' Hrun| | | | | | |s0 r s0' Hrun]; try (by eapply Hupdate).
  - unfold CommitBlock in Hrun. case_decide; [by simplify_eq|].
    destruct (Update _ _) as [[[]|e] s1] eqn:Hupd.
    + apply Update_repository in Hupd.
      apply newCommit_repository in Hrun as (_ & Ht & Hc & Hb & Hh).
      rewrite Hupd in *. done.
    + simplify_eq. by eapply Hupdate.
  - apply newCommit_repository in Hrun as (_ & Ht & Hc & Hb & Hh). done.
Qed.

Lemma session_repository (s s' : Store) :
  rtc storeStep s s' →
  tags (dbGitRepository s') = tags (dbGitRepository s) ∧
  currentBranch (dbGitRepository s') = currentBranch (dbGitRepository s) ∧
  (∀ c, c ≠ currentBranch (dbGitRepository s) →
     branches (dbGitRepository s') !! c = branches (dbGitRepository s) !! c) ∧
  (is_Some (branches (dbGitRepository s) !! currentBranch (dbGitRepository s)) →
   is_Some (branches (dbGitRepository s') !! currentBranch (dbGitRepository s))).
Proof.
  induction 1 as [s|s s1 s2 Hstep _ IH]; [done|].
  apply storeStep_repository in Hstep as (Ht & Hc & Hb & Hh).
  destruct IH as (Ht' & Hc' & Hb' & Hh'). rewrite Hc in *.
  split_and!; [congruence..| |by auto].
  intros c Hne. by rewrite Hb', Hb.
Qed.

(** The first jump to a context takes a snapshot of the database, and a
    later jump to it, after any writes of the session, opens the database
    of the snapshot again, on a new branch. *)
Theorem JumpToContext_returns_to_snapshot (s s1 s2 : Store)
    (context u1 u2 : string) :
  branches (dbGitRepository s) !! context = None →
  tags (dbGitRepository s) !! context = None →
  context ≠ currentBranch (dbGitRepository s) →
  JumpToContext s context u1 = (Ok tt, s1) →
  rtc storeStep s1 s2 →
  branches (dbGitRepository s2) !! u2 = None →
  checkpointFails (db s2) = false →
  db s1 = db s ∧
  ∃ s3, JumpToContext s2 context u2 = (Ok tt, s3) ∧
        db s3 = db s ∧
        currentBranch (dbGitRepository s3) = u2 ∧
        tags (dbGitRepository s3) !! context = Some (db s).
Proof.
  intros Hbranch Htag Hcur Hjump Hsession Hfresh Hcheck.
  unfold JumpToContext, newCommit in Hjump.
  destruct (checkpointFails (db s)); [done|]. simpl in Hjump.
  rewrite lookup_insert_ne, Hbranch, Htag in Hjump by done.
  simplify_eq.
  apply session_repository in Hsession as (Ht & Hc & Hb & Hh). simpl in *.
  split; [done|].
  unfold JumpToContext, newCommit. rewrite Hcheck. simpl. rewrite Hc.
  rewrite lookup_insert_eq.
  assert (u2 ≠ context) as Hne.
  { intros ->. destruct Hh as [head Hhead].
    - rewrite lookup_insert_eq. by eexists.
    - congruence. }
  rewrite lookup_insert_ne, Hfresh by done.
  rewrite Ht, lookup_insert_eq. simpl.
  eexists. split; [done|]. simpl. by rewrite lookup_insert_eq.
Qed.

End Snapshots.

(** ** Blocks, collections, transactions and results *)

Section Entities.
Context {encoding : Encoding} {hashing : Hashing} {faults : Faults}.

Lemma Update_Ok (s : Store) (fn : Txn unit) s' :
  Update s fn = (Ok tt, s') →
  ∃ st, fn (mkTxnState (db s) (ledgerChangeLog s)) = (Ok tt, st) ∧
        db s' = txnDB st ∧ ledgerChangeLog s' = txnChangeLog st.
Proof.
  unfold Update. intros Hrun.
  destruct (fn _) as [[[]|e] st]; simplify_eq. by exists st.
Qed.

(** A stored block is read back under its height and under its id, and
    it becomes the latest block exactly when no higher block is. *)
Theorem StoreBlock_read_back (s s' : Store) (block : Block) (l : N) :
  StoreBlock s block = (Ok tt, s') →
  latestHeightOf (db s) = Some l →
  BlockByHeight s' (Height (BlockHeader block)) = Ok block ∧
  BlockByID s' (BlockID block) = Ok block ∧
  (l ≤ Height (BlockHeader block) → LatestBlock s' = Ok block) ∧
  (Height (BlockHeader block) < l →
   db s' !! latestBlockKey = db s !! latestBlockKey).
Proof.
  intros (st & Hstore & Hdb & _)%Update_Ok Hlatest.
  destruct (store_Ok _ _ _ Hstore)
    as (encBlock & encHeight & latest & HencB & HencH & Hl & HdbB & HdbI & Hptr).
  simpl in Hl. simplify_eq. rewrite <- Hdb in *.
  assert (decodeUint64 encHeight = Some (Height (BlockHeader block))) as HdecH
    by (by apply decode_encode_Uint64).
  assert (decodeBlock encBlock = Some block) as HdecB
    by (by apply decode_encode_Block).
  split_and!.
  - by eapply BlockByHeight_lookup.
  - unfold BlockByID, ViewTxn, bind, getTx, decoded. simpl.
    rewrite HdbI, HdecH. simpl. by rewrite HdbB, HdecB.
  - intros Hle. rewrite decide_True in Hptr by done.
    unfold LatestBlock, ViewTxn, getLatestBlockHeightTx, bind, getTx, decoded.
    simpl. rewrite Hptr, HdecH. simpl. by rewrite HdbB, HdecB.
  - intros Hlt. rewrite decide_False in Hptr by lia. done.
Qed.

(** What is inserted is read back under its id. *)
Theorem insert_read_back (s s' : Store) :
  (∀ col, InsertCollection s col = (Ok tt, s') →
     CollectionByID s' (CollectionID col) = Ok col) ∧
  (∀ tx, InsertTransaction s tx = (Ok tt, s') →
     TransactionByID s' (TxID tx) = Ok tx) ∧
  (∀ txID result, InsertTransactionResult s txID result = (Ok tt, s') →
     TransactionResultByID s' txID = Ok result).
Proof.
  split_and!.
  - intros col (st & Hrun & Hdb & _)%Update_Ok.
    unfold insertCollection in Hrun. txn_inv.
    unfold CollectionByID, ViewTxn, bind, getTx, decoded. simpl in *.
    rewrite Hdb, lookup_insert_eq.
    by erewrite decode_encode_Collection.
  - intros tx (st & Hrun & Hdb & _)%Update_Ok.
    unfold insertTransaction in Hrun. txn_inv.
    eapply TransactionByID_lookup; [|done]. simpl in *.
    by rewrite Hdb, lookup_insert_eq.
  - intros txID result (st & Hrun & Hdb & _)%Update_Ok.
    unfold insertTransactionResult in Hrun. txn_inv.
    eapply TransactionResultByID_lookup; [|done]. simpl in *.
    by rewrite Hdb, lookup_insert_eq.
Qed.

End Entities.

(** ** Reading what is not stored *)

Section NotFound.
Context {encoding : Encoding} {hashing : Hashing}.

(** A read of a key that holds no entry is answered with the not-found
    error of its kind; in the pending block a transaction is found before
    the storage is asked. *)
Theorem facade_not_found (b : Blockchain) :
  (∀ height, db (storage b) !! blockKey height = None →
     GetBlockByHeight b height = Err (BlockNotFoundByHeightError height)) ∧
  (∀ id, db (storage b) !! blockIDIndexKey id = None →
     GetBlockByID b id = Err (BlockNotFoundByIDError id)) ∧
  (∀ colID, db (storage b) !! collectionKey colID = None →
     GetCollection b colID = Err (CollectionNotFoundError colID)) ∧
  (∀ txID, db (storage b) !! transactionKey txID = None →
     pbGetTransaction (pendingBlockOf b) txID = None →
     GetTransaction b txID = Err (TransactionNotFoundError txID)) ∧
  (∀ txID tx, pbGetTransaction (pendingBlockOf b) txID = Some tx →
     GetTransaction b txID = Ok tx).
Proof.
  split_and!.
  - intros height Hnone.
    unfold GetBlockByHeight, getBlockByHeight, BlockByHeight, ViewTxn, bind,
      getTx. simpl. by rewrite Hnone.
  - intros id Hnone.
    unfold GetBlockByID, BlockByID, ViewTxn, bind, getTx. simpl.
    by rewrite Hnone.
  - intros colID Hnone.
    unfold GetCollection, CollectionByID, ViewTxn, bind, getTx. simpl.
    by rewrite Hnone.
  - intros txID Hnone Hpending.
    unfold GetTransaction, TransactionByID, ViewTxn, bind, getTx. simpl.
    by rewrite Hpending, Hnone.
  - intros txID tx Hpending. unfold GetTransaction. by rewrite Hpending.
Qed.

End NotFound.

(** ** More on block commits *)

Section CommitMore.
Context {encoding : Encoding} {hashing : Hashing} {faults : Faults}.


(** A commit writes under the keys of its block only: every other entry,
    a block or an event at another height, a register value written at
    another height, another transaction, is left as it is, whether the
    commit succeeds or fails. *)
Theorem CommitBlock_writes_its_keys_only (s : Store) (block : Block)
    (collections : list LightCollection)
    (transactions : gmap N TransactionBody)
    (transactionResults : gmap N StorableTransactionResult)
    (delta : list (RegisterID * option string)) (events : list Event)
    (k : Key) :
  ¬ committedKey block collections transactions transactionResults delta
      events k →
  db (CommitBlock s block collections transactions transactionResults delta
        events).2 !! k = db s !! k.
Proof.
  intros Hk. eapply CommitBlock_frame; [apply surjective_pairing|done].
Qed.

(** The latest height after a commit is the greater of the latest height
    before and the height of the block. *)
Theorem CommitBlock_latest_height (s s' : Store) (block : Block)
    (collections : list LightCollection)
    (transactions : gmap N TransactionBody)
    (transactionResults : gmap N StorableTransactionResult)
    (delta : list (RegisterID * option string)) (events : list Event)
    (l : N) :
  CommitBlock s block collections transactions transactionResults delta
    events = (Ok tt, s') →
  ViewTxn s getLatestBlockHeightTx = Ok l →
  ViewTxn s' getLatestBlockHeightTx = Ok (N.max l (Height (BlockHeader block))) ∧
  BlockByHeight s' (Height (BlockHeader block)) = Ok block ∧
  BlockByID s' (BlockID block) = Ok block.
Proof.
  intros Hcommit Hlatest. split_and!.
  - by eapply CommitBlock_latest_max.
  - by eapply committed_block_stored.
  - eapply CommitBlock_block_by_id; [done|by left].
Qed.

End CommitMore.

(** ** More on the ledger *)

Section LedgerMore.
Context {encoding : Encoding} {hashing : Hashing} {faults : Faults}
  {sentinel : Sentinel}.

Lemma changelist_sorted
    (hist : list (N * list (RegisterID * option string))) (s : Store)
    (r : RegisterID) :
  ledgerCommits emptyStore hist s →
  wellFormedHistory hist →
  StronglySorted N.lt (getChangelist (ledgerChangeLog s) r).
Proof.
  intros Hcommits Hwf.
  destruct (ledgerCommits_inv _ _ Hcommits Hwf) as (Icl & _ & _).
  rewrite Icl. apply filter_heights_sorted. by destruct Hwf.
Qed.

(** The changelist of every register grows strictly: the binary search of
    the changelog runs on a sorted list. *)
Theorem changelists_increasing
    (hist : list (N * list (RegisterID * option string))) (s : Store)
    (r : RegisterID) :
  ledgerCommits emptyStore hist s →
  wellFormedHistory hist →
  StronglySorted N.lt (getChangelist (ledgerChangeLog s) r).
Proof. apply changelist_sorted. Qed.

(** A height above those of a sorted changelist is not what a search
    below it finds. *)
Lemma search_app_above (blocks : list N) (top n : N) :
  StronglySorted N.lt (blocks ++ [top]) →
  n < top →
  search (blocks ++ [top]) n = search blocks n.
Proof.
  intros Hsorted Hn.
  pose proof Hsorted as (_ & Hblocks & _)%StronglySorted_app.
  destruct (search blocks n) as [c|] eqn:Hsearch.
  - apply (search_Some _ _ _ Hblocks) in Hsearch as (Hin & Hle & Hmax).
    apply search_Some; [done|]. split_and!; [set_solver|done|].
    intros c' [Hc'|Hc']%elem_of_app Hc'n; [by apply Hmax|].
    apply list_elem_of_singleton in Hc'. lia.
  - pose proof (proj1 (search_None _ _ Hblocks) Hsearch) as Hnone.
    apply search_None; [done|].
    intros c [Hc|Hc]%elem_of_app; [by apply Hnone|].
    apply list_elem_of_singleton in Hc. lia.
Qed.

(** The past does not change: a block committed above the history leaves
    every read of the ledger at a lower height as it was. *)
Theorem committed_ledger_immutable
    (hist : list (N * list (RegisterID * option string))) (s s' : Store)
    (block : Block) (collections : list LightCollection)
    (transactions : gmap N TransactionBody)
    (transactionResults : gmap N StorableTransactionResult)
    (delta : list (RegisterID * option string)) (events : list Event)
    (h : N) (r : RegisterID) :
  ledgerCommits emptyStore hist s →
  wellFormedHistory (hist ++ [(Height (BlockHeader block), delta)]) →
  CommitBlock s block collections transactions transactionResults delta
    events = (Ok tt, s') →
  h < Height (BlockHeader block) →
  LedgerViewByHeight s' h r = LedgerViewByHeight s h r.
Proof.
  intros Hcommits Hwf Hcommit Hh.
  destruct (wellFormedHistory_snoc _ _ Hwf) as (Hwf0 & Hnodup & Hsentinel & Hlt).
  simpl in *.
  pose proof (changelist_sorted _ _ r Hcommits Hwf0) as Hsorted.
  assert (∀ c, c ∈ getChangelist (ledgerChangeLog s) r →
            c < Height (BlockHeader block)) as Hbelow.
  { intros c (d & Hd & _)%(changelog_entries hist s r c Hcommits Hwf0).
    apply (Hlt _ Hd). }
  destruct (ledger_step s (Height (BlockHeader block)) delta s')
    as (Hlog & _ & Hvalues & _); [right; eauto 10|done|].
  assert (getMostRecentChange (ledgerChangeLog s') r h =
          getMostRecentChange (ledgerChangeLog s) r h) as Hrecent.
  { unfold getMostRecentChange. rewrite Hlog. case_decide; [|done].
    rewrite search_app_above; [done| |done].
    apply StronglySorted_app. split_and!; [|done|repeat constructor].
    intros c c' Hc ->%list_elem_of_singleton. by apply Hbelow. }
  unfold LedgerViewByHeight. rewrite Hrecent.
  set (c := getMostRecentChange (ledgerChangeLog s) r h).
  assert (c ≠ Height (BlockHeader block)) as Hc.
  { unfold c, getMostRecentChange.
    destruct (search _ h) as [c0|] eqn:Hsearch; simpl; [|congruence].
    apply (search_Some _ _ _ Hsorted) in Hsearch as (Hin & _).
    apply Hbelow in Hin. lia. }
  unfold ViewTxn, getTx. simpl. rewrite Hvalues by (by intros [? _]).
  by destruct (db s !! ledgerValueKey r c).
Qed.






End LedgerMore.

(** ** More on events *)

Section EventsMore.
Context {encoding : Encoding} {hashing : Hashing} {faults : Faults}.

Lemma storeStep_eventsWellFormed (s s' : Store) :
  storeStep s s' → eventsWellFormed (db s) → eventsWellFormed (db s').
Proof.
  intros [s0 block collections transactions transactionResults delta events
            r s0' Hrun
         |s0 block r s0' Hrun|s0 col r s0' Hrun|s0 tx r s0' Hrun
         |s0 txID result r s0' Hrun|s0 blockHeight delta r s0' Hrun
         |s0 blockHeight events r s0' Hrun|s0 r s0' Hrun] Hwf.
  - by eapply CommitBlock_eventsWellFormed.
  - eapply Update_eventsWellFormed; [|exact Hrun|done].
    apply respects_store; [apply _|..]; intros;
      by apply eventsKept_setKey_other.
  - eapply Update_eventsWellFormed; [|exact Hrun|done].
    apply respects_insertCollection; [apply _|]. intros.
    by apply eventsKept_setKey_other.
  - eapply Update_eventsWellFormed; [|exact Hrun|done].
    apply respects_insertTransaction; [apply _|]. intros.
    by apply eventsKept_setKey_other.
  - eapply Update_eventsWellFormed; [|exact Hrun|done].
    apply respects_insertTransactionResult; [apply _|]. intros.
    by apply eventsKept_setKey_other.
  - eapply Update_eventsWellFormed; [|exact Hrun|done].
    apply insertLedgerDelta_eventsKept.
  - eapply Update_eventsWellFormed; [|exact Hrun|done].
    apply insertEvents_eventsKept.
  - unfold Close, newCommit in Hrun.
    destruct (checkpointFails _); by simplify_eq.
Qed.

Lemma session_eventsWellFormed (s s' : Store) :
  rtc storeStep s s' → eventsWellFormed (db s) → eventsWellFormed (db s').
Proof.
  induction 1 as [s0|s0 s1 s2 Hstep _ IH]; [done|].
  intros Hwf0. by apply IH, (storeStep_eventsWellFormed _ _ Hstep).
Qed.

(** Whatever a session wrote, starting from the empty store, every entry
    of an event decodes to an event that carries the indices and the type
    of its key, and no read of the events of a block fails. *)
Theorem session_events_readable (s : Store) (h : N) (eventType : string) :
  rtc storeStep emptyStore s →
  eventsWellFormed (db s) ∧
  ∃ events, EventsByHeight s h eventType = Ok events.
Proof.
  intros Hsession.
  assert (eventsWellFormed (db s)) as Hwf.
  { apply (session_eventsWellFormed _ _ Hsession).
    intros h' t e ty b. simpl. by rewrite lookup_empty. }
  split; [done|]. unfold EventsByHeight. rewrite iterate_events.
  destruct (collectEvents_Ok
              (filter (λ entry, eventKeyBlockPrefix h entry.1)
                 (sortedEntries (db s))) eventType [])
    as (events & Hrun & _); [|by exists events].
  apply Forall_forall.
  intros [k v] [(t & e & ty & ->) Hv]%elem_of_event_entries.
  destruct (Hwf _ _ _ _ _ Hv) as (event & Hdec & _). simpl. rewrite Hdec.
  by eexists.
Qed.

End EventsMore.

(** ** More on the facade *)

Section FacadeMore.
Context {encoding : Encoding} {hashing : Hashing} {faults : Faults}
  {sentinel : Sentinel} {externals : Externals}.

Lemma executeLoop_completes (fuel : nat) (results : list TransactionResult)
    (b : Blockchain) results' b' :
  (length (pbTransactions (pendingBlockOf b)) -
     N.to_nat (pbIndex (pendingBlockOf b)) ≤ fuel)%nat →
  executeLoop fuel results b = ((results', None), b') →
  ExecutionComplete (pendingBlockOf b') = true ∧
  ∃ new, results' = results ++ new ∧
         pbIndex (pendingBlockOf b') =
           pbIndex (pendingBlockOf b) + N.of_nat (length new).
Proof.
  revert results b.
  induction fuel as [|fuel IH]; intros results b Hfuel Hrun; simpl in Hrun.
  - simplify_eq. split.
    + apply bool_decide_eq_true. lia.
    + exists []. rewrite app_nil_r. split; [done|]. simpl. lia.
  - destruct (ExecutionComplete (pendingBlockOf b)) eqn:Hcomplete.
    + simplify_eq. split; [done|]. exists []. rewrite app_nil_r.
      split; [done|]. simpl. lia.
    + apply bool_decide_eq_false in Hcomplete.
      destruct (executeNextTransaction b) as [[result|e] b1] eqn:Hnext;
        [|by simplify_eq].
      apply executeNextTransaction_frame in Hnext
        as (_ & _ & _ & Ht & _ & Hi).
      specialize (Hi result eq_refl).
      apply IH in Hrun as (Hdone & new & -> & Hindex); [|rewrite Ht, Hi; lia].
      split; [done|]. exists (result :: new).
      rewrite <- app_assoc. split; [done|]. rewrite Hindex, Hi. simpl. lia.
Qed.

(** When [executeBlock] returns no error, nothing is left to execute: the
    pending block is complete and has moved on by one transaction for
    every result returned. *)
Theorem executeBlock_completes (b b' : Blockchain)
    (results : list TransactionResult) :
  executeBlock b = ((results, None), b') →
  ExecutionComplete (pendingBlockOf b') = true ∧
  pbIndex (pendingBlockOf b') =
    pbIndex (pendingBlockOf b) + N.of_nat (length results) ∧
  pbTransactions (pendingBlockOf b') = pbTransactions (pendingBlockOf b) ∧
  storage b' = storage b.
Proof.
  intros Hrun.
  pose proof (executeBlock_frame _ _ _ Hrun) as (Hs & _ & _ & Ht & _).
  unfold executeBlock in Hrun.
  destruct (Empty (pendingBlockOf b)) eqn:Hempty.
  - simplify_eq. split_and!; [by apply Empty_ExecutionComplete|simpl; lia|done..].
  - destruct (ExecutionComplete (pendingBlockOf b)); [done|].
    apply executeLoop_completes in Hrun as (Hdone & new & Hnew & Hindex);
      [|lia].
    simpl in Hnew. subst new. done.
Qed.

(** A reset puts an empty pending block on the latest block and leaves the
    storage alone; a transaction is then no longer refused because of an
    execution that has started. *)
Theorem ResetPendingBlock_fresh (now : N) (b b' : Blockchain) :
  ResetPendingBlock now b = (Ok tt, b') →
  storage b' = storage b ∧
  (∃ latestBlock,
     LatestBlock (storage b) = Ok latestBlock ∧
     pbHeader (pendingBlockOf b') =
       mkHeader (Height (BlockHeader latestBlock) + 1) (BlockID latestBlock)
         now) ∧
  Empty (pendingBlockOf b') = true ∧
  ExecutionStarted (pendingBlockOf b') = false ∧
  ∀ tx blockID,
    (AddTransaction tx b').1 ≠ Err (PendingBlockMidExecutionError blockID).
Proof.
  unfold ResetPendingBlock. intros Hrun.
  destruct (LatestBlock (storage b)) as [latestBlock|e] eqn:Hlatest;
    [|done].
  simplify_eq. split_and!; [done|by exists latestBlock|done..|].
  intros tx blockID. unfold AddTransaction, addTransaction. simpl.
  destruct (TransactionByID _ _) as [stored|[]]; try done.
  by destruct (validate _ _).
Qed.

(** A successful commit moves the latest height on by one and anchors the
    new pending block on the committed block. *)
Theorem commitBlock_keeps_anchor (now : N) (b b' : Blockchain) (block : Block)
    (l : N) :
  ViewTxn (storage b) getLatestBlockHeightTx = Ok l →
  Height (pbHeader (pendingBlockOf b)) = l + 1 →
  commitBlock now b = (Ok block, b') →
  ViewTxn (storage b') getLatestBlockHeightTx = Ok (l + 1) ∧
  LatestBlock (storage b') = Ok block ∧
  pbHeader (pendingBlockOf b') = mkHeader (l + 2) (BlockID block) now ∧
  Empty (pendingBlockOf b') = true.
Proof.
  intros Hlatest Hheight
    (-> & _ & Hpending & trs & _ & Hstore)%commitBlock_Ok.
  destruct (CommitBlock_latest _ _ _ _ _ _ _ _ l Hstore Hlatest)
    as [Hlatest' Hblock]; [simpl; lia|].
  simpl in Hlatest'. rewrite Hheight in Hlatest'.
  split_and!; [done..| |by rewrite Hpending].
  rewrite Hpending. simpl. rewrite Hheight. f_equal. lia.
Qed.

(** [CreateAccount] on a pending block that has begun execution fails
    and commits nothing. *)
Theorem CreateAccount_mid_execution (publicKeys contracts : list string)
    (now1 now2 : N) (b : Blockchain) :
  ExecutionStarted (pendingBlockOf b) = true →
  ∃ e b',
    CreateAccount publicKeys contracts now1 now2 b = (Err e, b') ∧
    storage b' = storage b ∧ pendingBlockOf b' = pendingBlockOf b.
Proof.
  intros Hstarted. unfold CreateAccount. unfold bind at 1.
  destruct (getServiceKey b) as [[key|e] b1] eqn:Hkey;
    apply getServiceKey_frame in Hkey as [Hs Hp]; [|by eauto].
  unfold bind at 1.
  destruct (GetLatestBlock b1) as [latestBlock|e]; [|by eauto].
  unfold bind at 1.
  destruct (createAccountTransaction _ _ _ _) as [tx|]; [|by eauto].
  unfold bind at 1. unfold addTransaction. rewrite Hp, Hstarted. eauto.
Qed.

(** An accepted transaction is in the pending block: it is read back, its
    status is Pending, and submitting it again is refused as a duplicate.
    The storage is not touched. *)
Theorem AddTransaction_read_back (tx : TransactionBody) (b b' : Blockchain) :
  AddTransaction tx b = (Ok tt, b') →
  storage b' = storage b ∧
  GetTransaction b' (TxID tx) = Ok tx ∧
  GetTransactionResult b' (TxID tx) =
    Ok (mkSDKTransactionResult TransactionStatusPending None []) ∧
  AddTransaction tx b' = (Err (DuplicateTransactionError (TxID tx)), b').
Proof.
  intros (Hstarted & Hfresh & _ & _ & ->)%addTransaction_Ok.
  assert (pbGetTransaction (pbAddTransaction (pendingBlockOf b) tx) (TxID tx) =
          Some tx) as Hget.
  { unfold ContainsTransaction in Hfresh.
    apply bool_decide_eq_false in Hfresh.
    unfold pbGetTransaction, pbAddTransaction in *. simpl.
    destruct (list_find _ (pbTransactions (pendingBlockOf b))) eqn:Hfind;
      [destruct Hfresh; by eexists|].
    rewrite list_find_app_r by done. simpl.
    by rewrite decide_True. }
  assert (ContainsTransaction (pbAddTransaction (pendingBlockOf b) tx)
            (TxID tx) = true) as Hcontains.
  { unfold ContainsTransaction. apply bool_decide_eq_true. by eexists. }
  split_and!; [done| | |].
  - unfold GetTransaction. simpl. by rewrite Hget.
  - unfold GetTransactionResult. simpl. by rewrite Hcontains.
  - unfold AddTransaction, addTransaction. simpl.
    unfold ExecutionStarted in *. simpl. rewrite Hstarted.
    by rewrite Hcontains.
Qed.

(** The converted results keep the ids, in their order. *)
Lemma convertResults_Some (results : list (N * IndexedTransactionResult))
    (output : list (N * StorableTransactionResult)) :
  convertResults results = Some output →
  output.*1 = results.*1 ∧
  ∀ id result, (id, result) ∈ output →
    ∃ indexed, (id, indexed) ∈ results ∧
               ToStorableResult (itrTransaction indexed) = Some result.
Proof.
  revert output.
  induction results as [|[id0 indexed0] results IH]; intros output Hrun;
    simpl in Hrun.
  - simplify_eq. split; [done|]. by intros id result ?%elem_of_nil.
  - destruct (ToStorableResult _) as [temp|] eqn:Htemp; [|done].
    destruct (convertResults results) as [rest|]; [|done]. simplify_eq.
    destruct (IH rest eq_refl) as [Hkeys Hall]. split.
    + rewrite !fmap_cons. by rewrite Hkeys.
    + intros id result [[= -> ->]|Hin]%elem_of_cons.
      * exists indexed0. split; [apply list_elem_of_here|done].
      * destruct (Hall _ _ Hin) as (indexed & Hin' & Hres).
        exists indexed. split; [by apply list_elem_of_further|done].
Qed.

(** [convertToSealedResults] keeps the ids of the pending block: the
    sealed results have one entry for each id, which is the storable form
    of the result under that id. *)
Theorem convertToSealedResults_ids
    (results : gmap N IndexedTransactionResult)
    (output : gmap N StorableTransactionResult) :
  convertToSealedResults results = Some output →
  dom output = dom results ∧
  size output = size results ∧
  ∀ id result, output !! id = Some result →
    ∃ indexed, results !! id = Some indexed ∧
               ToStorableResult (itrTransaction indexed) = Some result.
Proof.
  unfold convertToSealedResults. intros Hrun.
  destruct (convertResults (map_to_list results)) as [out|] eqn:Hout;
    [|done].
  simpl in Hrun. simplify_eq.
  destruct (convertResults_Some _ _ Hout) as [Hkeys Hall].
  assert (dom (list_to_map out : gmap N StorableTransactionResult) =
          dom results) as Hdom.
  { rewrite dom_list_to_map_L, Hkeys.
    rewrite <- (list_to_map_to_list results) at 2.
    by rewrite dom_list_to_map_L. }
  split_and!; [done|by rewrite <- !size_dom, Hdom|].
  intros id result Hin%elem_of_list_to_map_2.
  destruct (Hall _ _ Hin) as (indexed & Hin' & Hres).
  exists indexed. split; [by apply elem_of_map_to_list|done].
Qed.

End FacadeMore.

(** ** Starting a blockchain *)

Section Start.
Context {encoding : Encoding} {hashing : Hashing} {faults : Faults}
  {sentinel : Sentinel}.

(** On a storage that records no latest block the genesis block is
    committed and becomes the latest block; on a storage that has a latest
    block nothing is committed.  Either way the pending block is empty and
    follows the latest block. *)
Theorem NewBlockchain_anchored (conf : config) (now : N) (b : Blockchain) :
  NewBlockchain conf now = Ok b →
  (db (confStore conf) !! latestBlockKey = None →
   LatestBlock (storage b) = Ok (confGenesis conf) ∧
   ViewTxn (storage b) getLatestBlockHeightTx =
     Ok (Height (BlockHeader (confGenesis conf))) ∧
   pbHeader (pendingBlockOf b) =
     mkHeader (Height (BlockHeader (confGenesis conf)) + 1)
       (BlockID (confGenesis conf)) now) ∧
  (∀ latestBlock,
     LatestBlock (confStore conf) = Ok latestBlock →
     storage b = confStore conf ∧
     pbHeader (pendingBlockOf b) =
       mkHeader (Height (BlockHeader latestBlock) + 1) (BlockID latestBlock)
         now) ∧
  Empty (pendingBlockOf b) = true ∧
  serviceKey b = confServiceKey conf.
Proof.
  unfold NewBlockchain, configureLedger, configureNewLedger,
    configureExistingLedger. intros Hrun.
  destruct (confFVMFails conf); [done|].
  destruct (LatestBlock (confStore conf)) as [latestBlock|e] eqn:Hlatest.
  - simplify_eq. simpl. split_and!; [|by intros ? [= <-]|done..].
    intros Hnone. unfold LatestBlock, ViewTxn, getLatestBlockHeightTx, bind,
      getTx in Hlatest. simpl in Hlatest. by rewrite Hnone in Hlatest.
  - destruct e; try done.
    destruct (confBootstrap conf _) as [delta|]; [|done].
    destruct (CommitBlock _ _ _ _ _ _ _) as [[[]|e] s'] eqn:Hcommit; [|done].
    simplify_eq. simpl. split_and!; [|done..].
    intros Hnone.
    destruct (CommitBlock_applied _ _ _ _ _ _ _ _ _ Hcommit)
      as (_ & st' & Htxn & Hdb & _); [by left|].
    destruct (commitBlockTxn_block _ _ _ _ _ _ _ _ Htxn)
      as (st1 & Hstore & Hfamily).
    destruct (store_Ok _ _ _ Hstore)
      as (encBlock & encHeight & latest & HencB & HencH & Hl & HdbB & _
          & Hptr).
    unfold latestHeightOf in Hl. simpl in Hl. rewrite Hnone in Hl.
    simplify_eq. rewrite decide_True in Hptr by lia.
    rewrite <- Hfamily in HdbB, Hptr by done. rewrite <- Hdb in HdbB, Hptr.
    unfold LatestBlock, ViewTxn, getLatestBlockHeightTx, bind, getTx,
      decoded. simpl. rewrite Hptr.
    rewrite (decode_encode_Uint64 _ _ HencH). simpl. rewrite HdbB.
    by rewrite (decode_encode_Block _ _ HencB).
Qed.

End Start.


(** * Runs of the model on the concrete environment *)

Import Sample.

(** A run that ends with the given result, and the state it ends in. *)
Lemma run_result {A B} (p : A * B) (a : A) : p.1 = a → p = (a, p.2).
Proof. destruct p. simpl. by intros ->. Qed.

(** A result that is not an error holds a value. *)
Lemma isOk_Ok {E A} (r : Result E A) : isOk r = true → ∃ a, r = Ok a.
Proof. destruct r; [eauto|done]. Qed.

(** Membership in a list that is written out. *)
Ltac elem_of_list :=
  repeat first [apply list_elem_of_here | apply list_elem_of_further].

Lemma sample_history_commits :
  ledgerCommits emptyStore Sample.history Sample.store5.
Proof.
  change Sample.history with
    ((([] ++ [(1, Sample.delta1)]) ++ [(2, Sample.delta2)]) ++ [(5, Sample.delta5)]).
  apply ledgerCommits_delta with Sample.store2;
    [|apply run_result; by vm_compute].
  apply ledgerCommits_delta with Sample.store1;
    [|apply run_result; by vm_compute].
  apply ledgerCommits_delta with emptyStore;
    [|apply run_result; by vm_compute].
  apply ledgerCommits_nil.
Qed.

Lemma sample_history_wellFormed : wellFormedHistory Sample.history.
Proof.
  split.
  - repeat (apply StronglySorted_cons; split; [repeat constructor; lia|]).
    constructor.
  - repeat (apply Forall_cons; split; [split; [|done]|]); [..|by apply Forall_nil];
      refine (bool_decide_unpack (NoDup _) _); by vm_compute.
Qed.

Lemma sample_changelist :
  getChangelist (ledgerChangeLog Sample.store5) Sample.balance = [1; 2; 5].
Proof. by vm_compute. Qed.

(** The deletion at height 2 is what a read at height 3 sees, and the
    write at height 5 is what a read at height 6 sees. *)
Lemma ledger_view_reads_latest_write_witness :
  LedgerViewByHeight Sample.store5 3 Sample.balance = Ok None ∧
  LedgerViewByHeight Sample.store5 6 Sample.balance = Ok (Some "30") ∧
  LedgerViewByHeight Sample.store5 0 Sample.balance = Ok None.
Proof.
  pose proof (ledger_view_reads_latest_write Sample.history Sample.store5 3
                Sample.balance sample_history_commits sample_history_wellFormed)
    as (_ & Hread3 & _).
  pose proof (ledger_view_reads_latest_write Sample.history Sample.store5 6
                Sample.balance sample_history_commits sample_history_wellFormed)
    as (_ & Hread6 & _).
  pose proof (ledger_view_reads_latest_write Sample.history Sample.store5 0
                Sample.balance sample_history_commits sample_history_wellFormed)
    as (_ & _ & Hread0).
  rewrite sample_changelist in *.
  assert (∀ c : N, c ∈ [1; 2; 5] → c = 1 ∨ c = 2 ∨ c = 5) as Hmem.
  { intros c Hc. rewrite !elem_of_cons in Hc.
    destruct Hc as [|[|[|Hc]]]; auto. apply elem_of_nil in Hc. destruct Hc. }
  split_and!.
  - apply (Hread3 2 Sample.delta2 None); [elem_of_list|lia| |elem_of_list..].
    intros c' Hc' ?. apply Hmem in Hc'. lia.
  - apply (Hread6 5 Sample.delta5 (Some "30")); [elem_of_list|lia| |elem_of_list..].
    intros c' Hc' ?. apply Hmem in Hc'. lia.
  - apply Hread0. intros c Hc. apply Hmem in Hc. lia.
Defined.

(** C1 fails on the code.  The changelog in memory is not always the
    changelog of the database that is open: [JumpToContext] keeps the
    changelog of the session it leaves, and a commit that Badger rolls back
    keeps the heights it added in memory.  In both runs below block 2 is then
    committed with a delta that leaves the balance register alone.  Height
    2 is committed, the last delta at or below it that wrote the balance is
    the one of block 1, which wrote "10", and the database holds that
    value; the read at height 2 finds the stale height 2 in the changelist
    of the balance, looks for a value under (balance, 2) and returns nil.
    A store that [New] opens on the same files reads "10". *)
Theorem LedgerViewByHeight_stale_changelist :
  ((CommitBlock emptyStore block1 [] ∅ ∅ delta1 []).1 = Ok tt ∧
   (JumpToContext jump0 "snap" "u1").1 = Ok tt ∧
   (CommitBlock jump1 block2 [] ∅ ∅ delta20 []).1 = Ok tt ∧
   (JumpToContext jump2 "snap" "u2").1 = Ok tt ∧
   (CommitBlock jump3 block2 [] ∅ ∅ delta2x []).1 = Ok tt ∧
   ViewTxn jump4 getLatestBlockHeightTx = Ok 2 ∧
   db jump4 !! ledgerValueKey balance 1 = Some "10" ∧
   db jump4 !! ledgerValueKey balance 2 = None ∧
   db jump4 !! ledgerChangelogKey balance ≫= decodeChangelist = Some [1] ∧
   getChangelist (ledgerChangeLog jump4) balance = [1; 2] ∧
   LedgerViewByHeight jump4 2 balance = Ok None ∧
   (New (db jump4) (dbGitRepository jump4)).1 = Ok tt ∧
   getChangelist (ledgerChangeLog reopened4) balance = [1] ∧
   LedgerViewByHeight reopened4 2 balance = Ok (Some "10")) ∧
  ((@CommitBlock encoding hashing eventsRefused jump0 block2 [] ∅ ∅ delta20
      [event 0 0 "A"]).1 = Err ErrBadgerSet ∧
   (CommitBlock refused block2 [] ∅ ∅ delta2x []).1 = Ok tt ∧
   ViewTxn retried getLatestBlockHeightTx = Ok 2 ∧
   db retried !! ledgerValueKey balance 1 = Some "10" ∧
   db retried !! ledgerValueKey balance 2 = None ∧
   db retried !! ledgerChangelogKey balance ≫= decodeChangelist = Some [1] ∧
   getChangelist (ledgerChangeLog retried) balance = [1; 2] ∧
   LedgerViewByHeight retried 2 balance = Ok None).
Proof. split; split_and!; by vm_compute. Qed.

(** C2 fails on the code: the second jump to "snap" opens the database of
    the snapshot, in which the balance register changed at height 1 only,
    and keeps the changelog of the session, in which it changed at heights
    1 and 2.  The changelog rebuilt from the reopened database, which is
    what a restart on the same files starts with, differs from it, and a
    read at height 2 finds nothing where the snapshot holds "10". *)
Lemma JumpToContext_stale_changelog :
  (CommitBlock emptyStore block1 [] ∅ ∅ delta1 []).1 = Ok tt ∧
  (JumpToContext jump0 "snap" "u1").1 = Ok tt ∧
  (CommitBlock jump1 block2 [] ∅ ∅ delta20 []).1 = Ok tt ∧
  (JumpToContext jump2 "snap" "u2").1 = Ok tt ∧
  (New (db jump3) (dbGitRepository jump3)).1 = Ok tt ∧
  db jump3 !! ledgerValueKey balance 1 = Some "10" ∧
  db jump3 !! ledgerValueKey balance 2 = None ∧
  isOk (rebuildChangelog (db jump3)) = true ∧
  (∀ c, rebuildChangelog (db jump3) = Ok c → getChangelist c balance = [1]) ∧
  getChangelist (ledgerChangeLog reopened) balance = [1] ∧
  getChangelist (ledgerChangeLog jump3) balance = [1; 2] ∧
  LedgerViewByHeight reopened 2 balance = Ok (Some "10") ∧
  LedgerViewByHeight jump3 2 balance = Ok None.
Proof.
  do 8 (split; [by vm_compute|]).
  split; [|split_and!; by vm_compute].
  intros c Hc.
  assert (match rebuildChangelog (db jump3) with
          | Ok c => getChangelist c balance
          | Err _ => []
          end = [1]) as Hrebuilt by (by vm_compute).
  by rewrite Hc in Hrebuilt.
Qed.



(** C4, as stated, fails: when the snapshot repository refuses the commit
    that follows the transaction, [CommitBlock] returns an error and the
    block is in the database. *)
Lemma commit_error_after_writes :
  ¬ (∀ (faults : Faults) (s : Store) (block : Block)
       (collections : list LightCollection)
       (transactions : gmap N TransactionBody)
       (transactionResults : gmap N StorableTransactionResult)
       (delta : list (RegisterID * option string)) (events : list Event)
       (e : StoreError) (s' : Store),
       @CommitBlock encoding hashing faults s block collections transactions
         transactionResults delta events = (Err e, s') →
       db s' = db s ∧ ledgerChangeLog s' = ledgerChangeLog s).
Proof.
  intros Hclaim.
  destruct (Hclaim brokenRepository emptyStore block1 [] ∅ ∅ delta1 [] ErrGit
              (@CommitBlock encoding hashing brokenRepository emptyStore block1
                 [] ∅ ∅ delta1 []).2) as [Hdb _];
    [apply run_result; by vm_compute|].
  apply (f_equal (λ d, is_Some (d !! blockKey 1))) in Hdb.
  assert (is_Some (db (@CommitBlock encoding hashing brokenRepository emptyStore
                         block1 [] ∅ ∅ delta1 []).2 !! blockKey 1)) as Hsome.
  { apply (bool_decide_unpack _). by vm_compute. }
  rewrite Hdb in Hsome. by destruct Hsome.
Qed.

(** The in-memory changelog is not part of the transaction: when Badger
    refuses the entry of an event, after the delta was inserted, the
    database is rolled back and the changelog keeps the new height.  A read
    at that height then looks for a value that was never written. *)
Lemma failed_commit_keeps_changelog_entries :
  let failed :=
    @CommitBlock encoding hashing eventsRefused store1 block2 [] ∅ ∅
      [(balance, Some "20")] [event 0 0 "A"] in
  failed.1 = Err ErrBadgerSet ∧
  db failed.2 !! ledgerValueKey balance 2 = None ∧
  getChangelist (ledgerChangeLog store1) balance = [1] ∧
  getChangelist (ledgerChangeLog failed.2) balance = [1; 2] ∧
  LedgerViewByHeight store1 2 balance = Ok (Some "10") ∧
  LedgerViewByHeight failed.2 2 balance = Ok None.
Proof. by vm_compute. Qed.

Lemma CommitBlock_database_atomic_witness :
  BlockByHeight committed1 1 = Ok block1 ∧
  BlockByID committed1 (BlockID block1) = Ok block1 ∧
  CollectionByID committed1 (CollectionID (mkLightCollection [TxID tx1])) =
    Ok (mkLightCollection [TxID tx1]) ∧
  TransactionByID committed1 (TxID tx1) = Ok tx1 ∧
  TransactionResultByID committed1 (TxID tx1) =
    Ok (mkStorableTransactionResult 0 "" [] [event 0 0 "A"]) ∧
  db committed1 !! ledgerValueKey balance 1 = Some "10" ∧
  getChangelist (ledgerChangeLog committed1) balance = [1] ∧
  (∃ enc, db committed1 !! eventKey 1 0 0 "A" = Some enc ∧
          decodeEvent enc = Some (event 0 0 "A")) ∧
  db committed1 !! blockKey 0 = None.
Proof.
  destruct (CommitBlock_database_atomic emptyStore block1
              [mkLightCollection [TxID tx1]] {[TxID tx1 := tx1]}
              {[TxID tx1 := mkStorableTransactionResult 0 "" [] [event 0 0 "A"]]}
              delta1 [event 0 0 "A"] (Ok tt) committed1) as [_ Happlied];
    [apply run_result; by vm_compute|].
  destruct Happlied
    as (Hblock & Hid & _ & Htx & Hres & _ & _ & _ & Hcols & Hdelta & Hevents &
        Hframe);
    [by left|].
  destruct Hdelta as [Hvals Hlists].
  { apply NoDup_singleton. }
  split_and!.
  - exact Hblock.
  - exact Hid.
  - apply Hcols; [|elem_of_list].
    intros col1 col2 Hcol1%list_elem_of_singleton Hcol2%list_elem_of_singleton _.
    by rewrite Hcol1, Hcol2.
  - apply Htx. apply lookup_singleton_eq.
  - apply Hres. apply lookup_singleton_eq.
  - apply (Hvals balance "10"). elem_of_list.
  - apply (Hlists balance). elem_of_list.
  - refine (Hevents _ (event 0 0 "A") _); [|elem_of_list].
    intros e1 e2 He1%list_elem_of_singleton He2%list_elem_of_singleton _ _ _.
    by rewrite He1, He2.
  - rewrite Hframe; [done|]. simpl. lia.
Defined.


(** A transaction of the pending block, and one of a committed block, are
    refused as duplicates. *)
Lemma addTransaction_duplicate_witness :
  addTransaction tx1 chain2 = (Err (DuplicateTransactionError (TxID tx1)), chain2) ∧
  addTransaction tx1 chain5 = (Err (DuplicateTransactionError (TxID tx1)), chain5).
Proof.
  split.
  - apply addTransaction_duplicate; [by vm_compute|left; by vm_compute].
  - apply addTransaction_duplicate; [by vm_compute|right].
    apply isOk_Ok. by vm_compute.
Defined.

(** After the first of two transactions is executed, and after the second
    one is, a third transaction is refused. *)
Lemma AddTransaction_after_execution_witness :
  AddTransaction tx1 chain4 =
    (Err (PendingBlockMidExecutionError (pbID (pendingBlockOf chain4))), chain4) ∧
  pbTransactions (pendingBlockOf chain4) = pbTransactions (pendingBlockOf chain2).
Proof.
  destruct (isOk_Ok (ExecuteNextTransaction chain2).1) as [result Hresult];
    [by vm_compute|].
  apply (AddTransaction_after_execution chain2 chain3 chain4 result tx1).
  - apply run_result, Hresult.
  - apply rtc_once. eapply keeps_ExecuteNextTransaction. apply surjective_pairing.
Defined.

(** The three statuses on the sample blockchain. *)
Lemma GetTransactionResult_status_witness :
  GetTransactionResult chain1 (TxID tx1) =
    Ok (mkSDKTransactionResult TransactionStatusPending None []) ∧
  GetTransactionResult chain1 (TxID tx2) =
    Ok (mkSDKTransactionResult TransactionStatusUnknown None []) ∧
  ∃ storedResult result,
    TransactionResultByID (storage chain5) (TxID tx1) = Ok storedResult ∧
    GetTransactionResult chain5 (TxID tx1) = Ok result ∧
    Status result = TransactionStatusSealed ∧
    sdkEvents result = sdkEventOf <$> Events storedResult ∧
    (Error result = None ↔ ErrorCode storedResult = 0).
Proof.
  destruct (GetTransactionResult_status chain1 (TxID tx1)) as (Hpending & _ & _).
  destruct (GetTransactionResult_status chain1 (TxID tx2)) as (_ & Hunknown & _).
  destruct (GetTransactionResult_status chain5 (TxID tx1)) as (_ & _ & Hsealed).
  split_and!.
  - apply Hpending. by vm_compute.
  - apply Hunknown; by vm_compute.
  - destruct (isOk_Ok (TransactionResultByID (storage chain5) (TxID tx1)))
      as [storedResult Hstored]; [by vm_compute|].
    destruct (Hsealed storedResult (sdkEventOf <$> Events storedResult))
      as (result & Hrun & Hstatus & Hevents & Herror & _);
      [by vm_compute|done..|].
    exists storedResult, result.
    exact (conj Hstored (conj Hrun (conj Hstatus (conj Hevents Herror)))).
Defined.

(** The events of the sample block, committed out of order, come back in
    order, all of them and those of one type. *)
Lemma sample_events_wellFormed : eventsWellFormed (db committedEvents).
Proof.
  apply (ledgerCommits_eventsWellFormed ([] ++ [(1, [])])).
  eapply (ledgerCommits_block emptyStore [] emptyStore block1);
    [apply ledgerCommits_nil|].
  apply run_result. by vm_compute.
Qed.

Lemma sample_events_sorted :
  EventsByHeight committedEvents 1 "" =
    Ok [event 0 0 "A"; event 0 1 "A"; event 1 0 "B"] ∧
  EventsByHeight committedEvents 1 "A" = Ok [event 0 0 "A"; event 0 1 "A"] ∧
  EventsByHeight committedEvents 2 "" = Ok [].
Proof. split_and!; by vm_compute. Qed.

Lemma EventsByHeight_sorted_matching_witness :
  ∃ events,
    EventsByHeight committedEvents 1 "A" = Ok events ∧
    (∀ event,
       event ∈ events ↔
       (∃ b, db committedEvents !! eventKey 1 (TransactionIndex event)
               (EventIndex event) (EventType event) = Some b ∧
             decodeEvent b = Some event) ∧
       matchesType "A" (EventType event)) ∧
    StronglySorted eventOrder events ∧
    NoDup events.
Proof.
  apply (EventsByHeight_sorted_matching committedEvents 1 "A"
           sample_events_wellFormed).
Defined.

(** C10, as stated, fails: after a commit whose checkpoint the repository
    refused, block 1 is the latest block and the pending block is still at
    height 1; [CreateAccount] succeeds, commits at heights 1 and 2, and the
    latest height goes from 1 to 2. *)
Lemma CreateAccount_after_refused_checkpoint :
  (@commitBlock encoding hashing brokenRepository externals 30 chain0).1 =
    Err (StorageFailure ErrGit) ∧
  ViewTxn (storage stalled) getLatestBlockHeightTx = Ok 1 ∧
  Height (pbHeader (pendingBlockOf stalled)) = 1 ∧
  (CreateAccount [] [] 10 20 stalled).1 = Ok 1 ∧
  ViewTxn (storage (CreateAccount [] [] 10 20 stalled).2)
    getLatestBlockHeightTx = Ok 2 ∧
  ¬ (∀ (publicKeys contracts : list string) (now1 now2 : N)
       (b b' : Blockchain) (address l : N),
       ViewTxn (storage b) getLatestBlockHeightTx = Ok l →
       CreateAccount publicKeys contracts now1 now2 b = (Ok address, b') →
       ViewTxn (storage b') getLatestBlockHeightTx = Ok (l + 2)).
Proof.
  do 5 (split; [by vm_compute|]).
  intros Hclaim.
  specialize (Hclaim [] [] 10 20 stalled (CreateAccount [] [] 10 20 stalled).2
                1 1).
  assert (ViewTxn (storage (CreateAccount [] [] 10 20 stalled).2)
            getLatestBlockHeightTx = Ok 2) as Hlatest by (by vm_compute).
  rewrite Hclaim in Hlatest; [done|by vm_compute|].
  apply run_result. by vm_compute.
Qed.

(** Creating an account on the sample blockchain, whose latest block is
    the genesis block and whose pending block is at height 1: blocks 1 and
    2 are committed and the latest height is 2 afterwards. *)
Lemma CreateAccount_commits_two_blocks_witness :
  ∃ l first second key referenceBlockID tx,
    ViewTxn (storage chain0) getLatestBlockHeightTx = Ok l ∧
    ViewTxn (storage (CreateAccount [] [] 10 20 chain0).2)
      getLatestBlockHeightTx =
      Ok (N.max l (Height (pbHeader (pendingBlockOf chain0)) + 1)) ∧
    (Height (pbHeader (pendingBlockOf chain0)) = l + 1 →
       ViewTxn (storage (CreateAccount [] [] 10 20 chain0).2)
         getLatestBlockHeightTx = Ok (l + 2)) ∧
    BlockByHeight (storage (CreateAccount [] [] 10 20 chain0).2)
      (Height (pbHeader (pendingBlockOf chain0))) = Ok first ∧
    BlockByHeight (storage (CreateAccount [] [] 10 20 chain0).2)
      (Height (pbHeader (pendingBlockOf chain0)) + 1) = Ok second ∧
    (l ≤ Height (pbHeader (pendingBlockOf chain0)) + 1 →
       LatestBlock (storage (CreateAccount [] [] 10 20 chain0).2) =
         Ok second) ∧
    Height (BlockHeader first) = Height (pbHeader (pendingBlockOf chain0)) ∧
    Height (BlockHeader second) =
      Height (pbHeader (pendingBlockOf chain0)) + 1 ∧
    ParentID (BlockHeader second) = BlockID first ∧
    Guarantees second = [] ∧
    createAccountTransaction [] [] key referenceBlockID = Some tx ∧
    TransactionByID (storage (CreateAccount [] [] 10 20 chain0).2) (TxID tx) =
      Ok tx ∧
    Height (pbHeader (pendingBlockOf (CreateAccount [] [] 10 20 chain0).2)) =
      Height (pbHeader (pendingBlockOf chain0)) + 2.
Proof.
  apply (CreateAccount_commits_two_blocks [] [] 10 20 chain0 _ 1).
  apply run_result. by vm_compute.
Defined.

(** ** Runs for the further properties *)

(** The sample session: a snapshot is taken after block 1, block 2 is
    committed, and the second jump is back at the database of block 1. *)
Lemma JumpToContext_returns_to_snapshot_witness :
  db jump1 = db jump0 ∧
  ∃ s3, JumpToContext jump2 "snap" "u2" = (Ok tt, s3) ∧
        db s3 = db jump0 ∧
        currentBranch (dbGitRepository s3) = "u2" ∧
        tags (dbGitRepository s3) !! "snap" = Some (db jump0).
Proof.
  apply (JumpToContext_returns_to_snapshot jump0 jump1 jump2 "snap" "u1" "u2").
  - apply not_elem_of_dom. refine (bool_decide_unpack _ _). by vm_compute.
  - apply not_elem_of_dom. refine (bool_decide_unpack _ _). by vm_compute.
  - refine (bool_decide_unpack _ _). by vm_compute.
  - apply run_result. by vm_compute.
  - apply rtc_once.
    eapply (step_CommitBlock jump1 block2 [] ∅ ∅ delta20 []).
    apply surjective_pairing.
  - apply not_elem_of_dom. refine (bool_decide_unpack _ _). by vm_compute.
  - reflexivity.
Defined.

Lemma StoreBlock_read_back_witness :
  BlockByHeight (StoreBlock emptyStore block1).2 (Height (BlockHeader block1)) =
    Ok block1 ∧
  BlockByID (StoreBlock emptyStore block1).2 (BlockID block1) = Ok block1 ∧
  (0 ≤ Height (BlockHeader block1) →
   LatestBlock (StoreBlock emptyStore block1).2 = Ok block1) ∧
  (Height (BlockHeader block1) < 0 →
   db (StoreBlock emptyStore block1).2 !! latestBlockKey =
     db emptyStore !! latestBlockKey).
Proof.
  apply (StoreBlock_read_back emptyStore _ block1 0).
  - apply run_result. by vm_compute.
  - reflexivity.
Defined.

Lemma insert_read_back_witness :
  TransactionByID (InsertTransaction emptyStore tx1).2 (TxID tx1) = Ok tx1.
Proof.
  destruct (insert_read_back emptyStore (InsertTransaction emptyStore tx1).2)
    as (_ & Htx & _).
  apply Htx. apply run_result. by vm_compute.
Defined.

Lemma facade_not_found_witness :
  GetBlockByHeight chain1 7 = Err (BlockNotFoundByHeightError 7) ∧
  GetTransaction chain1 (TxID tx2) = Err (TransactionNotFoundError (TxID tx2)) ∧
  GetTransaction chain1 (TxID tx1) = Ok tx1.
Proof.
  destruct (facade_not_found chain1) as (Hheight & _ & _ & Hnone & Hpending).
  split_and!.
  - apply Hheight. by vm_compute.
  - apply Hnone; by vm_compute.
  - apply Hpending. by vm_compute.
Defined.


Lemma CommitBlock_writes_its_keys_only_witness :
  db (CommitBlock genesisStore block1 [] ∅ ∅ delta1 []).2 !! blockKey 0 =
    db genesisStore !! blockKey 0.
Proof.
  apply CommitBlock_writes_its_keys_only. simpl. lia.
Defined.

Lemma CommitBlock_latest_height_witness :
  ViewTxn (CommitBlock genesisStore block1 [] ∅ ∅ delta1 []).2
    getLatestBlockHeightTx = Ok (N.max 0 (Height (BlockHeader block1))) ∧
  BlockByHeight (CommitBlock genesisStore block1 [] ∅ ∅ delta1 []).2
    (Height (BlockHeader block1)) = Ok block1 ∧
  BlockByID (CommitBlock genesisStore block1 [] ∅ ∅ delta1 []).2
    (BlockID block1) = Ok block1.
Proof.
  apply (CommitBlock_latest_height genesisStore _ block1 [] ∅ ∅ delta1 [] 0).
  - apply run_result. by vm_compute.
  - by vm_compute.
Defined.

Lemma changelists_increasing_witness :
  StronglySorted N.lt (getChangelist (ledgerChangeLog store5) balance).
Proof.
  apply (changelists_increasing history store5 balance sample_history_commits
           sample_history_wellFormed).
Defined.

Lemma sample_history_extended :
  wellFormedHistory (history ++ [(Height (BlockHeader block7), delta20)]).
Proof.
  split.
  - simpl.
    repeat (apply StronglySorted_cons; split; [repeat constructor; lia|]).
    constructor.
  - simpl.
    repeat (apply Forall_cons; split; [split; [|done]|]); [..|by apply Forall_nil];
      refine (bool_decide_unpack (NoDup _) _); by vm_compute.
Qed.

(** A block at height 7 on top of the sample history: the read at height
    6 is what it was. *)
Lemma committed_ledger_immutable_witness :
  LedgerViewByHeight (CommitBlock store5 block7 [] ∅ ∅ delta20 []).2 6 balance =
    LedgerViewByHeight store5 6 balance.
Proof.
  apply (committed_ledger_immutable history store5 _ block7 [] ∅ ∅ delta20 []
           6 balance sample_history_commits sample_history_extended).
  - apply run_result. by vm_compute.
  - simpl. lia.
Defined.


Lemma session_events_readable_witness :
  eventsWellFormed (db committedEvents) ∧
  ∃ events, EventsByHeight committedEvents 1 "A" = Ok events.
Proof.
  apply session_events_readable. apply rtc_once.
  eapply (step_CommitBlock emptyStore block1 [] ∅ ∅ [] eventsOf1).
  apply surjective_pairing.
Defined.

(** A run that ends without an error, and what it returns. *)
Lemma run_complete {A E B} (p : (list A * option E) * B) :
  p.1.2 = None → p = ((p.1.1, None), p.2).
Proof. destruct p as [[results e] b]. simpl. by intros ->. Qed.

Lemma executeBlock_completes_witness :
  ExecutionComplete (pendingBlockOf (executeBlock chain2).2) = true ∧
  pbIndex (pendingBlockOf (executeBlock chain2).2) =
    pbIndex (pendingBlockOf chain2) +
    N.of_nat (length (executeBlock chain2).1.1) ∧
  pbTransactions (pendingBlockOf (executeBlock chain2).2) =
    pbTransactions (pendingBlockOf chain2) ∧
  storage (executeBlock chain2).2 = storage chain2.
Proof.
  apply executeBlock_completes. apply run_complete. by vm_compute.
Defined.

Lemma ResetPendingBlock_fresh_witness :
  storage (ResetPendingBlock 40 chain3).2 = storage chain3 ∧
  Empty (pendingBlockOf (ResetPendingBlock 40 chain3).2) = true.
Proof.
  destruct (ResetPendingBlock_fresh 40 chain3 (ResetPendingBlock 40 chain3).2)
    as (Hstorage & _ & Hempty & _);
    [apply run_result; by vm_compute|].
  exact (conj Hstorage Hempty).
Defined.

Lemma commitBlock_keeps_anchor_witness :
  ViewTxn (storage (commitBlock 30 chain4).2) getLatestBlockHeightTx =
    Ok (0 + 1) ∧
  ∃ block,
    LatestBlock (storage (commitBlock 30 chain4).2) = Ok block ∧
    pbHeader (pendingBlockOf (commitBlock 30 chain4).2) =
      mkHeader (0 + 2) (BlockID block) 30.
Proof.
  destruct (isOk_Ok (commitBlock 30 chain4).1) as [block Hblock];
    [by vm_compute|].
  destruct (commitBlock_keeps_anchor 30 chain4 (commitBlock 30 chain4).2
              block 0) as (Hheight & Hlatest & Hpending & _).
  - by vm_compute.
  - by vm_compute.
  - apply run_result, Hblock.
  - split; [exact Hheight|]. exists block. split; [exact Hlatest|exact Hpending].
Defined.

Lemma CreateAccount_mid_execution_witness :
  ∃ e b',
    CreateAccount [] [] 10 20 chain3 = (Err e, b') ∧
    storage b' = storage chain3 ∧ pendingBlockOf b' = pendingBlockOf chain3.
Proof. apply CreateAccount_mid_execution. by vm_compute. Defined.

Lemma AddTransaction_read_back_witness :
  storage chain1 = storage chain0 ∧
  GetTransaction chain1 (TxID tx1) = Ok tx1 ∧
  GetTransactionResult chain1 (TxID tx1) =
    Ok (mkSDKTransactionResult TransactionStatusPending None []) ∧
  AddTransaction tx1 chain1 = (Err (DuplicateTransactionError (TxID tx1)), chain1).
Proof.
  apply (AddTransaction_read_back tx1 chain0 chain1).
  apply run_result. by vm_compute.
Defined.

Lemma convertToSealedResults_ids_witness :
  ∃ output,
    convertToSealedResults (pbTransactionResultsMap (pendingBlockOf chain4)) =
      Some output ∧
    dom output = dom (pbTransactionResultsMap (pendingBlockOf chain4)) ∧
    size output = size (pbTransactionResultsMap (pendingBlockOf chain4)).
Proof.
  destruct (convertToSealedResults
              (pbTransactionResultsMap (pendingBlockOf chain4)))
    as [output|] eqn:Houtput; [|by vm_compute in Houtput].
  destruct (convertToSealedResults_ids _ _ Houtput) as (Hdom & Hsize & _).
  exists output. exact (conj eq_refl (conj Hdom Hsize)).
Defined.

Lemma NewBlockchain_anchored_witness :
  ∃ b, NewBlockchain sampleConfig 5 = Ok b ∧
       LatestBlock (storage b) = Ok genesis ∧
       Empty (pendingBlockOf b) = true.
Proof.
  destruct (isOk_Ok (NewBlockchain sampleConfig 5)) as [b Hb];
    [by vm_compute|].
  destruct (NewBlockchain_anchored sampleConfig 5 b Hb)
    as (Hnew & _ & Hempty & _).
  destruct Hnew as (Hlatest & _); [reflexivity|].
  exists b. split; [exact Hb|]. split; [exact Hlatest|exact Hempty].
Defined.
